(** * Oj::Doc (ext/oj/fast.c): the lazy JSON document navigator

    A shallow embedding of [fast.c].  The C heap is explicit:

    - the JSON text is a byte buffer ([list ascii], NUL-terminated) that the
      scanner rewrites in place; a [char *] into it is an offset;
    - the leaf arena (the batches of [leaf_new]) is a [list Leaf]; a [Leaf]
      pointer is [NULL] or [At a], the a-th cell handed out;
    - the cursor [doc->where] is an index into [where_path];
    - the Ruby object space is a [list RObject]; a [VALUE] is an immediate
      ([Qnil], [Qtrue], [Qfalse], a Fixnum) or a reference into it.

    Dereferencing [NULL] or a wild pointer, and a cursor slot outside
    [where_path], are undefined in C; the model reports them as [Fault].
    Loops and recursion that C leaves unbounded take a [fuel] argument. *)

From Stdlib Require Import ZArith Ascii String List Lia.
From stdpp Require Import base tactics option list numbers.

Open Scope char_scope.
Open Scope Z_scope.

(** ** Results *)

Inductive error :=
| SyntaxError (msg : string) (pos : nat)  (* raise_error(msg, pi->str, pi->s) *)
| ArgError (loc : Z) (path : list ascii)  (* rb_raise(rb_eArgError, "Failed to locate element ...") *)
| TypeError                               (* rb_raise(rb_eTypeError, ...) *)
| Fault                                   (* undefined behaviour: NULL/wild pointer, slot out of range *)
| OutOfFuel.

Inductive res (A : Type) :=
| Ok (a : A)
| Err (e : error).
Arguments Ok {A} a.
Arguments Err {A} e.

#[global] Instance res_ret : MRet res := fun A a => Ok a.
#[global] Instance res_bind : MBind res := fun A B f m =>
  match m with Ok a => f a | Err e => Err e end.

#[global] Instance res_fmap : FMap res := fun A B f m =>
  match m with Ok a => Ok (f a) | Err e => Err e end.

Definition is_ok {A} (r : res A) : bool :=
  match r with Ok _ => true | Err _ => false end.

(** ** Characters and the text buffer *)

Definition NUL : ascii := "000".
Definition DQUOTE : ascii := "034".

Definition code (c : ascii) : Z := Z.of_nat (nat_of_ascii c).
Definition chr (z : Z) : ascii := ascii_of_nat (Z.to_nat (z mod 256)).

(** ['0' <= c && c <= '9'] *)
Definition is_digit (c : ascii) : bool := (code "0" <=? code c) && (code c <=? code "9").

(** [*p] for a [char *p] at offset [i] of the buffer. *)
Definition peek (b : list ascii) (i : nat) : ascii := default NUL (b !! i).

(** [*p = c] *)
Definition poke (b : list ascii) (i : nat) (c : ascii) : list ascii := <[i := c]> b.

(** The C string that starts at offset [i]: the bytes up to the first NUL. *)
Fixpoint cstr (l : list ascii) : list ascii :=
  match l with
  | [] => []
  | c :: l => if Ascii.eqb c NUL then [] else c :: cstr l
  end.
Definition cstr_at (b : list ascii) (i : nat) : list ascii := cstr (drop i b).

(** Test texts are written with ['] for the double quote. *)
Definition dq (s : string) : list ascii :=
  map (fun c => if Ascii.eqb c "'" then DQUOTE else c) (list_ascii_of_string s).

(** ** Ruby values (ruby.h) *)

Inductive rtype :=
| T_NONE | T_NIL | T_TRUE | T_FALSE | T_FIXNUM | T_FLOAT | T_STRING | T_ARRAY | T_HASH.

Inductive VALUE :=
| Qnil | Qtrue | Qfalse | Qundef
| Fixnum (n : Z)
| Ref (o : nat).

(** A heap-allocated Ruby object.  A Float keeps the text [rb_cstr_to_dbl]
    was given; a Hash keeps its entries in insertion order. *)
Inductive RObject :=
| RString (bytes : list ascii)
| RFloat (text : list ascii)
| RBignum (n : Z)
| RArray (items : list VALUE)
| RHash (entries : list (VALUE * VALUE)).

#[global] Instance rtype_eq_dec : EqDecision rtype.
Proof. solve_decision. Defined.
#[global] Instance VALUE_eq_dec : EqDecision VALUE.
Proof. solve_decision. Defined.
#[global] Instance ascii_eq_dec' : EqDecision ascii := ascii_dec.

(** ** Leaves (struct _Leaf) *)

Inductive vtype := STR_VAL | COL_VAL | RUBY_VAL.
#[global] Instance vtype_eq_dec : EqDecision vtype.
Proof. solve_decision. Defined.

Inductive ptr := NULL | At (a : nat).
#[global] Instance ptr_eq_dec : EqDecision ptr.
Proof. solve_decision. Defined.

(** The members of the two unions are separate fields: the code reads a
    member only under the tag ([parent_type], [value_type]) it was written
    under. *)
Record Leaf := mkLeaf {
  next : ptr;
  key : nat;            (* const char *key: offset of the key in the buffer *)
  index : Z;            (* size_t index *)
  str : nat;            (* char *str: offset of the payload in the buffer *)
  elements : ptr;       (* last child of the sibling ring *)
  value : VALUE;
  type : rtype;
  parent_type : rtype;
  value_type : vtype
}.

Definition set_next (p : ptr) (l : Leaf) : Leaf :=
  mkLeaf p (key l) (index l) (str l) (elements l) (value l) (type l) (parent_type l) (value_type l).
Definition set_key (k : nat) (l : Leaf) : Leaf :=
  mkLeaf (next l) k (index l) (str l) (elements l) (value l) (type l) (parent_type l) (value_type l).
Definition set_index (i : Z) (l : Leaf) : Leaf :=
  mkLeaf (next l) (key l) i (str l) (elements l) (value l) (type l) (parent_type l) (value_type l).
Definition set_str (s : nat) (l : Leaf) : Leaf :=
  mkLeaf (next l) (key l) (index l) s (elements l) (value l) (type l) (parent_type l) (value_type l).
Definition set_elements (p : ptr) (l : Leaf) : Leaf :=
  mkLeaf (next l) (key l) (index l) (str l) p (value l) (type l) (parent_type l) (value_type l).
Definition set_parent_type (t : rtype) (l : Leaf) : Leaf :=
  mkLeaf (next l) (key l) (index l) (str l) (elements l) (value l) (type l) t (value_type l).
Definition set_value (v : VALUE) (l : Leaf) : Leaf :=
  mkLeaf (next l) (key l) (index l) (str l) (elements l) v (type l) (parent_type l) (value_type l).
Definition set_value_type (t : vtype) (l : Leaf) : Leaf :=
  mkLeaf (next l) (key l) (index l) (str l) (elements l) (value l) (type l) (parent_type l) t.

(** [leaf_init]: a fresh cell; the members it does not assign are shown as 0. *)
Definition leaf_init (t : rtype) : Leaf :=
  match t with
  | T_ARRAY | T_HASH => mkLeaf NULL 0 0 0 NULL Qundef t T_NONE COL_VAL
  | T_NIL => mkLeaf NULL 0 0 0 NULL Qnil t T_NONE RUBY_VAL
  | T_TRUE => mkLeaf NULL 0 0 0 NULL Qtrue t T_NONE RUBY_VAL
  | T_FALSE => mkLeaf NULL 0 0 0 NULL Qfalse t T_NONE RUBY_VAL
  | _ => mkLeaf NULL 0 0 0 NULL Qundef t T_NONE STR_VAL
  end.

#[global] Instance Leaf_inhabited : Inhabited Leaf := populate (leaf_init T_NONE).

(** ** The document (struct _Doc) *)

Definition MAX_STACK : nat := 100.

Record Doc := mkDoc {
  data : ptr;
  where_ : nat;               (* doc->where - doc->where_path *)
  where_path : list ptr;      (* MAX_STACK slots *)
  size : Z;                   (* unsigned long *)
  leaves : list Leaf          (* the batches, in allocation order *)
}.

Definition set_data (p : ptr) (d : Doc) : Doc :=
  mkDoc p (where_ d) (where_path d) (size d) (leaves d).
Definition set_where (w : nat) (d : Doc) : Doc :=
  mkDoc (data d) w (where_path d) (size d) (leaves d).
Definition set_where_path (wp : list ptr) (d : Doc) : Doc :=
  mkDoc (data d) (where_ d) wp (size d) (leaves d).
Definition set_size (n : Z) (d : Doc) : Doc :=
  mkDoc (data d) (where_ d) (where_path d) n (leaves d).
Definition set_leaves (L : list Leaf) (d : Doc) : Doc :=
  mkDoc (data d) (where_ d) (where_path d) (size d) L.

(** [unsigned long] arithmetic. *)
Definition ulong (z : Z) : Z := z mod 2 ^ 64.
(** [int] arithmetic (two's complement wrap). *)
Definition int (z : Z) : Z := (z + 2 ^ 31) mod 2 ^ 32 - 2 ^ 31.

Definition doc_init : Doc := mkDoc NULL 0 (replicate MAX_STACK NULL) 0 [].

(** [leaf_new]: the next free cell of the arena. *)
Definition leaf_new (d : Doc) (t : rtype) : nat * Doc :=
  (length (leaves d), set_leaves (leaves d ++ [leaf_init t]) d).

(** [leaf_append_element]: [parent] and [element] are cells of the arena. *)
Definition leaf_append_element (L : list Leaf) (parent element : nat) : list Leaf :=
  match elements (L !!! parent) with
  | NULL =>
      alter (set_next (At element)) element (alter (set_elements (At element)) parent L)
  | At last =>
      let L := alter (set_next (next (L !!! last))) element L in
      let L := alter (set_next (At element)) last L in
      alter (set_elements (At element)) parent L
  end.

(** ** The scanner *)

Record ParseInfo := mkPI {
  pi_str : list ascii;     (* char *str: the buffer being read from *)
  pi_s : nat;              (* char *s: current position, as an offset *)
  pi_doc : Doc
}.

Definition cur (pi : ParseInfo) : ascii := peek (pi_str pi) (pi_s pi).
Definition advance (k : nat) (pi : ParseInfo) : ParseInfo :=
  mkPI (pi_str pi) (pi_s pi + k) (pi_doc pi).
Definition set_doc (d : Doc) (pi : ParseInfo) : ParseInfo :=
  mkPI (pi_str pi) (pi_s pi) d.
Definition set_buf (b : list ascii) (pi : ParseInfo) : ParseInfo :=
  mkPI b (pi_s pi) (pi_doc pi).
Definition on_leaves (f : list Leaf → list Leaf) (pi : ParseInfo) : ParseInfo :=
  set_doc (set_leaves (f (leaves (pi_doc pi))) (pi_doc pi)) pi.

Definition is_white (c : ascii) : bool :=
  match c with
  | " " | "009" | "012" | "010" | "013" => true
  | _ => false
  end.

Fixpoint white_run (l : list ascii) : nat :=
  match l with
  | c :: l => if is_white c then S (white_run l) else 0%nat
  | [] => 0%nat
  end.

Fixpoint digit_run (l : list ascii) : nat :=
  match l with
  | c :: l => if is_digit c then S (digit_run l) else 0%nat
  | [] => 0%nat
  end.

(** [for (; 1; pi->s++)] until a byte outside the white space set. *)
Definition next_non_white (pi : ParseInfo) : ParseInfo :=
  advance (white_run (drop (pi_s pi) (pi_str pi))) pi.

(** [for (; '0' <= *pi->s && *pi->s <= '9'; pi->s++) {}] *)
Definition skip_digits (pi : ParseInfo) : ParseInfo :=
  advance (digit_run (drop (pi_s pi) (pi_str pi))) pi.

Definition read_num (pi : ParseInfo) : ptr * ParseInfo :=
  let start := pi_s pi in
  let pi := set_doc (leaf_new (pi_doc pi) T_FIXNUM).2 pi in
  let pi := if Ascii.eqb (cur pi) "-" then advance 1 pi else pi in
  let pi := skip_digits pi in
  let '(ty, pi) :=
    if Ascii.eqb (cur pi) "." then (T_FLOAT, skip_digits (advance 1 pi))
    else (T_FIXNUM, pi) in
  let pi :=
    if Ascii.eqb (cur pi) "e" || Ascii.eqb (cur pi) "E" then
      let pi := advance 1 pi in
      let pi := if Ascii.eqb (cur pi) "-" || Ascii.eqb (cur pi) "+"
                then advance 1 pi else pi in
      skip_digits pi
    else pi in
  let '(leaf, d) := leaf_new (pi_doc pi) ty in
  (At leaf, set_doc (set_leaves (alter (set_str start) leaf (leaves d)) d) pi).

(** [read_true], [read_false], [read_nil]: the letters after the first. *)
Fixpoint expect (b : list ascii) (i : nat) (letters : list ascii) : bool :=
  match letters with
  | [] => true
  | c :: letters => Ascii.eqb (peek b i) c && expect b (S i) letters
  end.

Definition read_word (t : rtype) (letters : list ascii) (msg : string)
    (pi : ParseInfo) : res (ptr * ParseInfo) :=
  let '(leaf, d) := leaf_new (pi_doc pi) t in
  let pi := advance 1 (set_doc d pi) in
  if expect (pi_str pi) (pi_s pi) letters
  then Ok (At leaf, advance (length letters) pi)
  else Err (SyntaxError msg (pi_s pi)).

Definition read_true : ParseInfo → res (ptr * ParseInfo) :=
  read_word T_TRUE ["r"; "u"; "e"] "invalid format, expected 'true'".
Definition read_false : ParseInfo → res (ptr * ParseInfo) :=
  read_word T_FALSE ["a"; "l"; "s"; "e"] "invalid format, expected 'false'".
Definition read_nil : ParseInfo → res (ptr * ParseInfo) :=
  read_word T_NIL ["u"; "l"; "l"] "invalid format, expected 'nil'".

Definition hex_digit (c : ascii) : option Z :=
  if is_digit c then Some (code c - code "0")
  else if (code "A" <=? code c) && (code c <=? code "F") then Some (code c - code "A" + 10)
  else if (code "a" <=? code c) && (code c <=? code "f") then Some (code c - code "a" + 10)
  else None.

(** [read_hex(pi, h)]: the byte spelled by the two hex digits at [h]. *)
Definition read_hex (b : list ascii) (h : nat) : res ascii :=
  match hex_digit (peek b h) with
  | None => Err (SyntaxError "invalid hex character" h)
  | Some hi =>
      match hex_digit (peek b (h + 1)) with
      | None => Err (SyntaxError "invalid hex character" (h + 1))
      | Some lo => Ok (chr (Z.shiftl hi 4 + lo))
      end
  end.

(** The byte a one-letter escape stands for. *)
Definition escape (c : ascii) : option ascii :=
  match c with
  | "n" => Some "010"
  | "r" => Some "013"
  | "t" => Some "009"
  | "f" => Some "012"
  | "b" => Some "008"
  | "034" => Some "034"
  | "/" => Some "/"
  | "\" => Some "\"
  | _ => None
  end.

(** The loop of [read_quoted_value]: [h] is the head (read), [t] the tail
    (write); it stops with [h] on the closing quote. *)
Fixpoint read_quoted_loop (fuel : nat) (b : list ascii) (h t : nat)
    : res (list ascii * nat * nat) :=
  match fuel with
  | O => Err OutOfFuel
  | S fuel =>
    let c := peek b h in
    if Ascii.eqb c DQUOTE then Ok (b, h, t)
    else if Ascii.eqb c NUL then Err (SyntaxError "quoted string not terminated" h)
    else if Ascii.eqb c "\" then
      let h := (h + 1)%nat in
      if Ascii.eqb (peek b h) "u" then
        let h := (h + 1)%nat in
        c1 ← read_hex b h;
        let b := poke b t c1 in
        let h := (h + 2)%nat in
        let t := if Ascii.eqb (peek b t) NUL then t else (t + 1)%nat in
        c2 ← read_hex b h;
        let b := poke b t c2 in
        let h := (h + 1)%nat in
        read_quoted_loop fuel b (h + 1) (t + 1)
      else
        match escape (peek b h) with
        | Some e => read_quoted_loop fuel (poke b t e) (h + 1) (t + 1)
        | None => Err (SyntaxError "invalid escaped character" h)
        end
    else
      read_quoted_loop fuel (if decide (t = h) then b else poke b t c) (h + 1) (t + 1)
  end.

(** [read_quoted_value]: returns the offset of the (unescaped, terminated)
    value; [pi->s] is left just after the closing quote. *)
Definition read_quoted_value (pi : ParseInfo) : res (nat * ParseInfo) :=
  let h := (pi_s pi + 1)%nat in
  '(b, h', t) ← read_quoted_loop (length (pi_str pi)) (pi_str pi) h h;
  Ok (h, mkPI (poke b t NUL) (h' + 1) (pi_doc pi)).

Definition read_str (pi : ParseInfo) : res (ptr * ParseInfo) :=
  let '(leaf, d) := leaf_new (pi_doc pi) T_STRING in
  '(v, pi) ← read_quoted_value (set_doc d pi);
  Ok (At leaf, on_leaves (alter (set_str v) leaf) pi).

Section Containers.
  (** The recursive call of [read_obj] and [read_array]. *)
Variable read_next : ParseInfo → res (ptr * ParseInfo).

Fixpoint read_array_loop (fuel : nat) (a : nat) (cnt : Z) (pi : ParseInfo)
      : res ParseInfo :=
    match fuel with
    | O => Err OutOfFuel
    | S fuel =>
      let pi := next_non_white pi in
      '(e, pi) ← read_next pi;
      match e with
      | NULL => Err (SyntaxError "unexpected character" (pi_s pi))
      | At e =>
        let cnt := int (cnt + 1) in
        let pi := on_leaves (alter (set_parent_type T_ARRAY) e) (on_leaves (alter (set_index (ulong cnt)) e) pi) in
        let pi := on_leaves (fun L => leaf_append_element L a e) pi in
        let end_ := pi_s pi in
        let pi := next_non_white pi in
        if Ascii.eqb (cur pi) "," then
          read_array_loop fuel a cnt (set_buf (poke (pi_str pi) end_ NUL) (advance 1 pi))
        else if Ascii.eqb (cur pi) "]" then
          Ok (set_buf (poke (pi_str pi) end_ NUL) (advance 1 pi))
        else Err (SyntaxError "invalid format, expected , or ] while in an array" (pi_s pi))
      end
    end.

Definition read_array (fuel : nat) (pi : ParseInfo) : res (ptr * ParseInfo) :=
    let '(a, d) := leaf_new (pi_doc pi) T_ARRAY in
    let pi := next_non_white (advance 1 (set_doc d pi)) in
    if Ascii.eqb (cur pi) "]" then Ok (At a, advance 1 pi)
    else pi ← read_array_loop fuel a 0 pi; Ok (At a, pi).

Fixpoint read_obj_loop (fuel : nat) (h : nat) (pi : ParseInfo) : res ParseInfo :=
    match fuel with
    | O => Err OutOfFuel
    | S fuel =>
      let pi := next_non_white pi in
      if negb (Ascii.eqb (cur pi) DQUOTE)
      then Err (SyntaxError "unexpected character" (pi_s pi))
      else
      '(k, pi) ← read_quoted_value pi;
      let pi := next_non_white pi in
      if negb (Ascii.eqb (cur pi) ":")
      then Err (SyntaxError "invalid format, expected :" (pi_s pi))
      else
      '(val, pi) ← read_next (advance 1 pi);
      match val with
      | NULL => Err (SyntaxError "unexpected character" (pi_s pi))
      | At val =>
        let end_ := pi_s pi in
        let pi := on_leaves (alter (set_parent_type T_HASH) val) (on_leaves (alter (set_key k) val) pi) in
        let pi := on_leaves (fun L => leaf_append_element L h val) pi in
        let pi := next_non_white pi in
        if Ascii.eqb (cur pi) "}" then
          Ok (set_buf (poke (pi_str pi) end_ NUL) (advance 1 pi))
        else if Ascii.eqb (cur pi) "," then
          read_obj_loop fuel h (set_buf (poke (pi_str pi) end_ NUL) (advance 1 pi))
        else Err (SyntaxError "invalid format, expected , or } while in an object" (pi_s pi))
      end
    end.

Definition read_obj (fuel : nat) (pi : ParseInfo) : res (ptr * ParseInfo) :=
    let '(h, d) := leaf_new (pi_doc pi) T_HASH in
    let pi := next_non_white (advance 1 (set_doc d pi)) in
    if Ascii.eqb (cur pi) "}" then Ok (At h, advance 1 pi)
    else pi ← read_obj_loop fuel h pi; Ok (At h, pi).
End Containers.

(** [read_next]: one token; [pi->doc->size++] runs whether or not the
    switch found a value (the [default] case leaves [leaf] at 0). *)
Fixpoint read_next (fuel : nat) (pi : ParseInfo) : res (ptr * ParseInfo) :=
  match fuel with
  | O => Err OutOfFuel
  | S fuel =>
    let pi := next_non_white pi in
    '(leaf, pi) ←
      match cur pi with
      | "{" => read_obj (read_next fuel) fuel pi
      | "[" => read_array (read_next fuel) fuel pi
      | "034" => read_str pi
      | "+" | "-" | "0" | "1" | "2" | "3" | "4" | "5" | "6" | "7" | "8" | "9" =>
          Ok (read_num pi)
      | "t" => read_true pi
      | "f" => read_false pi
      | "n" => read_nil pi
      | _ => Ok (NULL, pi)
      end;
    Ok (leaf, set_doc (set_size (ulong (size (pi_doc pi) + 1)) (pi_doc pi)) pi)
  end.

(** [parse_json] up to the yield of [protect_open_proc]: the document and
    the buffer the block is given. *)
Definition parse_json (fuel : nat) (json : list ascii) : res ParseInfo :=
  let pi := mkPI json 0 doc_init in
  '(leaf, pi) ← read_next fuel pi;
  let d := set_data leaf (pi_doc pi) in
  let d := set_where_path (<[where_ d := leaf]> (where_path d)) d in
  Ok (set_doc (set_where 0 d) pi).

(** [doc_open]: the text is copied with its terminating NUL; no value can
    nest deeper, nor a container hold more values, than the text has bytes. *)
Definition doc_open (text : list ascii) : res ParseInfo :=
  parse_json (S (length text)) (text ++ [NUL]).

Definition doc_size (d : Doc) : Z := size d.

(** ** Pointers into the arena and the cursor stack *)

(** [*p] for a [Leaf p]. *)
Definition deref (L : list Leaf) (p : ptr) : res Leaf :=
  match p with
  | NULL => Err Fault
  | At a => match L !! a with Some l => Ok l | None => Err Fault end
  end.

(** [stack[i]] *)
Definition slot (stack : list ptr) (i : nat) : res ptr :=
  match stack !! i with Some p => Ok p | None => Err Fault end.

(** [stack[i] = p] *)
Definition store (stack : list ptr) (i : nat) (p : ptr) : res (list ptr) :=
  if decide (i < length stack)%nat then Ok (<[i := p]> stack) else Err Fault.

Definition is_null (p : ptr) : bool := match p with NULL => true | At _ => false end.

(** ** Paths (C strings) *)

Definition chr0 (path : list ascii) : ascii := hd NUL path.          (* *path *)
Definition chr1 (path : list ascii) : ascii := hd NUL (tl path).     (* path[1] *)

(** The step is [..]: both [path[0]] and [path[1]] are dots. *)
Definition dotdot (path : list ascii) : bool :=
  Ascii.eqb (chr0 path) "." && Ascii.eqb (chr1 path) ".".

(** [if ('/' == *path) path++;] *)
Definition skip_slash (path : list ascii) : list ascii :=
  if Ascii.eqb (chr0 path) "/" then drop 1 path else path.

(** The digits loop of an ARRAY step: [cnt = cnt * 10 + digit], in [int]. *)
Fixpoint read_index (cnt : Z) (path : list ascii) : Z * list ascii :=
  match path with
  | c :: rest =>
      if is_digit c then read_index (int (cnt * 10 + (code c - code "0"))) rest
      else (cnt, path)
  | [] => (cnt, path)
  end.

Fixpoint strlen (s : list ascii) : nat :=
  match s with
  | c :: s => if Ascii.eqb c NUL then 0%nat else S (strlen s)
  | [] => 0%nat
  end.

(** [strchr(s, c) - s], when [strchr] finds [c]. *)
Fixpoint strchr (s : list ascii) (c : ascii) : option nat :=
  match s with
  | x :: s =>
      if Ascii.eqb x c then Some 0%nat
      else if Ascii.eqb x NUL then None
      else S <$> strchr s c
  | [] => None
  end.

(** [0 == strncmp(a, b, n)] *)
Fixpoint strncmp0 (a b : list ascii) (n : nat) : bool :=
  match n with
  | O => true
  | S n =>
      if Ascii.eqb (chr0 a) (chr0 b)
      then if Ascii.eqb (chr0 a) NUL then true else strncmp0 (tl a) (tl b) n
      else false
  end.

(** The key step of a path: its length and the path after it. *)
Definition key_step (path : list ascii) : nat * list ascii :=
  match strchr path "/" with
  | None => let klen := strlen path in (klen, drop klen path)
  | Some klen => (klen, drop (klen + 1) path)
  end.

(** [ulong_fill]: the decimal digits of [num], written backwards into a
    32-byte buffer. *)
Fixpoint ulong_digits (room : nat) (num : Z) (acc : list ascii) : list ascii :=
  match room with
  | O => acc
  | S room =>
      if 0 <? num then ulong_digits room (num / 10) (chr (num mod 10 + code "0") :: acc)
      else acc
  end.

Definition ulong_fill (num : Z) : list ascii :=
  match ulong_digits 31 num [] with
  | [] => ["0"]
  | ds => ds
  end.

Section Navigator.
  (** The text buffer as the scanner left it; the navigator only reads it. *)
Variable json : list ascii.

  (** [0 == strncmp(key, e->key, klen) && '\0' == e->key[klen]] *)
Definition key_matches (path : list ascii) (klen : nat) (l : Leaf) : bool :=
    strncmp0 path (drop (key l) json) klen && Ascii.eqb (peek json (key l + klen)) NUL.

  (** The [do ... while (e != first)] of an ARRAY step: the sibling the
      count stops on, if the ring is not exhausted first. *)
Fixpoint nth_sibling (fuel : nat) (L : list Leaf) (e first : ptr) (cnt : Z)
      : res (option ptr) :=
    match fuel with
    | O => Err OutOfFuel
    | S fuel =>
      if 1 >=? cnt then Ok (Some e)
      else
        l ← deref L e;
        if decide (next l = first) then Ok None
        else nth_sibling fuel L (next l) first (int (cnt - 1))
    end.

  (** The [do ... while (e != first)] of a HASH step. *)
Fixpoint find_key (fuel : nat) (L : list Leaf) (e first : ptr)
      (path : list ascii) (klen : nat) : res (option ptr) :=
    match fuel with
    | O => Err OutOfFuel
    | S fuel =>
      l ← deref L e;
      if key_matches path klen l then Ok (Some e)
      else if decide (next l = first) then Ok None
      else find_key fuel L (next l) first path klen
    end.

  (** [get_leaf]: resolve [path] from [*lp] on a scratch stack. *)
Fixpoint get_leaf (fuel : nat) (L : list Leaf) (stack : list ptr) (lp : nat)
      (path : list ascii) : res ptr :=
    match fuel with
    | O => Err OutOfFuel
    | S fuel =>
      leaf ← slot stack lp;
      if Ascii.eqb (chr0 path) NUL then Ok leaf
      else if dotdot path then
        let path := skip_slash (drop 2 path) in
        match lp with
        | S lp' => get_leaf fuel L stack lp' path
        | O => Ok NULL
        end
      else
        l ← deref L leaf;
        if bool_decide (value_type l = COL_VAL) && negb (is_null (elements l)) then
          last ← deref L (elements l);
          let first := next last in
          match type l with
          | T_ARRAY =>
              let '(cnt, path) := read_index 0 path in
              let path := skip_slash path in
              found ← nth_sibling fuel L first first cnt;
              match found with
              | Some e => stack ← store stack (S lp) e; get_leaf fuel L stack (S lp) path
              | None => Ok NULL
              end
          | T_HASH =>
              let '(klen, path') := key_step path in
              found ← find_key fuel L first first path klen;
              match found with
              | Some e => stack ← store stack (S lp) e; get_leaf fuel L stack (S lp) path'
              | None => Ok NULL
              end
          | _ => Ok NULL
          end
        else Ok leaf
    end.

  (** [get_doc_leaf]: [scratch] is what the uninitialised local
      [Leaf stack[MAX_STACK]] happens to hold. *)
Definition get_doc_leaf (fuel : nat) (scratch : list ptr) (d : Doc)
      (path : option (list ascii)) : res ptr :=
    leaf ← slot (where_path d) (where_ d);
    match path with
    | Some path =>
        if negb (is_null (data d)) then
          if Ascii.eqb (chr0 path) "/" then
            stack ← store scratch 0 (data d);
            get_leaf fuel (leaves d) stack 0 (drop 1 path)
          else
            let cnt := where_ d in
            get_leaf fuel (leaves d) (take cnt (where_path d) ++ drop cnt scratch) cnt path
        else Ok leaf
    | None => Ok leaf
    end.

  (** [*doc->where = p] *)
Definition set_cur (p : ptr) (d : Doc) : res Doc :=
    wp ← store (where_path d) (where_ d) p; Ok (set_where_path wp d).

  (** [doc->where++; *doc->where = e;] *)
Definition push (e : ptr) (d : Doc) : res Doc :=
    set_cur e (set_where (S (where_ d)) d).

  (** [*doc->where = 0; doc->where--;] *)
Definition pop (d : Doc) : res Doc :=
    d ← set_cur NULL d; Ok (set_where (where_ d - 1) d).

  (** [move_step]: returns 0, or the number of the step that failed. *)
Fixpoint move_step (fuel : nat) (d : Doc) (path : list ascii) (loc : Z)
      : res (Doc * Z) :=
    match fuel with
    | O => Err OutOfFuel
    | S fuel =>
      if Ascii.eqb (chr0 path) NUL then Ok (d, 0)
      else
        leaf ← slot (where_path d) (where_ d);
        if is_null leaf then Ok (d, loc)
        else if dotdot path then
          let init := leaf in
          let path := drop 2 path in
          if decide (where_ d = 0%nat) then Ok (d, loc)
          else
            let path := skip_slash path in
            d ← pop d;
            '(d, loc) ← move_step fuel d path (int (loc + 1));
            if decide (loc ≠ 0) then
              d ← set_cur init d; Ok (set_where (S (where_ d)) d, loc)
            else Ok (d, loc)
        else
          l ← deref (leaves d) leaf;
          if bool_decide (value_type l = COL_VAL) && negb (is_null (elements l)) then
            last ← deref (leaves d) (elements l);
            let first := next last in
            match type l with
            | T_ARRAY =>
                let '(cnt, path) := read_index 0 path in
                if negb (Ascii.eqb (chr0 path) "/") && negb (Ascii.eqb (chr0 path) NUL)
                then Ok (d, loc)
                else
                  let path := skip_slash path in
                  found ← nth_sibling fuel (leaves d) first first cnt;
                  match found with
                  | Some e =>
                      d ← push e d;
                      '(d, loc) ← move_step fuel d path (int (loc + 1));
                      if decide (loc ≠ 0) then d ← pop d; Ok (d, loc) else Ok (d, loc)
                  | None => Ok (d, loc)
                  end
            | T_HASH =>
                let '(klen, path') := key_step path in
                found ← find_key fuel (leaves d) first first path klen;
                match found with
                | Some e =>
                    d ← push e d;
                    '(d, loc) ← move_step fuel d path' (int (loc + 1));
                    if decide (loc ≠ 0) then d ← pop d; Ok (d, loc) else Ok (d, loc)
                | None => Ok (d, loc)
                end
            | _ => Ok (d, loc)
            end
          else Ok (d, loc)
    end.

  (** [if ('/' == *path) { doc->where = doc->where_path; path++; }] *)
Definition absolute (d : Doc) (path : list ascii) : Doc * list ascii :=
    if Ascii.eqb (chr0 path) "/" then (set_where 0 d, drop 1 path) else (d, path).

  (** [doc_move]: the document after the call, and what the call returned
      or raised. *)
Definition doc_move (fuel : nat) (d : Doc) (path : list ascii) : res (Doc * res VALUE) :=
    let '(d, path) := absolute d path in
    '(d, loc) ← move_step fuel d path 1;
    if decide (loc ≠ 0) then Ok (d, Err (ArgError loc path)) else Ok (d, Ok Qnil).

  (** [doc_home] *)
Definition doc_home (d : Doc) : res Doc :=
    wp ← store (where_path d) 0 (data d); Ok (set_where 0 (set_where_path wp d)).

  (** One step of the path [doc_where] builds, with its trailing slash.  The
      buffer reserves 11 bytes for an index of three digits or more. *)
Definition where_step (l : Leaf) : res (list ascii) :=
    match parent_type l with
    | T_HASH => Ok (cstr_at json (key l) ++ ["/"])
    | T_ARRAY =>
        if 10 ^ 10 <=? index l then Err Fault else Ok (ulong_fill (index l) ++ ["/"])
    | _ => Ok ["/"]
    end.

Fixpoint where_steps (L : list Leaf) (lps : list ptr) : res (list ascii) :=
    match lps with
    | [] => Ok []
    | lp :: lps =>
        l ← deref L lp; st ← where_step l; rest ← where_steps L lps; Ok (st ++ rest)
    end.

  (** [doc_where]: [*--p = '\0'] cuts the last slash. *)
Definition doc_where (d : Doc) : res (list ascii) :=
    root ← slot (where_path d) 0;
    if is_null root || bool_decide (where_ d = 0%nat) then Ok ["/"]
    else
      if decide (where_ d < length (where_path d))%nat then
        p ← where_steps (leaves d) (take (S (where_ d)) (where_path d));
        Ok (cstr (removelast p))
      else Err Fault.

  (** *** Traversal *)

Section EachLeaf.
    (** The block given to [each_leaf]: it sees the document (it may fetch,
        ask [where?], even move) and has a state [St] of its own. *)
Context {St : Type} (blk : St → Doc → res (St * Doc)).

Fixpoint each_leaf (fuel : nat) (s : St) (d : Doc) : res (St * Doc) :=
      match fuel with
      | O => Err OutOfFuel
      | S fuel =>
        cur ← slot (where_path d) (where_ d);
        l ← deref (leaves d) cur;
        if bool_decide (value_type l = COL_VAL) then
          if negb (is_null (elements l)) then
            last ← deref (leaves d) (elements l);
            let first := next last in
            each_leaf_loop fuel s (set_where (S (where_ d)) d) first first
          else Ok (s, d)
        else blk s d
      end
    with each_leaf_loop (fuel : nat) (s : St) (d : Doc) (e first : ptr)
        : res (St * Doc) :=
      match fuel with
      | O => Err OutOfFuel
      | S fuel =>
        d ← set_cur e d;
        '(s, d) ← each_leaf fuel s d;
        l ← deref (leaves d) e;
        if decide (next l = first) then Ok (s, d)
        else each_leaf_loop fuel s d (next l) first
      end.

    (** [memcpy(doc->where_path, save_path, sizeof(Leaf) * wlen)] *)
Definition restore_path (save_path : list ptr) (d : Doc) : Doc :=
      set_where_path (save_path ++ drop (length save_path) (where_path d)) d.

    (** [doc_each_leaf], called with a block. *)
Definition doc_each_leaf (fuel : nat) (s : St) (d : Doc)
        (path : option (list ascii)) : res (St * Doc) :=
      let save_path := take (where_ d) (where_path d) in
      match path with
      | Some path =>
          let '(d, path) := absolute d path in
          '(d, loc) ← move_step fuel d path 1;
          if decide (loc ≠ 0) then Ok (s, restore_path save_path d)
          else
            '(s, d) ← each_leaf fuel s d;
            Ok (s, restore_path save_path d)
      | None =>
          '(s, d) ← each_leaf fuel s d;
          Ok (s, restore_path save_path d)
      end.
End EachLeaf.

  (** *** Materialisation *)

  (** A new object in the Ruby object space. *)
Definition rb_alloc (H : list RObject) (o : RObject) : VALUE * list RObject :=
    (Ref (length H), H ++ [o]).

  (** ruby.h on an LP64 platform. *)
Definition FIXNUM_MAX : Z := 2 ^ 62 - 1.
Definition FIXNUM_MIN : Z := - 2 ^ 62.
Definition NUM_MAX : Z := Z.shiftr FIXNUM_MAX 8.
Definition int64 (z : Z) : Z := (z + 2 ^ 63) mod 2 ^ 64 - 2 ^ 63.

  (** [LONG2NUM], and the Integer [rb_cstr_to_inum] builds: a Fixnum when
      it fits, a Bignum otherwise. *)
Definition rb_int (H : list RObject) (z : Z) : VALUE * list RObject :=
    if (FIXNUM_MIN <=? z) && (z <=? FIXNUM_MAX) then (Fixnum z, H)
    else rb_alloc H (RBignum z).

  (** The digit loop of [leaf_fixnum_value]: [n] in [int64_t], and [big]. *)
Fixpoint fixnum_digits (s : list ascii) (n : Z) (big : bool) : Z * bool :=
    match s with
    | c :: s =>
        if is_digit c then
          let n := int64 (n * 10 + (code c - code "0")) in
          fixnum_digits s n (big || (NUM_MAX <=? n))
        else (n, big)
    | [] => (n, big)
    end.

  (** The value of the decimal digits [s] leads with, as [rb_cstr_to_inum]
      reads them. *)
Fixpoint decimal (s : list ascii) (n : Z) : Z :=
    match s with
    | c :: s => if is_digit c then decimal s (n * 10 + (code c - code "0")) else n
    | [] => n
    end.

  (** [leaf_fixnum_value]: the Integer for the payload at [leaf->str]. *)
Definition fixnum_value (H : list RObject) (l : Leaf) : VALUE * list RObject :=
    let s := drop (str l) json in
    let '(neg, s) :=
      if Ascii.eqb (chr0 s) "-" then (true, drop 1 s)
      else if Ascii.eqb (chr0 s) "+" then (false, drop 1 s)
      else (false, s) in
    let '(n, big) := fixnum_digits s 0 false in
    if big then rb_int H (if neg then - decimal s 0 else decimal s 0)
    else rb_int H (if neg then int64 (- n) else n).

  (** The bytes of a Ruby String. *)
Definition rb_str_bytes (H : list RObject) (v : VALUE) : option (list ascii) :=
    match v with
    | Ref o => match H !! o with Some (RString b) => Some b | _ => None end
    | _ => None
    end.

  (** [rb_ary_push(a, v)] *)
Definition rb_ary_push (H : list RObject) (a : VALUE) (v : VALUE) : res (list RObject) :=
    match a with
    | Ref o =>
        match H !! o with
        | Some (RArray items) => Ok (<[o := RArray (items ++ [v])]> H)
        | _ => Err TypeError
        end
    | _ => Err TypeError
    end.

  (** The entry stored under a key with the same bytes gets the new value;
      a new key is appended. *)
Fixpoint hash_store (H : list RObject) (entries : list (VALUE * VALUE))
      (k v : VALUE) : list (VALUE * VALUE) :=
    match entries with
    | [] => [(k, v)]
    | (k', v') :: entries =>
        if bool_decide (rb_str_bytes H k' = rb_str_bytes H k) then (k', v) :: entries
        else (k', v') :: hash_store H entries k v
    end.

  (** [rb_hash_aset(h, k, v)] for a String key. *)
Definition rb_hash_aset (H : list RObject) (h : VALUE) (k v : VALUE) : res (list RObject) :=
    match h with
    | Ref o =>
        match H !! o with
        | Some (RHash entries) => Ok (<[o := RHash (hash_store H entries k v)]> H)
        | _ => Err TypeError
        end
    | _ => Err TypeError
    end.

  (** [leaf->value = v] in the arena. *)
Definition cache (L : list Leaf) (leaf : ptr) (v : VALUE) (t : option vtype) : list Leaf :=
    match leaf with
    | At a =>
        let L := alter (set_value v) a L in
        match t with Some t => alter (set_value_type t) a L | None => L end
    | NULL => L
    end.

  (** [leaf_value], [leaf_array_value], [leaf_hash_value]: the state is
      the Ruby object space and the arena. *)
Fixpoint leaf_value (fuel : nat) (H : list RObject) (L : list Leaf) (leaf : ptr)
      : res (VALUE * list RObject * list Leaf) :=
    match fuel with
    | O => Err OutOfFuel
    | S fuel =>
      l ← deref L leaf;
      if bool_decide (value_type l ≠ RUBY_VAL) then
        match type l with
        | T_NIL => Ok (Qnil, H, cache L leaf Qnil None)
        | T_TRUE => Ok (Qtrue, H, cache L leaf Qtrue None)
        | T_FALSE => Ok (Qfalse, H, cache L leaf Qfalse None)
        | T_FIXNUM =>
            let '(v, H) := fixnum_value H l in
            Ok (v, H, cache L leaf v (Some RUBY_VAL))
        | T_FLOAT =>
            let '(v, H) := rb_alloc H (RFloat (cstr_at json (str l))) in
            Ok (v, H, cache L leaf v (Some RUBY_VAL))
        | T_STRING =>
            let '(v, H) := rb_alloc H (RString (cstr_at json (str l))) in
            Ok (v, H, cache L leaf v (Some RUBY_VAL))
        | T_ARRAY =>
            let '(a, H) := rb_alloc H (RArray []) in
            if negb (is_null (elements l)) then
              last ← deref L (elements l);
              '(H, L) ← leaf_array_loop fuel H L a (next last) (next last);
              Ok (a, H, L)
            else Ok (a, H, L)
        | T_HASH =>
            let '(h, H) := rb_alloc H (RHash []) in
            if negb (is_null (elements l)) then
              last ← deref L (elements l);
              '(H, L) ← leaf_hash_loop fuel H L h (next last) (next last);
              Ok (h, H, L)
            else Ok (h, H, L)
        | T_NONE => Err TypeError
        end
      else Ok (value l, H, L)
    end
  with leaf_array_loop (fuel : nat) (H : list RObject) (L : list Leaf) (a : VALUE)
      (e first : ptr) : res (list RObject * list Leaf) :=
    match fuel with
    | O => Err OutOfFuel
    | S fuel =>
      '(v, H, L) ← leaf_value fuel H L e;
      H ← rb_ary_push H a v;
      l ← deref L e;
      if decide (next l = first) then Ok (H, L)
      else leaf_array_loop fuel H L a (next l) first
    end
  with leaf_hash_loop (fuel : nat) (H : list RObject) (L : list Leaf) (h : VALUE)
      (e first : ptr) : res (list RObject * list Leaf) :=
    match fuel with
    | O => Err OutOfFuel
    | S fuel =>
      l ← deref L e;
      let '(k, H) := rb_alloc H (RString (cstr_at json (key l))) in
      '(v, H, L) ← leaf_value fuel H L e;
      H ← rb_hash_aset H h k v;
      l ← deref L e;
      if decide (next l = first) then Ok (H, L)
      else leaf_hash_loop fuel H L h (next l) first
    end.

  (** [doc_fetch]: [args] is the path, if given, with the default, if given. *)
Definition doc_fetch (fuel : nat) (scratch : list ptr) (H : list RObject) (d : Doc)
      (args : option (list ascii * option VALUE)) : res (VALUE * list RObject * Doc) :=
    let val := match args with Some (_, Some v) => v | _ => Qnil end in
    leaf ← get_doc_leaf fuel scratch d (fst <$> args);
    if negb (is_null leaf) then
      '(v, H, L) ← leaf_value fuel H (leaves d) leaf;
      Ok (v, H, set_leaves L d)
    else Ok (val, H, d).

  (** [doc_type]: the class, named by its type tag; [None] is nil. *)
Definition doc_type (fuel : nat) (scratch : list ptr) (d : Doc)
      (path : option (list ascii)) : res (option rtype) :=
    leaf ← get_doc_leaf fuel scratch d path;
    if negb (is_null leaf) then
      l ← deref (leaves d) leaf;
      match type l with T_NONE => Ok None | t => Ok (Some t) end
    else Ok None.
End Navigator.

(** ** Sessions *)

(** The cursor stack: the slots [where_path[0 .. where]]. *)
Definition cursor (d : Doc) : list ptr := take (S (where_ d)) (where_path d).

(** A local [Leaf stack[MAX_STACK]] that happens to hold zeroes. *)
Definition scratch0 : list ptr := replicate MAX_STACK NULL.

(** The type tag of the root leaf of a parsed text. *)
Definition root_type (text : list ascii) : res rtype :=
  pi ← doc_open text;
  l ← deref (leaves (pi_doc pi)) (data (pi_doc pi));
  Ok (type l).

(** [Oj::Doc.open(text) { |doc| doc.fetch(path) }]: the value, and the
    object space it lives in. *)
Definition open_fetch (text path : list ascii) : res (VALUE * list RObject) :=
  pi ← doc_open text;
  '(v, H, _) ← doc_fetch (pi_str pi) (S (length text)) scratch0 [] (pi_doc pi) (Some (path, None));
  Ok (v, H).

(** [Oj::Doc.open(text) { |doc| doc.move(p1); doc.move(p2) }] with the
    second move rescued: the cursor before it, the cursor after it, and
    what it returned or raised. *)
Definition open_move_move (text p1 p2 : list ascii)
    : res (list ptr * list ptr * res VALUE) :=
  pi ← doc_open text;
  '(d1, _) ← doc_move (pi_str pi) (S (length text)) (pi_doc pi) p1;
  '(d2, r) ← doc_move (pi_str pi) (S (length text)) d1 p2;
  Ok (cursor d1, cursor d2, r).

(** The buffer and document the block of [Oj::Doc.open(text)] is given
    (the empty session if the parse raises). *)
Definition parsed (text : list ascii) : ParseInfo :=
  match doc_open text with
  | Ok pi => pi
  | Err _ => mkPI [] 0 doc_init
  end.

(** The bytes a JSON value can start with (the cases of [read_next]). *)
Definition starts_value (c : ascii) : bool :=
  match c with
  | "{" | "[" | "034" | "+" | "-" | "t" | "f" | "n" => true
  | _ => is_digit c
  end.

(** The first byte of the text that is not white space; the terminating
    NUL when there is none. *)
Definition first_byte (text : list ascii) : ascii :=
  cur (next_non_white (mkPI (text ++ [NUL]) 0 doc_init)).

(** The session of [[1,2]]. *)
Definition session_12 : ParseInfo := Eval vm_compute in parsed (dq "[1,2]").

(** ** JSON texts (RFC 8259), as concrete syntax trees *)

(** One item of a string body. *)
Inductive sitem :=
| SChar (c : ascii)                    (* an unescaped byte *)
| SEsc (c : ascii)                     (* a two-byte escape: backslash, c *)
| SUni (h1 h2 h3 h4 : ascii).          (* backslash, u, four hex digits *)

(** A number token: sign, integer digits, fraction, exponent (the letter,
    the sign, the digits). *)
Record number := mkNumber {
  n_minus : bool;
  n_int : list ascii;
  n_frac : option (list ascii);
  n_exp : option (ascii * option ascii * list ascii)
}.

(** A value.  The elements of an array and the members of an object carry
    the white space the grammar allows around them. *)
Inductive jvalue :=
| JNull | JTrue | JFalse
| JNum (n : number)
| JStr (body : list sitem)
| JArr (ws : list ascii) (items : jelements)
| JObj (ws : list ascii) (items : jmembers)
with jelements :=
| ENil
| ECons (w1 : list ascii) (v : jvalue) (w2 : list ascii) (rest : jelements)
with jmembers :=
| MNil
| MCons (k1 : list ascii) (k : list sitem) (k2 : list ascii)
        (w1 : list ascii) (v : jvalue) (w2 : list ascii) (rest : jmembers).

Scheme jvalue_mut := Induction for jvalue Sort Prop
  with jelements_mut := Induction for jelements Sort Prop
  with jmembers_mut := Induction for jmembers Sort Prop.

Definition render_sitem (i : sitem) : list ascii :=
  match i with
  | SChar c => [c]
  | SEsc c => ["\"; c]
  | SUni h1 h2 h3 h4 => ["\"; "u"; h1; h2; h3; h4]
  end.

Definition render_body (body : list sitem) : list ascii :=
  concat (map render_sitem body).

Definition render_string (body : list sitem) : list ascii :=
  DQUOTE :: render_body body ++ [DQUOTE].

Definition render_number (n : number) : list ascii :=
  (if n_minus n then ["-"] else []) ++ n_int n ++
  match n_frac n with Some f => "." :: f | None => [] end ++
  match n_exp n with
  | Some (e, sg, ds) => e :: match sg with Some c => [c] | None => [] end ++ ds
  | None => []
  end.

(** The text of a value; of the elements of an array up to and with the
    closing bracket; of the members of an object likewise. *)
Fixpoint render (j : jvalue) : list ascii :=
  match j with
  | JNull => ["n"; "u"; "l"; "l"]
  | JTrue => ["t"; "r"; "u"; "e"]
  | JFalse => ["f"; "a"; "l"; "s"; "e"]
  | JNum n => render_number n
  | JStr body => render_string body
  | JArr ws items => "[" :: ws ++ render_elements items
  | JObj ws items => "{" :: ws ++ render_members items
  end
with render_elements (es : jelements) : list ascii :=
  match es with
  | ENil => ["]"]
  | ECons w1 v w2 rest =>
      w1 ++ render v ++ w2 ++
      match rest with ENil => ["]"] | _ => "," :: render_elements rest end
  end
with render_members (ms : jmembers) : list ascii :=
  match ms with
  | MNil => ["}"]
  | MCons k1 k k2 w1 v w2 rest =>
      k1 ++ render_string k ++ k2 ++ ":" :: w1 ++ render v ++ w2 ++
      match rest with MNil => ["}"] | _ => "," :: render_members rest end
  end.

(** The number of tokens: every scalar and every container, once. *)
Fixpoint tokens (j : jvalue) : nat :=
  match j with
  | JArr _ items => S (tokens_elements items)
  | JObj _ items => S (tokens_members items)
  | _ => 1
  end
with tokens_elements (es : jelements) : nat :=
  match es with
  | ENil => 0
  | ECons _ v _ rest => tokens v + tokens_elements rest
  end
with tokens_members (ms : jmembers) : nat :=
  match ms with
  | MNil => 0
  | MCons _ _ _ _ v _ rest => tokens v + tokens_members rest
  end.

Definition ws_ok (ws : list ascii) : Prop := Forall (λ c, is_white c = true) ws.
Definition digits_ok (ds : list ascii) : Prop := Forall (λ c, is_digit c = true) ds.

Definition sitem_ok (i : sitem) : Prop :=
  match i with
  | SChar c => c ≠ DQUOTE ∧ c ≠ "\" ∧ c ≠ NUL
  | SEsc c => is_Some (escape c)
  | SUni h1 h2 h3 h4 =>
      is_Some (hex_digit h1) ∧ is_Some (hex_digit h2) ∧
      is_Some (hex_digit h3) ∧ is_Some (hex_digit h4)
  end.

Definition number_ok (n : number) : Prop :=
  digits_ok (n_int n) ∧ n_int n ≠ [] ∧
  match n_frac n with Some f => digits_ok f | None => True end ∧
  match n_exp n with
  | Some (e, sg, ds) =>
      (e = "e" ∨ e = "E") ∧
      match sg with Some c => c = "+" ∨ c = "-" | None => True end ∧
      digits_ok ds ∧ ds ≠ []
  | None => True
  end.

(** The grammar of RFC 8259: white space where it allows white space (the
    scanner's set, which adds the form feed), digits where it wants
    digits, escapes where it allows escapes. *)
Fixpoint valid (j : jvalue) : Prop :=
  match j with
  | JNull | JTrue | JFalse => True
  | JNum n => number_ok n
  | JStr body => Forall sitem_ok body
  | JArr ws items => ws_ok ws ∧ valid_elements items
  | JObj ws items => ws_ok ws ∧ valid_members items
  end
with valid_elements (es : jelements) : Prop :=
  match es with
  | ENil => True
  | ECons w1 v w2 rest => ws_ok w1 ∧ valid v ∧ ws_ok w2 ∧ valid_elements rest
  end
with valid_members (ms : jmembers) : Prop :=
  match ms with
  | MNil => True
  | MCons k1 k k2 w1 v w2 rest =>
      ws_ok k1 ∧ Forall sitem_ok k ∧ ws_ok k2 ∧
      ws_ok w1 ∧ valid v ∧ ws_ok w2 ∧ valid_members rest
  end.

(** What is left to read. *)
Definition rem (pi : ParseInfo) : list ascii := drop (pi_s pi) (pi_str pi).

(** The byte after a number token: none that the number loops would take. *)
Definition ends_number (post : list ascii) : Prop :=
  is_digit (chr0 post) = false ∧ chr0 post ≠ "." ∧ chr0 post ≠ "e" ∧ chr0 post ≠ "E".

(** The number of bytes [read_num] steps over, as a function of what is
    left to read. *)
Definition num_len (l : list ascii) : nat :=
  let k0 := if Ascii.eqb (chr0 l) "-" then 1%nat else 0%nat in
  let k1 := (k0 + digit_run (drop k0 l))%nat in
  let k2 := if Ascii.eqb (chr0 (drop k1 l)) "." then (k1 + 1 + digit_run (drop (k1 + 1) l))%nat else k1 in
  if Ascii.eqb (chr0 (drop k2 l)) "e" || Ascii.eqb (chr0 (drop k2 l)) "E" then
    let k3 := (k2 + 1)%nat in
    let k4 := if Ascii.eqb (chr0 (drop k3 l)) "-" || Ascii.eqb (chr0 (drop k3 l)) "+"
              then (k3 + 1)%nat else k3 in
    (k4 + digit_run (drop k4 l))%nat
  else k2.

(** [size] after [k] tokens. *)
Definition bump (k : nat) (z : Z) : Z := Nat.iter k (λ z, ulong (z + 1)) z.

(** [pi'] is [pi] after [n] more bytes, with [post] left to read and [k]
    more tokens counted. *)
Definition scanned (pi pi' : ParseInfo) (n : nat) (post : list ascii) (k : nat) : Prop :=
  pi_s pi' = (pi_s pi + n)%nat ∧ rem pi' = post ∧
  length (pi_str pi') = length (pi_str pi) ∧
  size (pi_doc pi') = bump k (size (pi_doc pi)).

Combined Scheme json_mutind from jvalue_mut, jelements_mut, jmembers_mut.

(** The scanner on a valid value, on the elements of an array from any
    of them on, and on the members of an object. *)
Definition scans_value (v : jvalue) : Prop :=
  valid v → ∀ fuel pi ws post,
    (tokens v ≤ fuel)%nat → rem pi = ws ++ render v ++ post → ws_ok ws →
    ends_number post →
    ∃ a pi', read_next fuel pi = Ok (At a, pi') ∧
      scanned pi pi' (length ws + length (render v)) post (tokens v).

Definition scans_elements (es : jelements) : Prop :=
  valid_elements es → es ≠ ENil → ∀ fuel f pi ws post a cnt,
    (tokens_elements es ≤ fuel)%nat → (tokens_elements es ≤ f)%nat →
    rem pi = ws ++ render_elements es ++ post → ws_ok ws →
    ∃ pi', read_array_loop (read_next f) fuel a cnt pi = Ok pi' ∧
      scanned pi pi' (length ws + length (render_elements es)) post (tokens_elements es).

Definition scans_members (ms : jmembers) : Prop :=
  valid_members ms → ms ≠ MNil → ∀ fuel f pi ws post h,
    (tokens_members ms ≤ fuel)%nat → (tokens_members ms ≤ f)%nat →
    rem pi = ws ++ render_members ms ++ post → ws_ok ws →
    ∃ pi', read_obj_loop (read_next f) fuel h pi = Ok pi' ∧
      scanned pi pi' (length ws + length (render_members ms)) post (tokens_members ms).

Ltac list_norm :=
  repeat first [rewrite <- !app_assoc | rewrite <- !app_comm_cons]; reflexivity.

(** [[1,[2,3],{"a":4}]] as a value of the grammar. *)
Definition digit_token (c : ascii) : jvalue := JNum (mkNumber false [c] None None).
Definition nested_7 : jvalue :=
  JArr [] (ECons [] (digit_token "1") []
          (ECons [] (JArr [] (ECons [] (digit_token "2") []
                             (ECons [] (digit_token "3") [] ENil))) []
          (ECons [] (JObj [] (MCons [] [SChar "a"] [] [] (digit_token "4") [] MNil)) []
           ENil))).

(** ** Documents as trees *)

(** The shape of a document in the arena: a node is the cell of a leaf
    with the nodes of its sibling ring, in ring order from
    [elements->next]. *)
Inductive tree := Node (a : nat) (kids : forest)
with forest := FNil | FCons (t : tree) (rest : forest).

Scheme tree_mut := Induction for tree Sort Prop
  with forest_mut := Induction for forest Sort Prop.
Combined Scheme tree_mutind from tree_mut, forest_mut.

Definition addr (t : tree) : nat := match t with Node a _ => a end.
Definition kids (t : tree) : forest := match t with Node _ ks => ks end.

(** The cell of the last tree of [ks]; [a] when there is none. *)
Fixpoint last_addr (a : nat) (ks : forest) : nat :=
  match ks with
  | FNil => a
  | FCons k rest => last_addr (addr k) rest
  end.

(** [shape L t]: the arena holds the tree [t].  A collection is a cell
    with [value_type == COL_VAL] ([leaf_init] gives it to T_ARRAY and T_HASH,
    and RUBY_VAL to nil, true and false); its [elements] is the last child,
    whose [next] is the first ([ring]); no child but the first is the
    first. *)
Fixpoint shape (L : list Leaf) (t : tree) : Prop :=
  match t with
  | Node a ks =>
      ∃ l, L !! a = Some l ∧ type l ≠ T_NONE ∧
        (value_type l = COL_VAL ↔ type l = T_ARRAY ∨ type l = T_HASH) ∧
        (type l = T_NIL ∨ type l = T_TRUE ∨ type l = T_FALSE → value_type l = RUBY_VAL) ∧
        match ks with
        | FNil => value_type l = COL_VAL → elements l = NULL
        | FCons k rest =>
            value_type l = COL_VAL ∧ elements l = At (last_addr (addr k) rest) ∧
            ring L (addr k) ks
        end
  end
with ring (L : list Leaf) (first : nat) (ks : forest) : Prop :=
  match ks with
  | FNil => True
  | FCons k rest =>
      shape L k ∧
      (∃ lk, L !! addr k = Some lk ∧
         match rest with
         | FNil => next lk = At first
         | FCons k' _ => next lk = At (addr k') ∧ addr k' ≠ first
         end) ∧
      ring L first rest
  end.

(** Fuel that suffices to walk a tree, a ring. *)
Fixpoint weight (t : tree) : nat :=
  match t with Node _ ks => S (weight_forest ks) end
with weight_forest (ks : forest) : nat :=
  match ks with
  | FNil => 0
  | FCons k rest => S (weight k + weight_forest rest)
  end.

(** ** Ruby values, by content *)

(** An object that holds no other object. *)
Definition is_atom (x : RObject) : Prop :=
  match x with
  | RString _ | RFloat _ | RBignum _ => True
  | RArray _ | RHash _ => False
  end.

(** The content of a value: an immediate, an atom, the contents of the
    items of an Array, the keys' bytes and the contents of the values of a
    Hash. *)
Inductive rvalue :=
| VImm (v : VALUE)
| VObj (x : RObject)
| VArr (items : rvalues)
| VHash (entries : rentries)
with rvalues := RNil | RCons (r : rvalue) (rest : rvalues)
with rentries := HNil | HCons (k : list ascii) (r : rvalue) (rest : rentries).

Scheme rvalue_mut := Induction for rvalue Sort Prop
  with rvalues_mut := Induction for rvalues Sort Prop
  with rentries_mut := Induction for rentries Sort Prop.
Combined Scheme rvalue_mutind from rvalue_mut, rvalues_mut, rentries_mut.

(** [deep lo H r v]: in the object space [H] the value [v] has the
    content [r], and the containers it is made of are objects numbered
    [lo] or higher. *)
Fixpoint deep (lo : nat) (H : list RObject) (r : rvalue) (v : VALUE) : Prop :=
  match r with
  | VImm i => v = i ∧ ∀ o, v ≠ Ref o
  | VObj x => ∃ o, v = Ref o ∧ H !! o = Some x ∧ is_atom x
  | VArr rs =>
      ∃ o items, v = Ref o ∧ (lo ≤ o)%nat ∧ H !! o = Some (RArray items) ∧
        deep_items lo H rs items
  | VHash es =>
      ∃ o entries, v = Ref o ∧ (lo ≤ o)%nat ∧ H !! o = Some (RHash entries) ∧
        deep_entries lo H es entries
  end
with deep_items (lo : nat) (H : list RObject) (rs : rvalues) (items : list VALUE) : Prop :=
  match rs, items with
  | RNil, [] => True
  | RCons r rs, v :: items => deep lo H r v ∧ deep_items lo H rs items
  | _, _ => False
  end
with deep_entries (lo : nat) (H : list RObject) (es : rentries)
    (entries : list (VALUE * VALUE)) : Prop :=
  match es, entries with
  | HNil, [] => True
  | HCons kb r es, (k, v) :: entries =>
      rb_str_bytes H k = Some kb ∧ deep lo H r v ∧ deep_entries lo H es entries
  | _, _ => False
  end.

Fixpoint rvalues_app (rs : rvalues) (r : rvalue) : rvalues :=
  match rs with
  | RNil => RCons r RNil
  | RCons r' rs => RCons r' (rvalues_app rs r)
  end.

(** [hash_store], by content. *)
Fixpoint rentries_store (es : rentries) (kb : list ascii) (r : rvalue) : rentries :=
  match es with
  | HNil => HCons kb r HNil
  | HCons kb' r' es =>
      if decide (kb' = kb) then HCons kb' r es
      else HCons kb' r' (rentries_store es kb r)
  end.

(** The content of a cached value. *)
Definition content_of (H : list RObject) (v : VALUE) : rvalue :=
  match v with
  | Ref o => match H !! o with Some x => VObj x | None => VImm Qundef end
  | _ => VImm v
  end.

Fixpoint rvalues_cat (rs1 rs2 : rvalues) : rvalues :=
  match rs1 with
  | RNil => rs2
  | RCons r rs1 => RCons r (rvalues_cat rs1 rs2)
  end.

(** The arena and the object space between two fetches. *)

(** A cached value is an immediate or an atom of the object space. *)
Definition atom_ok (H : list RObject) (v : VALUE) : Prop :=
  ∀ o, v = Ref o → ∃ x, H !! o = Some x ∧ is_atom x.

Definition heap_ok (H : list RObject) (L : list Leaf) : Prop :=
  ∀ a l, L !! a = Some l → value_type l = RUBY_VAL → atom_ok H (value l).

(** Two cells that differ in the cached value at most. *)
Definition same_skel (l l' : Leaf) : Prop :=
  next l = next l' ∧ key l = key l' ∧ index l = index l' ∧ str l = str l' ∧
  elements l = elements l' ∧ type l = type l' ∧ parent_type l = parent_type l' ∧
  (value_type l = COL_VAL ↔ value_type l' = COL_VAL).

Definition skel_eq (L L' : list Leaf) : Prop :=
  length L = length L' ∧
  ∀ a l, L !! a = Some l → ∃ l', L' !! a = Some l' ∧ same_skel l l'.

(** What is cached stays cached, with the same value. *)
Definition cache_kept (L L' : list Leaf) : Prop :=
  ∀ a l, L !! a = Some l → value_type l = RUBY_VAL → L' !! a = Some l.

(** No object changes, but the one numbered [oa]. *)
Definition ext_but (oa : option nat) (H H' : list RObject) : Prop :=
  (length H ≤ length H')%nat ∧
  ∀ o x, Some o ≠ oa → H !! o = Some x → H' !! o = Some x.

(** Every scalar of the tree holds its value. *)
Fixpoint cached (L : list Leaf) (t : tree) : Prop :=
  match t with
  | Node a ks =>
      (∃ l, L !! a = Some l ∧ (value_type l = COL_VAL ∨ value_type l = RUBY_VAL)) ∧
      cached_forest L ks
  end
with cached_forest (L : list Leaf) (ks : forest) : Prop :=
  match ks with
  | FNil => True
  | FCons k rest => cached L k ∧ cached_forest L rest
  end.

Section Content.
Variable json : list ascii.

(** The content of the value [leaf_value] builds for a tree whose scalars
    are cached. *)
Fixpoint absval (H : list RObject) (L : list Leaf) (t : tree) : rvalue :=
  match t with
  | Node a ks =>
      match type (L !!! a) with
      | T_ARRAY => VArr (absvals H L ks)
      | T_HASH => VHash (absentries H L ks HNil)
      | _ => content_of H (value (L !!! a))
      end
  end
with absvals (H : list RObject) (L : list Leaf) (ks : forest) : rvalues :=
  match ks with
  | FNil => RNil
  | FCons k rest => RCons (absval H L k) (absvals H L rest)
  end
with absentries (H : list RObject) (L : list Leaf) (ks : forest) (acc : rentries)
    : rentries :=
  match ks with
  | FNil => acc
  | FCons k rest =>
      absentries H L rest
        (rentries_store acc (cstr_at json (key (L !!! addr k))) (absval H L k))
  end.
End Content.

(** The atoms of [H], and its objects from [lo] on, are in [H'] as they
    are in [H]. *)
Definition keeps (lo : nat) (H H' : list RObject) : Prop :=
  ∀ o x, H !! o = Some x → is_atom x ∨ (lo ≤ o)%nat → H' !! o = Some x.


(** The cell of the first tree of a ring. *)
Definition head_addr (ks : forest) : nat :=
  match ks with FCons k _ => addr k | FNil => 0%nat end.

(** What a fetch does to the object space and the arena: objects are
    added (one container, [oa], may grow), cells keep their skeleton and
    what they cache, and what is cached is an atom. *)
Definition fetched (oa : option nat) (H : list RObject) (L : list Leaf)
    (H' : list RObject) (L' : list Leaf) : Prop :=
  ext_but oa H H' ∧ skel_eq L L' ∧ cache_kept L L' ∧ heap_ok H' L'.

Section MaterialiseSpec.
Variable json : list ascii.

(** [leaf_value] on a tree: it returns, with every scalar of the tree
    cached, a value whose content is that of the tree; for a collection
    the value is a new object. *)
Definition materialises (t : tree) : Prop :=
  ∀ fuel H L, (weight t ≤ fuel)%nat → shape L t → heap_ok H L →
    ∃ v H' L', leaf_value json fuel H L (At (addr t)) = Ok (v, H', L') ∧
      fetched None H L H' L' ∧ cached L' t ∧
      deep (length H) H' (absval json H' L' t) v ∧
      (∀ l, L !! addr t = Some l → value_type l = COL_VAL →
         v = Ref (length H) ∧ (length H < length H')%nat).

(** The loops of [leaf_array_value] and [leaf_hash_value] from any child
    on: the container [oa] receives the values of the rest of the ring. *)
Definition materialises_array (ks : forest) : Prop :=
  ∀ fuel H L first oa items rs0,
    (weight_forest ks ≤ fuel)%nat → ks ≠ FNil → ring L first ks → heap_ok H L →
    H !! oa = Some (RArray items) → deep_items (S oa) H rs0 items →
    ∃ H' L' items',
      leaf_array_loop json fuel H L (Ref oa) (At (head_addr ks)) (At first) = Ok (H', L') ∧
      fetched (Some oa) H L H' L' ∧ cached_forest L' ks ∧
      H' !! oa = Some (RArray items') ∧
      deep_items (S oa) H' (rvalues_cat rs0 (absvals json H' L' ks)) items'.

Definition materialises_hash (ks : forest) : Prop :=
  ∀ fuel H L first oh entries es0,
    (weight_forest ks ≤ fuel)%nat → ks ≠ FNil → ring L first ks → heap_ok H L →
    H !! oh = Some (RHash entries) → deep_entries (S oh) H es0 entries →
    ∃ H' L' entries',
      leaf_hash_loop json fuel H L (Ref oh) (At (head_addr ks)) (At first) = Ok (H', L') ∧
      fetched (Some oh) H L H' L' ∧ cached_forest L' ks ∧
      H' !! oh = Some (RHash entries') ∧
      deep_entries (S oh) H' (absentries json H' L' ks es0) entries'.
End MaterialiseSpec.

(** The session of [{"a":[1,"x"]}], and the tree of its array. *)
Definition session_ax : ParseInfo := Eval vm_compute in parsed (dq "{'a':[1,'x']}").
Definition tree_ax : tree := Node 1 (FCons (Node 3 FNil) (FCons (Node 4 FNil) FNil)).

(** ** Cursors in the tree *)

Fixpoint nth_kid (ks : forest) (j : nat) : option tree :=
  match ks, j with
  | FNil, _ => None
  | FCons k _, O => Some k
  | FCons _ rest, S j => nth_kid rest j
  end.

Definition kid_of (p k : tree) : Prop := ∃ j, nth_kid (kids p) j = Some k.

(** [linked p ts]: each tree of [ts] is a child of the one before it, the
    first a child of [p]. *)
Fixpoint linked (p : tree) (ts : list tree) : Prop :=
  match ts with
  | [] => True
  | k :: ts => kid_of p k ∧ linked k ts
  end.

(** The node a cursor is on. *)
Definition tip (t : tree) (ts : list tree) : tree := List.last ts t.

(** [chain d t ts]: the cursor of [d] is on the root [t] and then on the
    trees of [ts], one slot each, the last in [*doc->where]. *)
Definition chain (d : Doc) (t : tree) (ts : list tree) : Prop :=
  data d = At (addr t) ∧ linked t ts ∧ where_ d = length ts ∧
  take (S (length ts)) (where_path d) = map (λ k, At (addr k)) (t :: ts).

(** The slots below the root that a walk of the tree needs. *)
Fixpoint height (t : tree) : nat :=
  match t with Node _ ks => height_forest ks end
with height_forest (ks : forest) : nat :=
  match ks with
  | FNil => 0
  | FCons k rest => Nat.max (S (height k)) (height_forest rest)
  end.

(** A member name that a path can hold as one step: not empty, without a
    slash, not starting with two dots. *)
Definition key_ok (kb : list ascii) : Prop :=
  kb ≠ [] ∧ ("/"%char ∉ kb) ∧ dotdot kb = false.

(** The value [read_index] reaches over a run of digits. *)
Definition horner (cnt : Z) (ds : list ascii) : Z :=
  fold_left (λ c x, int (c * 10 + (code x - code "0"%char))) ds cnt.

(** A name that is one step of a path. *)
Definition name_ok (n : list ascii) : Prop :=
  n ≠ [] ∧ (NUL ∉ n) ∧ ("/"%char ∉ n) ∧ dotdot n = false.

(** The steps of a path, joined by slashes. *)
Fixpoint join_steps (names : list (list ascii)) : list ascii :=
  match names with
  | [] => []
  | n :: rest =>
      match rest with
      | [] => n
      | _ => n ++ "/"%char :: join_steps rest
      end
  end.

(** A tree no non-empty collection of which has a next sibling. *)
Fixpoint comb (t : tree) : Prop :=
  match t with Node _ ks => comb_kids ks end
with comb_kids (ks : forest) : Prop :=
  match ks with
  | FNil => True
  | FCons k rest => comb k ∧ (kids k ≠ FNil → rest = FNil) ∧ comb_kids rest
  end.

(** The leaves [each_leaf] yields on a tree, in order: the cells that
    are not COL_VAL. *)
Fixpoint scalars (L : list Leaf) (t : tree) : list ptr :=
  match t with
  | Node a ks =>
      if bool_decide (value_type (L !!! a) = COL_VAL) then scalars_forest L ks
      else [At a]
  end
with scalars_forest (L : list Leaf) (ks : forest) : list ptr :=
  match ks with
  | FNil => []
  | FCons k rest => scalars L k ++ scalars_forest L rest
  end.

(** What the block of the round trip notes at a leaf. *)
Record visit := mkVisit {
  v_leaf : ptr;               (* the leaf the cursor is on *)
  v_where : list ascii;       (* doc.where? *)
  v_by_path : VALUE;          (* doc.fetch(doc.where?) *)
  v_own : VALUE               (* doc.fetch *)
}.

Section RoundTrip.
Variable json : list ascii.

(** No child of [ks] is named [kb]. *)
Fixpoint key_free (L : list Leaf) (kb : list ascii) (ks : forest) : Prop :=
  match ks with
  | FNil => True
  | FCons k rest => cstr_at json (key (L !!! addr k)) ≠ kb ∧ key_free L kb rest
  end.

(** [located L t]: every child knows the type of its parent; the children
    of an array are numbered from 1, in [int] range; the children of an
    object have names that a path can hold, no two of them the same. *)
Fixpoint located (L : list Leaf) (t : tree) : Prop :=
  match t with Node a ks => located_kids L (type (L !!! a)) 1 ks end
with located_kids (L : list Leaf) (pt : rtype) (i : Z) (ks : forest) : Prop :=
  match ks with
  | FNil => True
  | FCons k rest =>
      located L k ∧ parent_type (L !!! addr k) = pt ∧
      match pt with
      | T_ARRAY => index (L !!! addr k) = i ∧ i < 2 ^ 31
      | T_HASH =>
          key_ok (cstr_at json (key (L !!! addr k))) ∧
          key_free L (cstr_at json (key (L !!! addr k))) rest
      | _ => True
      end ∧
      located_kids L pt (i + 1) rest
  end.

(** What the walk keeps true of the document and the object space. *)
Definition doc_inv (H : list RObject) (L : list Leaf) (t : tree) : Prop :=
  shape L t ∧ located L t ∧ parent_type (L !!! addr t) = T_NONE ∧ heap_ok H L.

(** The step [doc_where] writes for a leaf. *)
Definition step_name (L : list Leaf) (k : tree) : list ascii :=
  match parent_type (L !!! addr k) with
  | T_HASH => cstr_at json (key (L !!! addr k))
  | T_ARRAY => ulong_fill (index (L !!! addr k))
  | _ => []
  end.

Definition path_to (L : list Leaf) (ts : list tree) : list ascii :=
  "/"%char :: join_steps (map (step_name L) ts).

(** The block [{ |d| w = d.where?; log << [w, d.fetch(w), d.fetch] }]; its
    state is the object space and the log. *)
Definition probe (fuel : nat) (scratch : list ptr) (s : list RObject * list visit)
    (d : Doc) : res (list RObject * list visit * Doc) :=
  let '(H, log) := s in
  leaf ← slot (where_path d) (where_ d);
  w ← doc_where json d;
  '(v1, H, d) ← doc_fetch json fuel scratch H d (Some (w, None));
  '(v2, H, d) ← doc_fetch json fuel scratch H d None;
  Ok (H, log ++ [mkVisit leaf w v1 v2], d).
End RoundTrip.

(** [Oj::Doc.open(text) { |doc| doc.each_leaf(path) { ... } }] with the
    block above: the log. *)
Definition open_each_leaf (text : list ascii) (path : option (list ascii))
    : res (list visit) :=
  pi ← doc_open text;
  let fuel := S (length text) in
  '(s, _) ← doc_each_leaf (pi_str pi) (probe (pi_str pi) fuel scratch0) fuel ([], [])
              (pi_doc pi) path;
  Ok (snd s).

Section WalkSpec.
Variable json : list ascii.
Variables (pf : nat) (scratch : list ptr) (t : tree).

(** Every visit of the log fetched by the path what the leaf holds. *)
Definition round_trips (log : list visit) : Prop :=
  Forall (λ v, v_by_path v = v_own v) log.

(** [each_leaf] with the block above from a node [t'] of the document
    [t]: it returns, having yielded the leaves of [t'] in order, each with
    a path that fetches it. *)
Definition walks (t' : tree) : Prop :=
  ∀ fuel H log d ts,
    chain d t ts → tip t ts = t' → doc_inv json H (leaves d) t → comb t' →
    (where_ d + height t' < length (where_path d))%nat → (weight t' ≤ fuel)%nat →
    (weight t < pf)%nat → (length (where_path d) ≤ length scratch)%nat →
    ∃ H' log' d',
      each_leaf (probe json pf scratch) fuel (H, log) d = Ok (H', log ++ log', d') ∧
      fetched None H (leaves d) H' (leaves d') ∧
      data d' = data d ∧ length (where_path d') = length (where_path d) ∧
      round_trips log' ∧ map v_leaf log' = scalars (leaves d) t' ∧
      (kids t' = FNil → where_ d' = where_ d ∧ where_path d' = where_path d).

(** The loop of [each_leaf] over the children [ks] of the node the chain
    [ts] ends on, from any child on. *)
Definition walks_kids (ks : forest) : Prop :=
  ∀ fuel H log d ts first,
    data d = At (addr t) → linked t ts → where_ d = S (length ts) →
    take (S (length ts)) (where_path d) = map (λ k, At (addr k)) (t :: ts) →
    (∀ k j, nth_kid ks j = Some k → kid_of (tip t ts) k) →
    ks ≠ FNil → ring (leaves d) first ks →
    doc_inv json H (leaves d) t → comb_kids ks →
    (length ts + height_forest ks < length (where_path d))%nat →
    (weight_forest ks ≤ fuel)%nat →
    (weight t < pf)%nat → (length (where_path d) ≤ length scratch)%nat →
    ∃ H' log' d',
      each_leaf_loop (probe json pf scratch) fuel (H, log) d (At (head_addr ks)) (At first)
      = Ok (H', log ++ log', d') ∧
      fetched None H (leaves d) H' (leaves d') ∧
      data d' = data d ∧ length (where_path d') = length (where_path d) ∧
      round_trips log' ∧ map v_leaf log' = scalars_forest (leaves d) ks.
End WalkSpec.

(** What [move_step] leaves: the arena as it was; the cursor on a node of
    the tree when the move succeeded ([loc] is 0), and as deep as it was
    when it failed. *)
Definition moved (t : tree) (d d' : Doc) (loc : Z) : Prop :=
  leaves d' = leaves d ∧ length (where_path d') = length (where_path d) ∧
  (loc = 0 → ∃ ts', chain d' t ts') ∧ (loc ≠ 0 → where_ d' = where_ d).


(** The session of [{"a":[1,{"b":"x"}]}], and its tree. *)
Definition session_ab : ParseInfo :=
  Eval vm_compute in parsed (dq "{'a':[1,{'b':'x'}]}").
Definition tree_ab : tree :=
  Node 0 (FCons (Node 1 (FCons (Node 3 FNil)
                         (FCons (Node 4 (FCons (Node 5 FNil) FNil)) FNil))) FNil).

(** ** The other traversals *)

Section Traversals.
Variable json : list ascii.

Section EachValue.
  (** The block given to [each_value]: it is yielded a value, and sees the
      object space and the document. *)
Context {St : Type}
  (blk : St → list RObject → Doc → VALUE → res (St * list RObject * Doc)).

  (** [each_value]: [rb_yield(leaf_value(doc, leaf))] at every leaf that
      is not COL_VAL. *)
Fixpoint each_value (fuel : nat) (s : St) (H : list RObject) (d : Doc) (leaf : ptr)
    : res (St * list RObject * Doc) :=
  match fuel with
  | O => Err OutOfFuel
  | S fuel' =>
    l ← deref (leaves d) leaf;
    if bool_decide (value_type l = COL_VAL) then
      if negb (is_null (elements l)) then
        last ← deref (leaves d) (elements l);
        each_value_loop fuel' s H d (next last) (next last)
      else Ok (s, H, d)
    else
      '(v, H, L) ← leaf_value json fuel H (leaves d) leaf;
      blk s H (set_leaves L d) v
  end
with each_value_loop (fuel : nat) (s : St) (H : list RObject) (d : Doc) (e first : ptr)
    : res (St * list RObject * Doc) :=
  match fuel with
  | O => Err OutOfFuel
  | S fuel =>
    '(s, H, d) ← each_value fuel s H d e;
    l ← deref (leaves d) e;
    if decide (next l = first) then Ok (s, H, d)
    else each_value_loop fuel s H d (next l) first
  end.

  (** [doc_each_value], called with a block. *)
Definition doc_each_value (fuel : nat) (scratch : list ptr) (s : St)
    (H : list RObject) (d : Doc) (path : option (list ascii))
    : res (St * list RObject * Doc) :=
  leaf ← get_doc_leaf json fuel scratch d path;
  if negb (is_null leaf) then each_value fuel s H d leaf else Ok (s, H, d).
End EachValue.

Section EachChild.
Context {St : Type} (blk : St → Doc → res (St * Doc)).

  (** The [do ... while (e != first)] of [doc_each_child]. *)
Fixpoint each_child_loop (fuel : nat) (s : St) (d : Doc) (e first : ptr)
    : res (St * Doc) :=
  match fuel with
  | O => Err OutOfFuel
  | S fuel =>
    d ← set_cur e d;
    '(s, d) ← blk s d;
    l ← deref (leaves d) e;
    if decide (next l = first) then Ok (s, d)
    else each_child_loop fuel s d (next l) first
  end.

  (** [doc_each_child] from the cursor, after the optional move. *)
Definition each_child (fuel : nat) (s : St) (d : Doc) : res (St * Doc) :=
  cur ← slot (where_path d) (where_ d);
  l ← deref (leaves d) cur;
  if bool_decide (value_type l = COL_VAL) && negb (is_null (elements l)) then
    last ← deref (leaves d) (elements l);
    each_child_loop fuel s (set_where (S (where_ d)) d) (next last) (next last)
  else Ok (s, d).

  (** [doc_each_child], called with a block. *)
Definition doc_each_child (fuel : nat) (s : St) (d : Doc)
    (path : option (list ascii)) : res (St * Doc) :=
  let save_path := take (where_ d) (where_path d) in
  match path with
  | Some path =>
      let '(d, path) := absolute d path in
      '(d, loc) ← move_step json fuel d path 1;
      if decide (loc ≠ 0) then Ok (s, restore_path save_path d)
      else
        '(s, d) ← each_child fuel s d;
        Ok (s, restore_path save_path d)
  | None =>
      '(s, d) ← each_child fuel s d;
      Ok (s, restore_path save_path d)
  end.
End EachChild.

(** [doc_local_key]: [LONG2NUM] of the [size_t] index. *)
Definition doc_local_key (H : list RObject) (d : Doc) : res (VALUE * list RObject) :=
  cur ← slot (where_path d) (where_ d);
  l ← deref (leaves d) cur;
  match parent_type l with
  | T_HASH => Ok (rb_alloc H (RString (cstr_at json (key l))))
  | T_ARRAY => Ok (rb_int H (int64 (index l)))
  | _ => Ok (Qnil, H)
  end.
End Traversals.

(** The block [{ |v| result << v }]. *)
Definition collect (s : list VALUE) (H : list RObject) (d : Doc) (v : VALUE)
    : res (list VALUE * list RObject * Doc) :=
  Ok (s ++ [v], H, d).

(** The block [{ |d| result << cursor }]: it notes the cursor stack. *)
Definition note_cursor (s : list (list ptr)) (d : Doc) : res (list (list ptr) * Doc) :=
  Ok (s ++ [take (S (where_ d)) (where_path d)], d).


(** [yields L vs ps]: the values [vs] are, one for one, what the leaves
    [ps] hold cached in the arena [L]. *)
Definition yields (L : list Leaf) (vs : list VALUE) (ps : list ptr) : Prop :=
  Forall2 (λ v p, ∃ a l, p = At a ∧ L !! a = Some l ∧
                         value_type l = RUBY_VAL ∧ value l = v) vs ps.

Section ValuesSpec.
Variable json : list ascii.

(** [each_value] with the collecting block on a tree, on a ring. *)
Definition values_of (t : tree) : Prop :=
  ∀ fuel s H d, shape (leaves d) t → heap_ok H (leaves d) → (weight t ≤ fuel)%nat →
    ∃ vs H' L',
      each_value json collect fuel s H d (At (addr t)) = Ok (s ++ vs, H', set_leaves L' d) ∧
      fetched None H (leaves d) H' L' ∧ yields L' vs (scalars (leaves d) t).

Definition values_of_kids (ks : forest) : Prop :=
  ∀ fuel s H d first,
    ks ≠ FNil → ring (leaves d) first ks → heap_ok H (leaves d) →
    (weight_forest ks ≤ fuel)%nat →
    ∃ vs H' L',
      each_value_loop json collect fuel s H d (At (head_addr ks)) (At first)
      = Ok (s ++ vs, H', set_leaves L' d) ∧
      fetched None H (leaves d) H' L' ∧ yields L' vs (scalars_forest (leaves d) ks).
End ValuesSpec.


(** The trees of a forest, in order. *)
Fixpoint forest_list (ks : forest) : list tree :=
  match ks with
  | FNil => []
  | FCons k rest => k :: forest_list rest
  end.

(** What a key reads as in a path: the bytes of a String, the decimal
    digits of a Fixnum. *)
Definition key_text (H : list RObject) (v : VALUE) : option (list ascii) :=
  match v with
  | Fixnum n => Some (ulong_fill n)
  | _ => rb_str_bytes H v
  end.


(** The session of [{"a":[1,{"b":"x"}]}] after [doc.move("/a")] and after
    [doc.move("/a/2/b")]. *)
Definition moved_to (pi : ParseInfo) (path : list ascii) : Doc :=
  match doc_move (pi_str pi) (S (length (pi_str pi))) (pi_doc pi) path with
  | Ok (d, _) => d
  | Err _ => pi_doc pi
  end.
Definition session_ab_a : Doc := Eval vm_compute in moved_to session_ab (dq "/a").
Definition session_ab_b : Doc := Eval vm_compute in moved_to session_ab (dq "/a/2/b").
Definition tree_ab_a : tree :=
  Node 1 (FCons (Node 3 FNil) (FCons (Node 4 (FCons (Node 5 FNil) FNil)) FNil)).
Definition tree_ab_2 : tree := Node 4 (FCons (Node 5 FNil) FNil).

(** ** The buffer of [doc_where]

    The first loop of [doc_where]: the bytes reserved for every slot of the
    stack (name and slash under a hash; three or eleven bytes under an
    array), on top of the three bytes for the leading slash and the NUL. *)


(** The bytes [doc_where] reserves with [ALLOCA_N]: 3 for the leading
    slash and the terminating NUL, and for every slot of the cursor the
    length of the key and one, or 3 or 11 for an index. *)
Section WhereRoom.
Variable json : list ascii.

Definition where_room_step (l : Leaf) : nat :=
  match parent_type l with
  | T_HASH => strlen (drop (key l) json) + 1
  | T_ARRAY => if index l <? 100 then 3 else 11
  | _ => 0
  end.

Fixpoint where_room (L : list Leaf) (lps : list ptr) : res nat :=
  match lps with
  | [] => Ok 3%nat
  | lp :: lps =>
      l ← deref L lp; rest ← where_room L lps; Ok (where_room_step l + rest)%nat
  end.
End WhereRoom.

(** ** The layout the parser gives a document *)

(** [within lo hi t]: the cells of [t] lie in [lo, hi), a node before its
    children and the children one after the other, as [leaf_new] hands the
    cells out. *)
Fixpoint within (lo hi : nat) (t : tree) : Prop :=
  match t with
  | Node a ks => (lo ≤ a < hi)%nat ∧ within_forest (S a) hi ks
  end
with within_forest (lo hi : nat) (ks : forest) : Prop :=
  match ks with
  | FNil => (lo ≤ hi)%nat
  | FCons k rest => ∃ mid, within lo mid k ∧ within_forest mid hi rest
  end.

(** The ring with one more child at its end. *)
Fixpoint forest_snoc (ks : forest) (k : tree) : forest :=
  match ks with
  | FNil => FCons k FNil
  | FCons k0 rest => FCons k0 (forest_snoc rest k)
  end.

(** A cell whose value, if it holds one, is the literal of its type:
    [leaf_init] gives a value to nil, true and false only. *)
Definition plain (l : Leaf) : Prop :=
  value_type l = RUBY_VAL →
  (type l = T_NIL ∧ value l = Qnil) ∨ (type l = T_TRUE ∧ value l = Qtrue) ∨
  (type l = T_FALSE ∧ value l = Qfalse).

(** An update of a cell that [shape] does not see. *)
Definition keeps_core (f : Leaf → Leaf) : Prop :=
  ∀ l, type (f l) = type l ∧ value_type (f l) = value_type l ∧
       elements (f l) = elements l ∧ value (f l) = value l.

(** The fields of the cursor, which a read leaves alone. *)
Definition same_cursor (d d' : Doc) : Prop :=
  data d' = data d ∧ where_ d' = where_ d ∧ where_path d' = where_path d.

(** What a read leaves of the document: the cursor, and the cells that
    were there. *)
Definition grown (d d' : Doc) : Prop :=
  same_cursor d d' ∧ leaves d `prefix_of` leaves d' ∧
  (Forall plain (leaves d) → Forall plain (leaves d')).

(** What a read that returns [r] has built: nothing, or a tree in the new
    cells whose root has no parent yet. *)
Definition built (d : Doc) (r : ptr) (d' : Doc) : Prop :=
  grown d d' ∧
  match r with
  | NULL => True
  | At a =>
      ∃ t, addr t = a ∧ shape (leaves d') t ∧
        within (length (leaves d)) (length (leaves d')) t ∧
        parent_type (leaves d' !!! a) = T_NONE
  end.

Definition builds (read : ParseInfo → res (ptr * ParseInfo)) : Prop :=
  ∀ pi r pi', read pi = Ok (r, pi') → built (pi_doc pi) r (pi_doc pi').

(** The collection at cell [a], allocated after the cells [L0], while its
    loop runs: the children read so far are [ks]. *)
Definition filling (L0 : list Leaf) (a : nat) (ks : forest) (L : list Leaf) : Prop :=
  L0 `prefix_of` L ∧ (length L0 ≤ a)%nat ∧ shape L (Node a ks) ∧
  within_forest (S a) (length L) ks ∧
  value_type (L !!! a) = COL_VAL ∧ parent_type (L !!! a) = T_NONE.

(** What a loop of [read_array] or [read_obj] that started on the document
    [d] has reached on [d']. *)
Definition filled (L0 : list Leaf) (a : nat) (d d' : Doc) : Prop :=
  ∃ ks, filling L0 a ks (leaves d') ∧ same_cursor d d' ∧
    (Forall plain (leaves d) → Forall plain (leaves d')).

(** * Properties *)

(** ** Number tokens *)

Example read_num_float : root_type (dq "2.5e3") = Ok T_FLOAT.
Proof. vm_compute. reflexivity. Qed.

(** C6: the token [1e3], whose exponent the scanner consumes, is given
    the kind T_FIXNUM (INT), not FLOAT, and it materialises as the Integer
    1: [read_num] sets [type = T_FLOAT] only in the branch of the dot. *)
Theorem C6_exponent_token_is_fixnum :
  root_type (dq "1e3") = Ok T_FIXNUM ∧
  pi_s <$> doc_open (dq "1e3") = Ok 3%nat ∧
  open_fetch (dq "1e3") (dq "/") = Ok (Fixnum 1, []).
Proof. vm_compute. auto. Qed.

(** ** [move] *)

(** C2: in [[1,2]] with the cursor on [/1], [move("../5")] fails at step
    2 and leaves the cursor stack [leaf 1; NULL] where it was
    [root; leaf 1]: the restore of the [..] step stores [init] before it
    increments [doc->where].  A failed absolute move, [move("/5")],
    leaves the cursor at the root. *)
Theorem C2_failed_move_changes_cursor :
  open_move_move (dq "[1,2]") (dq "/1") (dq "../5")
    = Ok ([At 0; At 2], [At 2; NULL], Err (ArgError 2 (dq "../5"))) ∧
  open_move_move (dq "[1,2]") (dq "/1") (dq "/5")
    = Ok ([At 0; At 2], [At 0], Err (ArgError 1 (dq "5"))).
Proof. vm_compute. auto. Qed.

(** ** The path resolvers on a step [0] *)

Section Resolve.
Variable json : list ascii.

Lemma read_index_nondigit cnt rest :
  is_digit (chr0 rest) = false → read_index cnt rest = (cnt, rest).
Proof. destruct rest as [|c rest]; simpl; [done|]. by intros ->. Qed.

Lemma nth_sibling_le_1 fuel L e first cnt :
  cnt ≤ 1 → nth_sibling (S fuel) L e first cnt = Ok (Some e).
Proof. intros. simpl. destruct (Z.geb_spec 1 cnt) as [|]; [done|lia]. Qed.

Lemma nth_sibling_0_1 fuel L e first :
  nth_sibling fuel L e first 0 = nth_sibling fuel L e first 1.
Proof. destruct fuel; [done|]. by rewrite !nth_sibling_le_1 by lia. Qed.

Lemma get_leaf_zero_one fuel L stack lp a l rest :
  stack !! lp = Some (At a) → L !! a = Some l → type l = T_ARRAY →
  is_digit (chr0 rest) = false →
  get_leaf json fuel L stack lp ("0"%char :: rest)
  = get_leaf json fuel L stack lp ("1"%char :: rest).
Proof.
  intros Hs Ha Ht Hr. destruct fuel as [|fuel]; [done|].
  cbn [get_leaf].
  change (Ascii.eqb (chr0 ("0"%char :: rest)) NUL) with false.
  change (Ascii.eqb (chr0 ("1"%char :: rest)) NUL) with false.
  change (dotdot ("0"%char :: rest)) with false.
  change (dotdot ("1"%char :: rest)) with false.
  change (read_index 0 ("0"%char :: rest)) with (read_index 0 rest).
  change (read_index 0 ("1"%char :: rest)) with (read_index 1 rest).
  rewrite !read_index_nondigit by done.
  unfold slot. rewrite Hs. simpl. rewrite Ha. simpl. rewrite Ht.
  destruct (_ && _); [|done].
  destruct (deref L (elements l)) as [last|]; [|done]. simpl.
  by rewrite nth_sibling_0_1.
Qed.

Lemma get_leaf_zero fuel L stack lp a l e last :
  stack !! lp = Some (At a) → L !! a = Some l →
  type l = T_ARRAY → value_type l = COL_VAL → elements l = At e →
  L !! e = Some last → (S lp < length stack)%nat →
  get_leaf json (S (S fuel)) L stack lp ["0"%char] = Ok (next last).
Proof.
  intros Hs Ha Ht Hv He Hl Hw.
  cbn [get_leaf].
  change (Ascii.eqb (chr0 ["0"%char]) NUL) with false.
  change (dotdot ["0"%char]) with false.
  change (read_index 0 ["0"%char]) with (0, @nil ascii).
  unfold slot. rewrite Hs. simpl. rewrite Ha. simpl. rewrite Ht, Hv, He. simpl.
  rewrite Hl. simpl. unfold store.
  destruct (decide _); [|lia]. simpl.
  rewrite list_lookup_insert_eq by lia. done.
Qed.

Lemma move_step_zero_one fuel d a l loc rest :
  where_path d !! where_ d = Some (At a) → leaves d !! a = Some l →
  type l = T_ARRAY → is_digit (chr0 rest) = false →
  move_step json fuel d ("0"%char :: rest) loc
  = move_step json fuel d ("1"%char :: rest) loc.
Proof.
  intros Hs Ha Ht Hr. destruct fuel as [|fuel]; [done|].
  cbn [move_step].
  change (Ascii.eqb (chr0 ("0"%char :: rest)) NUL) with false.
  change (Ascii.eqb (chr0 ("1"%char :: rest)) NUL) with false.
  change (dotdot ("0"%char :: rest)) with false.
  change (dotdot ("1"%char :: rest)) with false.
  change (read_index 0 ("0"%char :: rest)) with (read_index 0 rest).
  change (read_index 0 ("1"%char :: rest)) with (read_index 1 rest).
  rewrite !read_index_nondigit by done.
  unfold slot. rewrite Hs. simpl. rewrite Ha. simpl. rewrite Ht.
  destruct (_ && _); [|done].
  destruct (deref (leaves d) (elements l)) as [last|]; [|done]. simpl.
  by rewrite nth_sibling_0_1.
Qed.

Lemma move_step_zero fuel d a l e last loc :
  where_path d !! where_ d = Some (At a) → leaves d !! a = Some l →
  type l = T_ARRAY → value_type l = COL_VAL → elements l = At e →
  leaves d !! e = Some last →
  (S (where_ d) < length (where_path d))%nat →
  move_step json (S (S fuel)) d ["0"%char] loc
  = Ok (set_where_path (<[S (where_ d) := next last]> (where_path d))
          (set_where (S (where_ d)) d), 0).
Proof.
  intros Hs Ha Ht Hv He Hl Hw.
  cbn [move_step].
  change (Ascii.eqb (chr0 ["0"%char]) NUL) with false.
  change (dotdot ["0"%char]) with false.
  change (read_index 0 ["0"%char]) with (0, @nil ascii).
  unfold slot. rewrite Hs. simpl. rewrite Ha. simpl. rewrite Ht, Hv, He. simpl.
  rewrite Hl. simpl.
  unfold push, set_cur, store. simpl.
  destruct (decide _); [|lia]. simpl. done.
Qed.

(** C7 (as amended): on a non-empty ARRAY node [move] does not reject the
    step [0]: it pushes the array's first element ([elements->next]) and
    succeeds, exactly as the step [1] does. *)
Theorem C7_move_zero_selects_first fuel d a l e last loc :
  where_path d !! where_ d = Some (At a) → leaves d !! a = Some l →
  type l = T_ARRAY → value_type l = COL_VAL → elements l = At e →
  leaves d !! e = Some last →
  (S (where_ d) < length (where_path d))%nat →
  move_step json (S (S fuel)) d ["0"%char] loc
  = Ok (set_where_path (<[S (where_ d) := next last]> (where_path d))
          (set_where (S (where_ d)) d), 0)
  ∧ move_step json (S (S fuel)) d ["0"%char] loc
    = move_step json (S (S fuel)) d ["1"%char] loc.
Proof.
  intros. split; [by eapply move_step_zero|by eapply move_step_zero_one].
Qed.

(** C10: on a non-empty ARRAY node [get_leaf] resolves the step [0] as it
    resolves the step [1], whatever follows the step, and the step alone
    resolves to the array's first element. *)
Theorem C10_get_leaf_zero_is_one fuel L stack lp a l e last rest :
  stack !! lp = Some (At a) → L !! a = Some l →
  type l = T_ARRAY → value_type l = COL_VAL → elements l = At e →
  L !! e = Some last → (S lp < length stack)%nat →
  is_digit (chr0 rest) = false →
  get_leaf json fuel L stack lp ("0"%char :: rest)
  = get_leaf json fuel L stack lp ("1"%char :: rest)
  ∧ get_leaf json (S (S fuel)) L stack lp ["0"%char] = Ok (next last)
  ∧ get_leaf json (S (S fuel)) L stack lp ["1"%char] = Ok (next last).
Proof.
  intros Hs Ha Ht Hv He Hl Hw Hr. split; [by eapply get_leaf_zero_one|].
  split; [by eapply get_leaf_zero|].
  rewrite <- (get_leaf_zero_one _ _ _ _ a l []) by done. by eapply get_leaf_zero.
Qed.

(** [fetch("/0")] is [fetch("/1")] when the root is an array. *)
Lemma doc_fetch_zero_one fuel scratch H d a l dflt :
  data d = At a → leaves d !! a = Some l → type l = T_ARRAY →
  (0 < length scratch)%nat →
  doc_fetch json fuel scratch H d (Some (["/"; "0"]%char, dflt))
  = doc_fetch json fuel scratch H d (Some (["/"; "1"]%char, dflt)).
Proof.
  intros Hd Ha Ht Hs. unfold doc_fetch, get_doc_leaf. simpl. rewrite Hd. simpl.
  unfold store. destruct (decide _); [|lia]. simpl.
  rewrite (get_leaf_zero_one fuel (leaves d) _ 0 a l []); try done.
  by rewrite list_lookup_insert_eq.
Qed.


(** A fetch never moves the cursor, resolved or not. *)
Lemma doc_fetch_cursor fuel scratch H d args v H' d' :
  doc_fetch json fuel scratch H d args = Ok (v, H', d') →
  where_ d' = where_ d ∧ where_path d' = where_path d ∧ data d' = data d.
Proof.
  unfold doc_fetch. destruct (get_doc_leaf _ _ _ _ _) as [leaf|]; [|done]. simpl.
  destruct (is_null leaf); simpl.
  - by intros [= _ _ <-].
  - destruct (leaf_value _ _ _ _ _) as [[[v1 H1] L1]|]; [|done]. simpl.
    by intros [= _ _ <-].
Qed.

(** Unresolved paths: an ascent above the root. *)
Lemma get_leaf_above_root fuel L stack p path :
  stack !! 0%nat = Some p → dotdot path = true →
  get_leaf json (S fuel) L stack 0 path = Ok NULL.
Proof.
  intros Hs Hd. cbn [get_leaf]. unfold slot. rewrite Hs. simpl.
  rewrite Hd. unfold dotdot in Hd. apply andb_prop in Hd as [Hd _].
  apply Ascii.eqb_eq in Hd. rewrite Hd. done.
Qed.
End Resolve.

(** C7 (as stated) fails: in [[1,2]], [move("/0")] returns normally with
    the cursor on the first element. *)
Lemma C7_move_zero_not_rejected :
  open_move_move (dq "[1,2]") (dq "/") (dq "/0") = Ok ([At 0], [At 0; At 2], Ok Qnil) ∧
  open_fetch (dq "[1,2]") (dq "/0") = Ok (Fixnum 1, []).
Proof. vm_compute. auto. Qed.

Lemma C7_witness :
  move_step (pi_str session_12) 2 (pi_doc session_12) ["0"%char] 1
  = Ok (set_where_path
          (<[S (where_ (pi_doc session_12)) := next (leaves (pi_doc session_12) !!! 4%nat)]>
             (where_path (pi_doc session_12)))
          (set_where (S (where_ (pi_doc session_12))) (pi_doc session_12)), 0)
  ∧ move_step (pi_str session_12) 2 (pi_doc session_12) ["0"%char] 1
    = move_step (pi_str session_12) 2 (pi_doc session_12) ["1"%char] 1.
Proof.
  apply (C7_move_zero_selects_first (pi_str session_12) 0 (pi_doc session_12)
           0 (leaves (pi_doc session_12) !!! 0%nat)
           4 (leaves (pi_doc session_12) !!! 4%nat) 1);
    solve [reflexivity | vm_compute; lia].
Defined.

Lemma C10_witness :
  get_leaf (pi_str session_12) 3 (leaves (pi_doc session_12))
    (where_path (pi_doc session_12)) 0 ["0"; "/"; "x"]%char
  = get_leaf (pi_str session_12) 3 (leaves (pi_doc session_12))
      (where_path (pi_doc session_12)) 0 ["1"; "/"; "x"]%char
  ∧ get_leaf (pi_str session_12) 5 (leaves (pi_doc session_12))
      (where_path (pi_doc session_12)) 0 ["0"%char]
    = Ok (next (leaves (pi_doc session_12) !!! 4%nat))
  ∧ get_leaf (pi_str session_12) 5 (leaves (pi_doc session_12))
      (where_path (pi_doc session_12)) 0 ["1"%char]
    = Ok (next (leaves (pi_doc session_12) !!! 4%nat)).
Proof.
  apply (C10_get_leaf_zero_is_one (pi_str session_12) 3 (leaves (pi_doc session_12))
           (where_path (pi_doc session_12)) 0
           0 (leaves (pi_doc session_12) !!! 0%nat)
           4 (leaves (pi_doc session_12) !!! 4%nat) ["/"; "x"]%char);
    solve [reflexivity | vm_compute; lia].
Defined.


(** ** The scanner on a byte that starts no value *)

Lemma white_run_stop l : white_run (drop (white_run l) l) = 0%nat.
Proof.
  induction l as [|c l IH]; [done|]. simpl.
  destruct (is_white c) eqn:E; simpl; [done|]. by rewrite E.
Qed.

Lemma next_non_white_idem pi : next_non_white (next_non_white pi) = next_non_white pi.
Proof.
  unfold next_non_white, advance. simpl.
  rewrite <- drop_drop, white_run_stop. f_equal. lia.
Qed.

Lemma read_next_no_value fuel pi :
  starts_value (cur (next_non_white pi)) = false →
  read_next (S fuel) pi
  = Ok (NULL, set_doc (set_size (ulong (size (pi_doc pi) + 1)) (pi_doc pi))
                (next_non_white pi)).
Proof.
  intros Hc. cbn [read_next].
  destruct (cur (next_non_white pi)) as [[|] [|] [|] [|] [|] [|] [|] [|]];
    try discriminate Hc; reflexivity.
Qed.

Lemma read_array_loop_no_value fuel fuel' a cnt pi :
  starts_value (cur (next_non_white pi)) = false →
  read_array_loop (read_next (S fuel)) (S fuel') a cnt pi
  = Err (SyntaxError "unexpected character" (pi_s (next_non_white pi))).
Proof.
  intros Hc. cbn [read_array_loop].
  rewrite read_next_no_value by (by rewrite next_non_white_idem).
  by rewrite next_non_white_idem.
Qed.

(** C5 (as stated) fails: the empty text, a text of white space, a text
    that starts with a NUL or with another byte that starts no value all
    parse without an error. *)
Lemma C5_open_without_value_succeeds :
  is_ok (doc_open []) = true ∧
  is_ok (doc_open (dq "  ")) = true ∧
  is_ok (doc_open (NUL :: dq "[1]")) = true ∧
  data <$> (pi_doc <$> doc_open (dq " x")) = Ok NULL.
Proof. vm_compute. auto. Qed.

(** C5 (as amended): when the first byte that is not white space starts
    no value, [read_next] returns the null leaf.  At the top level nothing
    is raised: the block is given a document whose root is null, with
    [size] 1, an empty arena, and [where?] at [/].  Where an array expects
    an element the same byte raises the SyntaxError
    [unexpected character]. *)
Theorem C5_no_value_gives_null_root text :
  starts_value (first_byte text) = false →
  (∃ pi, doc_open text = Ok pi ∧ pi_str pi = text ++ [NUL] ∧
     data (pi_doc pi) = NULL ∧ leaves (pi_doc pi) = [] ∧
     doc_size (pi_doc pi) = 1 ∧ cursor (pi_doc pi) = [NULL] ∧
     doc_where (pi_str pi) (pi_doc pi) = Ok ["/"%char]) ∧
  (∀ fuel fuel' a cnt d,
     read_array_loop (read_next (S fuel)) (S fuel') a cnt (mkPI (text ++ [NUL]) 0 d)
     = Err (SyntaxError "unexpected character"
              (pi_s (next_non_white (mkPI (text ++ [NUL]) 0 doc_init))))).
Proof.
  intros Hc. split.
  - unfold doc_open, parse_json.
    rewrite read_next_no_value by done. simpl.
    eexists. split; [done|]. simpl. done.
  - intros. by rewrite read_array_loop_no_value.
Qed.

Lemma C5_witness :
  (∃ pi, doc_open (dq " x") = Ok pi ∧ pi_str pi = dq " x" ++ [NUL] ∧
     data (pi_doc pi) = NULL ∧ leaves (pi_doc pi) = [] ∧
     doc_size (pi_doc pi) = 1 ∧ cursor (pi_doc pi) = [NULL] ∧
     doc_where (pi_str pi) (pi_doc pi) = Ok ["/"%char]) ∧
  (∀ fuel fuel' a cnt d,
     read_array_loop (read_next (S fuel)) (S fuel') a cnt (mkPI (dq " x" ++ [NUL]) 0 d)
     = Err (SyntaxError "unexpected character"
              (pi_s (next_non_white (mkPI (dq " x" ++ [NUL]) 0 doc_init))))).
Proof. apply (C5_no_value_gives_null_root (dq " x")). reflexivity. Defined.

(** ** The [\u] escape *)

Lemma peek_poke_ne b i j c : i ≠ j → peek (poke b i c) j = peek b j.
Proof. intros. unfold peek, poke. by rewrite list_lookup_insert_ne. Qed.

Lemma peek_poke_eq b i c : (i < length b)%nat → peek (poke b i c) i = c.
Proof. intros. unfold peek, poke. by rewrite list_lookup_insert_eq. Qed.

Lemma peek_in_range b i : peek b i ≠ NUL → (i < length b)%nat.
Proof.
  unfold peek. intros Hp. apply lookup_lt_is_Some.
  destruct (b !! i); [done|]. by destruct Hp.
Qed.

Lemma read_hex_digits b h d1 d2 :
  hex_digit (peek b h) = Some d1 → hex_digit (peek b (h + 1)) = Some d2 →
  read_hex b h = Ok (chr (16 * d1 + d2)).
Proof.
  intros H1 H2. unfold read_hex. rewrite H1, H2.
  by rewrite Z.shiftl_mul_pow2, Z.mul_comm by lia.
Qed.

(** C4 (as stated) fails on its own example: the payload of
    [{"a":"\u00e9"}] is the single byte E9. *)
Lemma C4_u00e9_is_one_byte :
  open_fetch (dq "{'a':'\u00e9'}") (dq "/a") = Ok (Ref 0, [RString ["233"%char]]).
Proof. vm_compute. reflexivity. Qed.

(** C4 (as amended): at an escape [\uXXXX] whose hex digits spell the
    bytes [hi] and [lo], the unescape writes [hi] then [lo] when [hi] is
    not zero, and [lo] alone when [hi] is zero ([t] is stepped over the
    first byte only [if ('\0' != *t)]); so the payload of
    [{"a":"\u00e9"}] is the one byte E9. *)
Theorem C4_unicode_escape_bytes fuel b h t d1 d2 d3 d4 :
  peek b h = "\"%char → peek b (h + 1) = "u"%char →
  hex_digit (peek b (h + 2)) = Some d1 → hex_digit (peek b (h + 3)) = Some d2 →
  hex_digit (peek b (h + 4)) = Some d3 → hex_digit (peek b (h + 5)) = Some d4 →
  (t ≤ h)%nat →
  read_quoted_loop (S fuel) b h t
  = (if decide (chr (16 * d1 + d2) = NUL)
     then read_quoted_loop fuel (poke b t (chr (16 * d3 + d4))) (h + 6) (t + 1)
     else read_quoted_loop fuel
            (poke (poke b t (chr (16 * d1 + d2))) (t + 1) (chr (16 * d3 + d4)))
            (h + 6) (t + 2))
  ∧ open_fetch (dq "{'a':'\u00e9'}") (dq "/a") = Ok (Ref 0, [RString ["233"%char]]).
Proof.
  intros Hb Hu H1 H2 H3 H4 Ht. split; [|vm_compute; reflexivity].
  assert (h < length b)%nat as Hh by (apply peek_in_range; by rewrite Hb).
  cbn [read_quoted_loop]. rewrite Hb, Hu. simpl.
  replace (h + 1 + 1)%nat with (h + 2)%nat by lia.
  rewrite (read_hex_digits b (h + 2) d1 d2);
    [|done|by replace (h + 2 + 1)%nat with (h + 3)%nat by lia].
  simpl. rewrite peek_poke_eq by lia.
  replace (h + 2 + 2)%nat with (h + 4)%nat by lia.
  rewrite (read_hex_digits _ (h + 4) d3 d4).
  2: { rewrite peek_poke_ne by lia. done. }
  2: { rewrite peek_poke_ne by lia. by replace (h + 4 + 1)%nat with (h + 5)%nat by lia. }
  simpl. replace (h + 4 + 1 + 1)%nat with (h + 6)%nat by lia.
  destruct (decide (chr (16 * d1 + d2) = NUL)) as [E|E].
  - rewrite E. simpl. unfold poke. by rewrite list_insert_insert_eq.
  - apply Ascii.eqb_neq in E. rewrite E.
    by replace (t + 1 + 1)%nat with (t + 2)%nat by lia.
Qed.

Lemma C4_witness :
  read_quoted_loop 2 (dq "'\u01e9'") 1 1
  = (if decide (chr (16 * 0 + 1) = NUL)
     then read_quoted_loop 1 (poke (dq "'\u01e9'") 1 (chr (16 * 14 + 9))) (1 + 6) (1 + 1)
     else read_quoted_loop 1
            (poke (poke (dq "'\u01e9'") 1 (chr (16 * 0 + 1))) (1 + 1) (chr (16 * 14 + 9)))
            (1 + 6) (1 + 2))
  ∧ open_fetch (dq "{'a':'\u00e9'}") (dq "/a") = Ok (Ref 0, [RString ["233"%char]]).
Proof.
  apply (C4_unicode_escape_bytes 1 (dq "'\u01e9'") 1 1 0 1 14 9);
    solve [reflexivity | lia].
Defined.

(** ** The scanner on a valid text *)

Lemma peek_drop b i : peek b i = chr0 (drop i b).
Proof.
  revert i. induction b as [|c b IH]; intros [|i]; simpl; try done. apply IH.
Qed.

Lemma cur_rem pi : cur pi = chr0 (rem pi).
Proof. apply peek_drop. Qed.

Lemma rem_advance k pi : rem (advance k pi) = drop k (rem pi).
Proof. unfold rem, advance. simpl. by rewrite drop_drop. Qed.

Lemma rem_set_doc d pi : rem (set_doc d pi) = rem pi.
Proof. done. Qed.

Lemma white_run_app ws rest :
  Forall (λ c, is_white c = true) ws → is_white (chr0 rest) = false →
  white_run (ws ++ rest) = length ws.
Proof.
  induction 1 as [|c ws Hc _ IH]; simpl; intros Hr.
  - destruct rest; [done|]. simpl in *. by rewrite Hr.
  - rewrite Hc. by rewrite IH.
Qed.

Lemma digit_run_app ds rest :
  Forall (λ c, is_digit c = true) ds → is_digit (chr0 rest) = false →
  digit_run (ds ++ rest) = length ds.
Proof.
  induction 1 as [|c ds Hc _ IH]; simpl; intros Hr.
  - destruct rest; [done|]. simpl in *. by rewrite Hr.
  - rewrite Hc. by rewrite IH.
Qed.

Lemma next_non_white_rem pi ws rest :
  rem pi = ws ++ rest → Forall (λ c, is_white c = true) ws → is_white (chr0 rest) = false →
  next_non_white pi = advance (length ws) pi.
Proof.
  intros Hr Hw Hn. unfold next_non_white. fold (rem pi). rewrite Hr.
  by rewrite white_run_app.
Qed.

Lemma skip_digits_rem pi ds rest :
  rem pi = ds ++ rest → Forall (λ c, is_digit c = true) ds → is_digit (chr0 rest) = false →
  skip_digits pi = advance (length ds) pi.
Proof.
  intros Hr Hw Hn. unfold skip_digits. fold (rem pi). rewrite Hr.
  by rewrite digit_run_app.
Qed.

Lemma advance_advance j k pi : advance j (advance k pi) = advance (k + j) pi.
Proof. unfold advance. simpl. f_equal. lia. Qed.

Lemma advance_0 pi : advance 0 pi = pi.
Proof. destruct pi. unfold advance. simpl. f_equal. lia. Qed.

Lemma digit_not_dot c : is_digit c = true → c ≠ "."%char ∧ c ≠ "e"%char ∧ c ≠ "E"%char ∧ c ≠ "-"%char ∧ c ≠ "+"%char.
Proof. intros H. repeat split; intros ->; discriminate H. Qed.

Lemma skip_digits_advance pi : skip_digits pi = advance (digit_run (rem pi)) pi.
Proof. done. Qed.

Lemma read_num_len pi :
  ∃ a d, read_num pi = (At a, mkPI (pi_str pi) (pi_s pi + num_len (rem pi)) d) ∧
         size d = size (pi_doc pi).
Proof.
  unfold read_num, num_len.
  set (pi0 := set_doc _ pi).
  assert (∀ k, rem (advance k pi0) = drop k (rem pi)) as R by (intros; rewrite rem_advance; reflexivity).
  assert (∀ k, cur (advance k pi0) = chr0 (drop k (rem pi))) as C by (intros; by rewrite cur_rem, R).
  assert (pi0 = advance 0 pi0) as E0 by (by rewrite advance_0).
  set (k0 := if Ascii.eqb (chr0 (rem pi)) "-" then 1%nat else 0%nat).
  assert ((if Ascii.eqb (cur pi0) "-" then advance 1 pi0 else pi0) = advance k0 pi0) as ->.
  { subst k0. rewrite E0 at 1. rewrite C, drop_0. destruct (Ascii.eqb _ _); [done|]. by rewrite advance_0. }
  rewrite skip_digits_advance, R, advance_advance.
  set (k1 := (k0 + digit_run (drop k0 (rem pi)))%nat).
  rewrite C.
  set (k2 := if Ascii.eqb (chr0 (drop k1 (rem pi))) "." then (k1 + 1 + digit_run (drop (k1 + 1) (rem pi)))%nat else k1).
  assert (∃ ty, (if Ascii.eqb (chr0 (drop k1 (rem pi))) "."
          then (T_FLOAT, skip_digits (advance 1 (advance k1 pi0)))
          else (T_FIXNUM, advance k1 pi0)) = (ty, advance k2 pi0)) as [ty ->].
  { subst k2. destruct (Ascii.eqb (chr0 (drop k1 (rem pi))) "."); eexists; [|done].
    by rewrite advance_advance, skip_digits_advance, R, advance_advance. }
  rewrite C.
  destruct (Ascii.eqb (chr0 (drop k2 (rem pi))) "e" || Ascii.eqb (chr0 (drop k2 (rem pi))) "E").
  - rewrite advance_advance, C.
    set (k4 := if _ || _ then (k2 + 1 + 1)%nat else (k2 + 1)%nat).
    assert ((if Ascii.eqb (chr0 (drop (k2 + 1) (rem pi))) "-" || Ascii.eqb (chr0 (drop (k2 + 1) (rem pi))) "+"
             then advance 1 (advance (k2 + 1) pi0) else advance (k2 + 1) pi0) = advance k4 pi0) as ->.
    { subst k4. destruct (Ascii.eqb (chr0 (drop (k2 + 1) (rem pi))) "-" || _); [|done]. by rewrite advance_advance. }
    rewrite skip_digits_advance, R, advance_advance. simpl. eauto.
  - simpl. eauto.
Qed.

Lemma drop_app2 {A} (a b : list A) k : k = length a → drop k (a ++ b) = b.
Proof. intros ->. apply drop_app_length. Qed.
Lemma drop_app3 {A} (a b c : list A) k :
  k = (length a + length b)%nat → drop k (a ++ b ++ c) = c.
Proof. intros ->. by rewrite <- drop_drop, !drop_app_length. Qed.
Lemma drop_app4 {A} (a b c d : list A) k :
  k = (length a + length b + length c)%nat → drop k (a ++ b ++ c ++ d) = d.
Proof. intros ->. by rewrite <- !drop_drop, !drop_app_length. Qed.
Lemma drop_app5 {A} (a b c d e : list A) k :
  k = (length a + length b + length c + length d)%nat →
  drop k (a ++ b ++ c ++ d ++ e) = e.
Proof. intros ->. by rewrite <- !drop_drop, !drop_app_length. Qed.

Lemma num_len_render n post :
  number_ok n → ends_number post →
  num_len (render_number n ++ post) = length (render_number n).
Proof.
  intros (Hi & Hne & Hf & He) (Hp1 & Hp2 & Hp3 & Hp4).
  destruct n as [m ip fp ep]. unfold render_number. simpl in *.
  set (S0 := if m then ["-"%char] else []).
  set (F := match fp with Some f => "."%char :: f | None => [] end).
  set (E := match ep with
            | Some (e, sg, ds) => e :: match sg with Some c => [c] | None => [] end ++ ds
            | None => [] end).
  rewrite <- !app_assoc.
  assert (is_digit (chr0 (E ++ post)) = false ∧ chr0 (E ++ post) ≠ "."%char) as [HE1 HE2].
  { subst E. destruct ep as [[[e sg] ds]|]; [|done].
    destruct He as ([-> | ->] & _); done. }
  assert (is_digit (chr0 (F ++ E ++ post)) = false) as HF1.
  { subst F. by destruct fp. }
  unfold num_len.
  assert ((if Ascii.eqb (chr0 (S0 ++ ip ++ F ++ E ++ post)) "-" then 1%nat else 0%nat) = length S0) as ->.
  { subst S0. destruct m; [done|]. simpl. destruct ip as [|c ip]; [done|]. simpl.
    unfold digits_ok in Hi. apply Forall_cons_1 in Hi as [Hc _].
    apply digit_not_dot in Hc as (_ & _ & _ & Hc & _).
    by apply Ascii.eqb_neq in Hc as ->. }
  rewrite drop_app_length, digit_run_app by done.
  rewrite (drop_app3 S0 ip _ (length S0 + length ip)) by done.
  assert ((if Ascii.eqb (chr0 (F ++ E ++ post)) "."
           then (length S0 + length ip + 1 + digit_run (drop (length S0 + length ip + 1) (S0 ++ ip ++ F ++ E ++ post)))%nat
           else (length S0 + length ip)%nat) = (length S0 + length ip + length F)%nat) as ->.
  { subst F. destruct fp as [f|].
    - change (("."%char :: f) ++ E ++ post) with (["."%char] ++ f ++ E ++ post).
      rewrite (drop_app4 S0 ip ["."%char]) by done. simpl.
      rewrite digit_run_app by done. lia.
    - simpl. apply Ascii.eqb_neq in HE2 as ->. lia. }
  rewrite (drop_app4 S0 ip F _ (length S0 + length ip + length F)) by done.
  rewrite !length_app.
  subst E. destruct ep as [[[e sg] ds]|].
  - destruct He as (He & Hs & Hd & Hdn).
    change (chr0 ((e :: match sg with Some c => [c] | None => [] end ++ ds) ++ post)) with e.
    assert (Ascii.eqb e "e" || Ascii.eqb e "E" = true) as ->.
    { destruct He as [-> | ->]; done. }
    set (SG := match sg with Some c => [c] | None => [] end).
    change ((e :: SG ++ ds) ++ post) with ([e] ++ (SG ++ ds) ++ post).
    rewrite (drop_app5 S0 ip F [e]) by done.
    assert ((if Ascii.eqb (chr0 ((SG ++ ds) ++ post)) "-" || Ascii.eqb (chr0 ((SG ++ ds) ++ post)) "+"
             then (length S0 + length ip + length F + 1 + 1)%nat
             else (length S0 + length ip + length F + 1)%nat)
            = (length S0 + length ip + length F + 1 + length SG)%nat) as ->.
    { subst SG. destruct sg as [c|]; simpl.
      - destruct Hs as [-> | ->]; simpl; lia.
      - destruct ds as [|d ds]; [done|]. simpl.
        unfold digits_ok in Hd. pose proof Hd as Hd'. apply Forall_cons_1 in Hd' as [Hc _].
        apply digit_not_dot in Hc as (_ & _ & _ & Hc1 & Hc2).
        apply Ascii.eqb_neq in Hc1 as ->. apply Ascii.eqb_neq in Hc2 as ->. simpl. lia. }
    rewrite <- (app_assoc SG).
    replace (S0 ++ ip ++ F ++ [e] ++ SG ++ ds ++ post)
      with (S0 ++ ip ++ F ++ ([e] ++ SG) ++ ds ++ post) by (by rewrite <- !app_assoc).
    rewrite (drop_app5 S0 ip F ([e] ++ SG)) by (rewrite length_app; simpl; lia).
    rewrite digit_run_app by done. simpl. rewrite !length_app. simpl. lia.
  - simpl. apply Ascii.eqb_neq in Hp3 as ->. apply Ascii.eqb_neq in Hp4 as ->. simpl. lia.
Qed.

Lemma peek_add b h i : peek b (h + i) = peek (drop h b) i.
Proof. unfold peek. by rewrite lookup_drop. Qed.

Lemma peek_at b h l i : drop h b = l → peek b (h + i) = peek l i.
Proof. intros <-. apply peek_add. Qed.

Lemma peek_at0 b h l : drop h b = l → peek b h = peek l 0.
Proof. intros <-. rewrite <- (peek_add b h 0). f_equal. lia. Qed.

Lemma drop_poke_lt b n i c : (i < n)%nat → drop n (poke b i c) = drop n b.
Proof. intros. unfold poke. by apply drop_insert_lt. Qed.

Lemma length_poke b i c : length (poke b i c) = length b.
Proof. apply length_insert. Qed.

Lemma drop_lt_length {A} (b : list A) h x l : drop h b = x :: l → (h < length b)%nat.
Proof.
  intros Hd. destruct (decide (h < length b)%nat); [done|].
  rewrite drop_ge in Hd by lia. done.
Qed.

Lemma drop_next {A} (b : list A) h x l : drop h b = x :: l → drop (S h) b = l.
Proof. intros Hd. replace (S h) with (h + 1)%nat by lia. rewrite <- (drop_drop b 1 h), Hd. done. Qed.

Lemma drop_more {A} (b : list A) h l1 l2 :
  drop h b = l1 ++ l2 → drop (h + length l1) b = l2.
Proof. intros Hd. by rewrite <- drop_drop, Hd, drop_app_length. Qed.

Lemma escape_not_u c : is_Some (escape c) → Ascii.eqb c "u" = false.
Proof. intros [e He]. destruct (Ascii.eqb_spec c "u") as [->|]; [done|done]. Qed.

Lemma peek_0 c l : peek (c :: l) 0 = c.
Proof. done. Qed.
Lemma peek_S c l i : peek (c :: l) (S i) = peek l i.
Proof. done. Qed.

Lemma eqb_refl' c : Ascii.eqb c c = true.
Proof. apply Ascii.eqb_refl. Qed.

Lemma read_quoted_loop_body body : Forall sitem_ok body →
  ∀ fuel b h t post,
    drop h b = render_body body ++ DQUOTE :: post → (t ≤ h)%nat →
    (length body < fuel)%nat →
    ∃ b' t', read_quoted_loop fuel b h t = Ok (b', (h + length (render_body body))%nat, t') ∧
      (t' ≤ h + length (render_body body))%nat ∧ length b' = length b ∧
      drop (h + length (render_body body)) b' = DQUOTE :: post.
Proof.
  induction 1 as [|it body Hit _ IH]; intros fuel b h t post Hd Ht Hf.
  - destruct fuel as [|fuel]; [simpl in Hf; lia|].
    change (render_body []) with (@nil ascii) in *. cbn [app length] in *.
    cbn [read_quoted_loop].
    rewrite (peek_at0 _ _ _ Hd), peek_0, eqb_refl'.
    exists b, t. rewrite Nat.add_0_r. done.
  - destruct fuel as [|fuel]; [simpl in Hf; lia|]. cbn [length] in Hf.
    change (render_body (it :: body)) with (render_sitem it ++ render_body body) in *.
    rewrite <- app_assoc in Hd. rewrite length_app.
    cbn [read_quoted_loop].
    destruct it as [c|c|h1 h2 h3 h4]; cbn [render_sitem app length] in Hd |- *; cbn [sitem_ok] in Hit.
    + (* a plain byte *)
      destruct Hit as (Hq & Hb & Hn).
      rewrite (peek_at0 _ _ _ Hd), peek_0.
      apply Ascii.eqb_neq in Hq as ->. apply Ascii.eqb_neq in Hn as ->. apply Ascii.eqb_neq in Hb as ->.
      destruct (IH fuel (if decide (t = h) then b else poke b t c) (h + 1)%nat (t + 1)%nat post)
        as (b' & t' & -> & Ht' & Hl & Hd'); [| lia | lia |].
      { destruct (decide (t = h)).
        - rewrite Nat.add_1_r. by eapply drop_next.
        - rewrite drop_poke_lt by lia. rewrite Nat.add_1_r. by eapply drop_next. }
      exists b', t'. replace (h + 1 + length (render_body body))%nat
        with (h + S (length (render_body body)))%nat in * by lia.
      split_and!; try done. rewrite Hl. destruct (decide _); [done|apply length_poke].
    + (* a two-byte escape *)
      rewrite (peek_at0 _ _ _ Hd), peek_0.
      rewrite (peek_at _ _ _ 1 Hd), peek_S, peek_0.
      change (Ascii.eqb "\" DQUOTE) with false. change (Ascii.eqb "\" NUL) with false.
      rewrite eqb_refl'.
      rewrite escape_not_u by done. destruct Hit as [e He]. rewrite He.
      destruct (IH fuel (poke b t e) (h + 1 + 1)%nat (t + 1)%nat post)
        as (b' & t' & -> & Ht' & Hl & Hd'); [| lia | lia |].
      { rewrite drop_poke_lt by lia.
        replace (h + 1 + 1)%nat with (h + length ["\"%char; c])%nat by (simpl; lia).
        by apply drop_more. }
      exists b', t'. replace (h + 1 + 1 + length (render_body body))%nat
        with (h + S (S (length (render_body body))))%nat in * by lia.
      split_and!; try done. by rewrite Hl, length_poke.
    + (* backslash, u, four hex digits *)
      destruct Hit as ([d1 H1] & [d2 H2] & [d3 H3] & [d4 H4]).
      pose proof (drop_lt_length _ _ _ _ Hd) as Hlen.
      rewrite (peek_at0 _ _ _ Hd), peek_0.
      rewrite (peek_at _ _ _ 1 Hd), peek_S, peek_0.
      change (Ascii.eqb "\" DQUOTE) with false. change (Ascii.eqb "\" NUL) with false.
      rewrite !eqb_refl'.
      replace (h + 1 + 1)%nat with (h + 2)%nat by lia.
      rewrite (read_hex_digits b (h + 2) d1 d2).
      2: { by rewrite (peek_at _ _ _ 2 Hd). }
      2: { replace (h + 2 + 1)%nat with (h + 3)%nat by lia. by rewrite (peek_at _ _ _ 3 Hd). }
      cbn [mbind res_bind]. rewrite peek_poke_eq by lia.
      replace (h + 2 + 2)%nat with (h + 4)%nat by lia.
      set (t1 := if Ascii.eqb (chr (16 * d1 + d2)) NUL then t else (t + 1)%nat).
      assert (t1 ≤ t + 1)%nat as Ht1 by (subst t1; destruct (Ascii.eqb _ _); lia).
      rewrite (read_hex_digits _ (h + 4) d3 d4).
      2: { rewrite peek_poke_ne by lia. by rewrite (peek_at _ _ _ 4 Hd). }
      2: { rewrite peek_poke_ne by lia. replace (h + 4 + 1)%nat with (h + 5)%nat by lia.
           by rewrite (peek_at _ _ _ 5 Hd). }
      cbn [mbind res_bind]. replace (h + 4 + 1 + 1)%nat with (h + 6)%nat by lia.
      destruct (IH fuel (poke (poke b t (chr (16 * d1 + d2))) t1 (chr (16 * d3 + d4)))
                  (h + 6)%nat (t1 + 1)%nat post)
        as (b' & t' & -> & Ht' & Hl & Hd'); [| lia | lia |].
      { rewrite !drop_poke_lt by lia.
        replace (h + 6)%nat with (h + length ["\"%char; "u"%char; h1; h2; h3; h4])%nat by (simpl; lia).
        by apply drop_more. }
      exists b', t'. replace (h + 6 + length (render_body body))%nat
        with (h + S (S (S (S (S (S (length (render_body body))))))))%nat in * by lia.
      split_and!; try done. by rewrite Hl, !length_poke.
Qed.

Lemma bump_add a b z : bump (a + b) z = bump b (bump a z).
Proof. unfold bump. by rewrite Nat.add_comm, Nat.iter_add. Qed.

Lemma bump_S k z : bump (S k) z = bump k (ulong (z + 1)).
Proof. exact (bump_add 1 k z). Qed.

Lemma bump_ulong k z : bump (S k) z = ulong (z + Z.of_nat (S k)).
Proof.
  revert z. induction k as [|k IH]; intros z.
  - done.
  - rewrite bump_S, IH. unfold ulong. rewrite Zplus_mod_idemp_l. f_equal. lia.
Qed.

Lemma tokens_pos v : (1 ≤ tokens v)%nat.
Proof. destruct v; simpl; lia. Qed.

Lemma read_quoted_value_scans pi body post :
  Forall sitem_ok body → rem pi = render_string body ++ post →
  ∃ pi', read_quoted_value pi = Ok (S (pi_s pi), pi') ∧
    scanned pi pi' (length (render_string body)) post 0 ∧ pi_doc pi' = pi_doc pi.
Proof.
  intros Hb Hr. unfold read_quoted_value, render_string in *.
  cbn [app] in Hr. rewrite <- app_assoc in Hr. cbn [app] in Hr.
  assert (drop (pi_s pi + 1) (pi_str pi) = render_body body ++ DQUOTE :: post) as Hd.
  { rewrite Nat.add_1_r. by eapply drop_next. }
  assert (length body < length (pi_str pi))%nat as Hf.
  { assert (length (drop (pi_s pi + 1) (pi_str pi)) ≤ length (pi_str pi))%nat
      by (rewrite length_drop; lia).
    rewrite Hd, length_app in H.
    assert (length body ≤ length (render_body body))%nat; [|simpl in H; lia].
    clear. induction body as [|[]]; simpl; [lia|unfold render_body in *; simpl; lia..]. }
  destruct (read_quoted_loop_body body Hb (length (pi_str pi)) (pi_str pi) (pi_s pi + 1)%nat (pi_s pi + 1)%nat post Hd) as (b' & t' & -> & Ht & Hl & Hd');
    [lia|done|].
  cbn [mbind res_bind]. rewrite Nat.add_1_r. eexists. split; [done|].
  split; [|done]. unfold scanned, rem. cbn [pi_s pi_str pi_doc length].
  rewrite !length_app. cbn [length]. split_and!.
  - lia.
  - rewrite drop_poke_lt by lia.
    replace (S (pi_s pi) + length (render_body body) + 1)%nat
      with (S (S (pi_s pi) + length (render_body body))) by lia.
    eapply drop_next. by rewrite <- Nat.add_1_r.
  - by rewrite length_poke.
  - done.
Qed.

Lemma starts_value_head c :
  starts_value c = true →
  is_white c = false ∧ c ≠ "]"%char ∧ c ≠ "}"%char ∧ c ≠ ","%char ∧ c ≠ ":"%char.
Proof.
  destruct c as [[|] [|] [|] [|] [|] [|] [|] [|]]; intros H; try discriminate H;
    repeat split; discriminate.
Qed.

Lemma render_head v : valid v → ∃ c tl, render v = c :: tl ∧ starts_value c = true.
Proof.
  destruct v as [| | |n|body|ws es|ws ms]; simpl; intros Hv; eauto.
  destruct n as [[] ip fp ep]; unfold render_number; simpl; [eauto|].
  destruct Hv as (Hi & Hne & _). simpl in *. destruct ip as [|c ip]; [done|].
  apply Forall_cons_1 in Hi as [Hc _]. simpl. exists c. eexists. split; [done|].
  unfold starts_value.
  destruct c as [[|] [|] [|] [|] [|] [|] [|] [|]]; done.
Qed.

Lemma nnw_skip pi ws c tl :
  rem pi = ws ++ c :: tl → ws_ok ws → is_white c = false →
  next_non_white pi = advance (length ws) pi ∧
  rem (advance (length ws) pi) = c :: tl ∧ cur (advance (length ws) pi) = c.
Proof.
  intros Hr Hw Hc.
  assert (rem (advance (length ws) pi) = c :: tl) as R
    by (by rewrite rem_advance, Hr, drop_app_length).
  split_and!; [|done|by rewrite cur_rem, R].
  by eapply next_non_white_rem.
Qed.

Lemma expect_at b i letters tl :
  drop i b = letters ++ tl → expect b i letters = true.
Proof.
  revert i. induction letters as [|c letters IH]; intros i Hd; [done|].
  cbn [expect]. cbn [app] in Hd. rewrite (peek_at0 _ _ _ Hd), peek_0, eqb_refl'.
  cbn [andb]. apply IH. by eapply drop_next.
Qed.

Lemma read_word_scans t letters msg pi c post :
  rem pi = c :: letters ++ post →
  ∃ a pi', read_word t letters msg pi = Ok (At a, pi') ∧
    scanned pi pi' (S (length letters)) post 0.
Proof.
  intros Hr. unfold read_word. simpl.
  rewrite (expect_at _ _ letters post).
  2: { simpl. rewrite Nat.add_1_r. by eapply drop_next. }
  do 2 eexists. split; [done|]. unfold scanned, rem. simpl. split_and!; try done; [lia|].
  replace (pi_s pi + 1 + length letters)%nat with (pi_s pi + length (c :: letters))%nat
    by (simpl; lia).
  by apply drop_more.
Qed.

Lemma read_array_loop_nnw rn fuel a cnt pi :
  read_array_loop rn fuel a cnt (next_non_white pi) = read_array_loop rn fuel a cnt pi.
Proof. destruct fuel; [done|]. cbn [read_array_loop read_obj_loop]. by rewrite next_non_white_idem. Qed.

Lemma read_obj_loop_nnw rn fuel h pi :
  read_obj_loop rn fuel h (next_non_white pi) = read_obj_loop rn fuel h pi.
Proof. destruct fuel; [done|]. cbn [read_array_loop read_obj_loop]. by rewrite next_non_white_idem. Qed.

Lemma scanned_trans pi1 pi2 pi3 n1 n2 post1 post2 k1 k2 :
  scanned pi1 pi2 n1 post1 k1 → scanned pi2 pi3 n2 post2 k2 →
  scanned pi1 pi3 (n1 + n2) post2 (k1 + k2).
Proof.
  intros (S1 & R1 & L1 & Z1) (S2 & R2 & L2 & Z2). unfold scanned.
  rewrite S2, S1, L2, L1, Z2, Z1, bump_add. split_and!; try done. lia.
Qed.

Lemma scanned_advance pi k :
  scanned pi (advance k pi) k (drop k (rem pi)) 0.
Proof. unfold scanned. rewrite rem_advance. split_and!; done. Qed.

(** Writing the terminator behind the cursor. *)
Lemma scanned_poke pi e :
  (e < pi_s pi)%nat →
  scanned pi (set_buf (poke (pi_str pi) e NUL) pi) 0 (rem pi) 0.
Proof.
  intros. unfold scanned, rem. simpl. rewrite drop_poke_lt, length_poke by lia.
  split_and!; try done; lia.
Qed.

Lemma scanned_on_leaves pi f :
  scanned pi (on_leaves f pi) 0 (rem pi) 0.
Proof. unfold scanned, rem. simpl. split_and!; try done; lia. Qed.

Lemma scanned_count pi :
  scanned pi (set_doc (set_size (ulong (size (pi_doc pi) + 1)) (pi_doc pi)) pi) 0 (rem pi) 1.
Proof. unfold scanned, rem. simpl. split_and!; try done; lia. Qed.

Lemma scanned_leaf_new pi t :
  scanned pi (set_doc (leaf_new (pi_doc pi) t).2 pi) 0 (rem pi) 0.
Proof. unfold scanned, rem. simpl. split_and!; try done; lia. Qed.

Lemma white_ends_number c : is_white c = true → ends_number [c].
Proof.
  destruct c as [[|] [|] [|] [|] [|] [|] [|] [|]]; intros H; try discriminate H; done.
Qed.

Lemma ends_number_head c tl tl' : ends_number (c :: tl) → ends_number (c :: tl').
Proof. done. Qed.

Lemma ends_number_ws ws c tl :
  ws_ok ws → ends_number [c] → ends_number (ws ++ c :: tl).
Proof.
  intros Hw Hc. destruct Hw as [|w ws Hw _]; [done|].
  simpl. apply (ends_number_head w []). by apply white_ends_number.
Qed.

Lemma nnw_mk b s d ws c tl :
  drop s b = ws ++ c :: tl → ws_ok ws → is_white c = false →
  next_non_white (mkPI b s d) = mkPI b (s + length ws) d ∧
  drop (s + length ws) b = c :: tl ∧ peek b (s + length ws) = c.
Proof.
  intros Hd Hw Hc.
  destruct (nnw_skip (mkPI b s d) ws c tl Hd Hw Hc) as (-> & R & C). done.
Qed.

Lemma read_next_nnw fuel pi : read_next fuel (next_non_white pi) = read_next fuel pi.
Proof. destruct fuel; [done|]. cbn [read_next]. by rewrite next_non_white_idem. Qed.

Lemma read_next_number f pi :
  (is_digit (cur (next_non_white pi)) = true ∨ cur (next_non_white pi) = "-"%char) →
  read_next (S f) pi =
    (let '(leaf, pi') := read_num (next_non_white pi) in
     Ok (leaf, set_doc (set_size (ulong (size (pi_doc pi') + 1)) (pi_doc pi')) pi')).
Proof.
  intros Hc. cbn [read_next].
  destruct (read_num (next_non_white pi)) as [leaf pi'] eqn:E.
  destruct (cur (next_non_white pi)) as [[|] [|] [|] [|] [|] [|] [|] [|]];
    destruct Hc as [Hc|Hc]; try discriminate Hc; done.
Qed.

Lemma scans_word v t letters msg c :
  render v = c :: letters → tokens v = 1%nat → is_white c = false →
  (∀ f pi, cur (next_non_white pi) = c →
     read_next (S f) pi =
       '(leaf, pi') ← read_word t letters msg (next_non_white pi);
       Ok (leaf, set_doc (set_size (ulong (size (pi_doc pi') + 1)) (pi_doc pi')) pi')) →
  scans_value v.
Proof.
  intros Hr Ht Hc Hd _ fuel [b s d] ws post Hf Hrem Hw _.
  rewrite Hr, Ht in *. destruct fuel as [|f]; [lia|].
  unfold rem in Hrem. simpl in Hrem.
  destruct (nnw_mk b s d ws c (letters ++ post) Hrem Hw Hc) as (N & D & C).
  rewrite Hd by (by rewrite N).
  rewrite N.
  destruct (read_word_scans t letters msg (mkPI b (s + length ws) d) c post D)
    as (a & [b1 s1 d1] & -> & S1 & R1 & L1 & Z1).
  unfold rem in *. simpl in *. exists a. eexists. split; [done|].
  unfold scanned, rem. simpl. rewrite Z1. split_and!; try done. lia.
Qed.

Lemma scans_num n : scans_value (JNum n).
Proof.
  intros Hv fuel [b s d] ws post Hf Hrem Hw Hp. simpl in *.
  destruct fuel as [|f]; [lia|]. unfold rem in Hrem. simpl in Hrem.
  destruct (render_head (JNum n) Hv) as (c & tl & Hr & Hs). simpl in Hr.
  destruct (starts_value_head c Hs) as (Hc & _).
  rewrite Hr in Hrem. simpl in Hrem.
  destruct (nnw_mk b s d ws c (tl ++ post) Hrem Hw Hc) as (N & D & C).
  rewrite read_next_number.
  2: { rewrite N. unfold cur. simpl. rewrite C.
       destruct n as [[] ip fp ep]; unfold render_number in Hr; simpl in Hr.
       - right. congruence.
       - left. destruct Hv as (Hi & Hne & _). simpl in *. destruct ip as [|c' ip]; [done|].
         apply Forall_cons_1 in Hi as [Hc' _]. simpl in Hr. congruence. }
  rewrite N.
  destruct (read_num_len (mkPI b (s + length ws) d)) as (a & d' & -> & Z).
  unfold rem in *. simpl in *.
  change (c :: tl ++ post) with ((c :: tl) ++ post) in D. rewrite <- Hr in D.
  rewrite D, num_len_render by done.
  exists a. eexists. split; [done|].
  unfold scanned, rem. simpl. rewrite Z. split_and!; try done; [lia|].
  rewrite <- Nat.add_assoc. rewrite Nat.add_assoc. by apply drop_more.
Qed.

Lemma scans_str body : scans_value (JStr body).
Proof.
  intros Hv fuel [b s d] ws post Hf Hrem Hw Hp. simpl in *.
  destruct fuel as [|f]; [lia|]. unfold rem in Hrem. simpl in Hrem.
  unfold render_string in Hrem. simpl in Hrem.
  destruct (nnw_mk b s d ws DQUOTE ((render_body body ++ [DQUOTE]) ++ post) Hrem Hw eq_refl)
    as (N & D & C).
  cbn [read_next]. rewrite N. unfold cur at 1. cbn [pi_str pi_s]. rewrite C.
  change (match DQUOTE with "034"%char => ?x | _ => _ end) with x.
  unfold read_str. cbn [leaf_new]. unfold set_doc at 2. cbn [pi_str pi_s pi_doc].
  destruct (read_quoted_value_scans
              (mkPI b (s + length ws) (set_leaves (leaves d ++ [leaf_init T_STRING]) d))
              body post Hv D) as ([b1 s1 d1] & -> & (S1 & R1 & L1 & Z1) & E1).
  unfold rem in *. cbn [pi_str pi_s pi_doc] in *. subst d1.
  cbn [mbind res_bind]. do 2 eexists. split; [done|].
  unfold scanned, rem. cbn. split_and!; try done.
  rewrite S1. unfold render_string. cbn [length]. lia.
Qed.

Lemma sep_ends_number c tl :
  c = "]"%char ∨ c = ","%char ∨ c = "}"%char → ends_number (c :: tl).
Proof. intros [-> | [-> | ->]]; done. Qed.

Lemma size_on_leaves f pi : size (pi_doc (on_leaves f pi)) = size (pi_doc pi).
Proof. done. Qed.

Lemma scans_econs w1 v w2 rest :
  scans_value v → scans_elements rest → scans_elements (ECons w1 v w2 rest).
Proof.
  intros IHv IHr (Hw1 & Hv & Hw2 & Hrest) _ fuel f [b s d] ws post a cnt Hfuel Hf Hrem Hws.
  cbn [tokens_elements] in Hfuel, Hf. pose proof (tokens_pos v) as Hpos.
  destruct fuel as [|fuel]; [lia|].
  cbn [read_array_loop]. rewrite read_next_nnw.
  cbn [render_elements] in Hrem |- *.
  set (sep := match rest with ENil => ["]"%char] | _ => ","%char :: render_elements rest end) in *.
  assert (∃ c tl, sep = c :: tl ∧ (c = "]" ∨ c = "," ∨ c = "}")%char ∧ is_white c = false)
    as (c & tl & Hsep & Hc & Hcw).
  { subst sep. destruct rest; do 2 eexists; (split; [done|]); split; auto. }
  destruct (IHv Hv f (mkPI b s d) (ws ++ w1) (w2 ++ sep ++ post))
    as (e & [b1 s1 d1] & -> & S1 & R1 & L1 & Z1).
  { lia. }
  { rewrite Hrem. by rewrite <- !app_assoc. }
  { by apply Forall_app. }
  { rewrite Hsep. simpl. apply ends_number_ws; [done|]. by eapply sep_ends_number. }
  unfold rem in R1. cbn [pi_str pi_s pi_doc mbind res_bind] in *.
  set (pi1 := on_leaves _ (on_leaves _ (on_leaves _ _))).
  assert (pi_str pi1 = b1 ∧ pi_s pi1 = s1 ∧ size (pi_doc pi1) = size d1) as (Eb & Es & Ez) by done.
  destruct pi1 as [b1' s1' d1']. cbn [pi_str pi_s pi_doc] in *. subst b1' s1'.
  rewrite Hsep in R1. cbn [app] in R1.
  destruct (nnw_mk b1 s1 d1' w2 c (tl ++ post) R1 Hw2 Hcw) as (N & D & C).
  rewrite N. unfold cur. cbn [pi_str pi_s pi_doc advance set_buf]. rewrite C.
  rewrite length_app in S1.
  destruct rest as [|w1' v' w2' rest'].
  - (* the last element *)
    subst sep. injection Hsep as <- <-.
    change (Ascii.eqb "]" ",") with false. change (Ascii.eqb "]" "]") with true. cbn [negb].
    eexists. split; [done|].
    unfold scanned, rem, set_buf, advance. cbn [pi_str pi_s pi_doc tokens_elements].
    rewrite length_poke, !length_app, Ez, Z1, Nat.add_0_r. cbn [length].
    split_and!; try done; [lia|].
    rewrite drop_poke_lt by lia. rewrite Nat.add_1_r. by eapply drop_next.
  - (* a comma: once more *)
    subst sep. injection Hsep as <- <-.
    change (Ascii.eqb "," ",") with true.
    unfold set_buf, advance. cbn [pi_str pi_s pi_doc].
    destruct (IHr Hrest ltac:(done) fuel f
                (mkPI (poke b1 s1 NUL) (s1 + length w2 + 1) d1') [] post a (int (cnt + 1)))
      as (pi' & -> & S2 & R2 & L2 & Z2).
    { cbn [tokens_elements] in *. lia. }
    { cbn [tokens_elements] in *. lia. }
    { unfold rem. cbn [pi_str pi_s app]. rewrite drop_poke_lt by lia.
      rewrite Nat.add_1_r. by eapply drop_next. }
    { constructor. }
    eexists. split; [done|].
    unfold scanned. cbn [pi_str pi_s pi_doc] in *.
    rewrite S2, R2, L2, Z2, length_poke, Ez, Z1, !length_app, <- bump_add.
    cbn [length]. split_and!; try done. lia.
Qed.

Lemma scans_mcons k1 k k2 w1 v w2 rest :
  scans_value v → scans_members rest → scans_members (MCons k1 k k2 w1 v w2 rest).
Proof.
  intros IHv IHr (Hk1 & Hk & Hk2 & Hw1 & Hv & Hw2 & Hrest) _ fuel f [b s d] ws post h
    Hfuel Hf Hrem Hws.
  cbn [tokens_members] in Hfuel, Hf. pose proof (tokens_pos v) as Hpos.
  destruct fuel as [|fuel]; [lia|].
  cbn [read_obj_loop].
  cbn [render_members] in Hrem |- *.
  set (sep := match rest with MNil => ["}"%char] | _ => ","%char :: render_members rest end) in *.
  assert (∃ c tl, sep = c :: tl ∧ (c = "]" ∨ c = "," ∨ c = "}")%char ∧ is_white c = false)
    as (c & tl & Hsep & Hc & Hcw).
  { subst sep. destruct rest; do 2 eexists; (split; [done|]); split; auto. }
  unfold rem in Hrem. cbn [pi_str pi_s] in Hrem.
  (* the key *)
  destruct (nnw_mk b s d (ws ++ k1) DQUOTE
              ((render_body k ++ [DQUOTE]) ++ k2 ++ ":"%char :: w1 ++ render v ++ w2 ++ sep ++ post))
    as (N & D & C).
  { rewrite Hrem. unfold render_string. list_norm. }
  { by apply Forall_app. }
  { done. }
  rewrite N. unfold cur at 1. cbn [pi_str pi_s]. rewrite C, eqb_refl'. cbn [negb].
  destruct (read_quoted_value_scans (mkPI b (s + length (ws ++ k1)) d) k
              (k2 ++ ":"%char :: w1 ++ render v ++ w2 ++ sep ++ post) Hk D)
    as ([b1 s1 d1] & -> & (S1 & R1 & L1 & Z1) & E1).
  unfold rem in R1. cbn [pi_str pi_s pi_doc mbind res_bind] in *. subst d1.
  (* the colon *)
  destruct (nnw_mk b1 s1 d k2 ":"%char (w1 ++ render v ++ w2 ++ sep ++ post) R1 Hk2 eq_refl)
    as (N1 & D1 & C1).
  rewrite N1. unfold cur at 1. cbn [pi_str pi_s]. rewrite C1, eqb_refl'. cbn [negb].
  (* the value *)
  unfold advance. cbn [pi_str pi_s pi_doc].
  destruct (IHv Hv f (mkPI b1 (s1 + length k2 + 1) d) w1 (w2 ++ sep ++ post))
    as (e & [b2 s2 d2] & -> & S2 & R2 & L2 & Z2).
  { lia. }
  { unfold rem. cbn [pi_str pi_s]. rewrite Nat.add_1_r. by eapply drop_next. }
  { done. }
  { rewrite Hsep. simpl. apply ends_number_ws; [done|]. by eapply sep_ends_number. }
  unfold rem in R2. cbn [pi_str pi_s pi_doc mbind res_bind] in *.
  set (pi2 := on_leaves _ (on_leaves _ (on_leaves _ _))).
  assert (pi_str pi2 = b2 ∧ pi_s pi2 = s2 ∧ size (pi_doc pi2) = size d2) as (Eb & Es & Ez) by done.
  destruct pi2 as [b2' s2' d2']. cbn [pi_str pi_s pi_doc] in *. subst b2' s2'.
  rewrite Hsep in R2. cbn [app] in R2.
  destruct (nnw_mk b2 s2 d2' w2 c (tl ++ post) R2 Hw2 Hcw) as (N2 & D2 & C2).
  rewrite N2. unfold cur. cbn [pi_str pi_s pi_doc]. rewrite C2.
  unfold render_string in *. rewrite !length_app in *. cbn [length] in *.
  rewrite !length_app in *. cbn [length] in *.
  destruct rest as [|k1' k' k2' w1' v' w2' rest'].
  - (* the last member *)
    subst sep. injection Hsep as <- <-.
    change (Ascii.eqb "}" "}") with true.
    eexists. split; [done|].
    unfold scanned, rem, set_buf, advance. cbn [pi_str pi_s pi_doc tokens_members].
    rewrite length_poke, Ez, Z2, Z1, Nat.add_0_r. cbn [length bump Nat.iter].
    split_and!; try done; [lia| |lia].
    rewrite drop_poke_lt by lia. rewrite Nat.add_1_r. by eapply drop_next.
  - (* a comma: once more *)
    subst sep. injection Hsep as <- <-.
    change (Ascii.eqb "," "}") with false. change (Ascii.eqb "," ",") with true.
    unfold set_buf, advance. cbn [pi_str pi_s pi_doc].
    destruct (IHr Hrest ltac:(done) fuel f
                (mkPI (poke b2 s2 NUL) (s2 + length w2 + 1) d2') [] post h)
      as (pi' & -> & S3 & R3 & L3 & Z3).
    { cbn [tokens_members] in *. lia. }
    { cbn [tokens_members] in *. lia. }
    { unfold rem. cbn [pi_str pi_s app]. rewrite drop_poke_lt by lia.
      rewrite Nat.add_1_r. by eapply drop_next. }
    { constructor. }
    eexists. split; [done|].
    unfold scanned. cbn [pi_str pi_s pi_doc] in *.
    rewrite S3, R3, L3, Z3, length_poke, Ez, Z2, Z1, <- bump_add.
    cbn [length bump Nat.iter]. split_and!; try done; lia.
Qed.

Lemma read_next_array f pi :
  cur (next_non_white pi) = "["%char →
  read_next (S f) pi =
    '(leaf, pi') ← read_array (read_next f) f (next_non_white pi);
    Ok (leaf, set_doc (set_size (ulong (size (pi_doc pi') + 1)) (pi_doc pi')) pi').
Proof. intros H. cbn [read_next]. by rewrite H. Qed.

Lemma read_next_obj f pi :
  cur (next_non_white pi) = "{"%char →
  read_next (S f) pi =
    '(leaf, pi') ← read_obj (read_next f) f (next_non_white pi);
    Ok (leaf, set_doc (set_size (ulong (size (pi_doc pi') + 1)) (pi_doc pi')) pi').
Proof. intros H. cbn [read_next]. by rewrite H. Qed.

Lemma scans_arr ws' es : scans_elements es → scans_value (JArr ws' es).
Proof.
  intros IH (Hws' & Hes) fuel [b s d] ws post Hf Hrem Hw Hp.
  cbn [tokens render] in *. destruct fuel as [|f]; [lia|].
  unfold rem in Hrem. cbn [pi_str pi_s app] in Hrem.
  destruct (nnw_mk b s d ws "["%char ((ws' ++ render_elements es) ++ post) Hrem Hw eq_refl)
    as (N & D & C).
  rewrite read_next_array by (by rewrite N).
  rewrite N. unfold read_array. cbn [leaf_new pi_doc].
  set (d' := set_leaves (leaves d ++ _) d).
  unfold advance, set_doc. cbn [pi_str pi_s pi_doc].
  assert (drop (s + length ws + 1) b = ws' ++ render_elements es ++ post) as D1.
  { rewrite Nat.add_1_r. rewrite <- app_assoc in D. by eapply drop_next. }
  destruct es as [|w1 v w2 rest].
  - (* [] *)
    cbn [render_elements app] in D1.
    destruct (nnw_mk b (s + length ws + 1) d' ws' "]"%char post D1 Hws' eq_refl) as (N1 & D2 & C1).
    rewrite N1. unfold cur. cbn [pi_str pi_s]. rewrite C1, eqb_refl'.
    cbn [mbind res_bind]. do 2 eexists. split; [done|].
    unfold scanned, rem. cbn [pi_str pi_s pi_doc length tokens_elements render_elements].
    rewrite !length_app. cbn [length]. split_and!; try done; [lia|].
    rewrite Nat.add_1_r. by eapply drop_next.
  - (* at least one element *)
    destruct Hes as (Hw1 & Hv & Hw2 & Hrest).
    destruct (render_head v Hv) as (c & tl & Hr & Hs).
    destruct (starts_value_head c Hs) as (Hcw & Hc1 & _).
    set (sep := match rest with ENil => ["]"%char] | _ => ","%char :: render_elements rest end).
    set (pi0 := mkPI b (s + length ws + 1) d') in *.
    assert (cur (next_non_white pi0) = c) as C1.
    { destruct (nnw_mk b (s + length ws + 1) d' (ws' ++ w1) c (tl ++ w2 ++ sep ++ post))
        as (N1 & _ & C1).
      - rewrite D1. cbn [render_elements]. fold sep. rewrite Hr. list_norm.
      - by apply Forall_app.
      - done.
      - subst pi0. rewrite N1. exact C1. }
    rewrite C1. apply Ascii.eqb_neq in Hc1 as ->.
    rewrite read_array_loop_nnw.
    destruct (IH ltac:(cbn; done) ltac:(done) f f pi0 ws' post (length (leaves d)) 0)
      as ([b1 s1 d1] & -> & S1 & R1 & L1 & Z1); [lia|lia|done|done|].
    cbn [mbind res_bind]. do 2 eexists. split; [done|].
    unfold scanned, rem in *. subst pi0. cbn [pi_str pi_s pi_doc] in *.
    subst s1. rewrite L1, Z1. cbn [length]. rewrite !length_app.
    split_and!; try done; lia.
Qed.

Lemma scans_obj ws' ms : scans_members ms → scans_value (JObj ws' ms).
Proof.
  intros IH (Hws' & Hms) fuel [b s d] ws post Hf Hrem Hw Hp.
  cbn [tokens render] in *. destruct fuel as [|f]; [lia|].
  unfold rem in Hrem. cbn [pi_str pi_s app] in Hrem.
  destruct (nnw_mk b s d ws "{"%char ((ws' ++ render_members ms) ++ post) Hrem Hw eq_refl)
    as (N & D & C).
  rewrite read_next_obj by (by rewrite N).
  rewrite N. unfold read_obj. cbn [leaf_new pi_doc].
  set (d' := set_leaves (leaves d ++ _) d).
  unfold advance, set_doc. cbn [pi_str pi_s pi_doc].
  assert (drop (s + length ws + 1) b = ws' ++ render_members ms ++ post) as D1.
  { rewrite Nat.add_1_r. rewrite <- app_assoc in D. by eapply drop_next. }
  destruct ms as [|k1 k k2 w1 v w2 rest].
  - (* {} *)
    cbn [render_members app] in D1.
    destruct (nnw_mk b (s + length ws + 1) d' ws' "}"%char post D1 Hws' eq_refl) as (N1 & D2 & C1).
    rewrite N1. unfold cur. cbn [pi_str pi_s]. rewrite C1, eqb_refl'.
    cbn [mbind res_bind]. do 2 eexists. split; [done|].
    unfold scanned, rem. cbn [pi_str pi_s pi_doc length tokens_members render_members].
    rewrite !length_app. cbn [length]. split_and!; try done; [lia|].
    rewrite Nat.add_1_r. by eapply drop_next.
  - (* at least one member *)
    destruct Hms as (Hk1 & Hk & Hk2 & Hw1 & Hv & Hw2 & Hrest).
    set (pi0 := mkPI b (s + length ws + 1) d') in *.
    assert (cur (next_non_white pi0) = DQUOTE) as C1.
    { destruct (nnw_mk b (s + length ws + 1) d' (ws' ++ k1) DQUOTE
                  ((render_body k ++ [DQUOTE]) ++ k2 ++ ":"%char :: w1 ++ render v ++ w2 ++
                   match rest with MNil => ["}"%char] | _ => ","%char :: render_members rest end ++ post))
        as (N1 & _ & C1).
      - rewrite D1. cbn [render_members]. unfold render_string. list_norm.
      - by apply Forall_app.
      - done.
      - subst pi0. rewrite N1. exact C1. }
    rewrite C1. change (Ascii.eqb DQUOTE "}") with false.
    rewrite read_obj_loop_nnw.
    destruct (IH ltac:(cbn; done) ltac:(done) f f pi0 ws' post (length (leaves d)))
      as ([b1 s1 d1] & -> & S1 & R1 & L1 & Z1); [lia|lia|done|done|].
    cbn [mbind res_bind]. do 2 eexists. split; [done|].
    unfold scanned, rem in *. subst pi0. cbn [pi_str pi_s pi_doc] in *.
    subst s1. rewrite L1, Z1. cbn [length]. rewrite !length_app.
    split_and!; try done; lia.
Qed.

Lemma scans_all :
  (∀ v, scans_value v) ∧ (∀ es, scans_elements es) ∧ (∀ ms, scans_members ms).
Proof.
  apply json_mutind.
  - apply (scans_word JNull T_NIL ["u"; "l"; "l"]%char "invalid format, expected 'nil'" "n"%char); try done.
    intros f pi H. cbn [read_next]. by rewrite H.
  - apply (scans_word JTrue T_TRUE ["r"; "u"; "e"]%char "invalid format, expected 'true'" "t"%char); try done.
    intros f pi H. cbn [read_next]. by rewrite H.
  - apply (scans_word JFalse T_FALSE ["a"; "l"; "s"; "e"]%char "invalid format, expected 'false'" "f"%char); try done.
    intros f pi H. cbn [read_next]. by rewrite H.
  - apply scans_num.
  - apply scans_str.
  - intros. by apply scans_arr.
  - intros. by apply scans_obj.
  - by intros _ ?.
  - intros. by apply scans_econs.
  - by intros _ ?.
  - intros. by apply scans_mcons.
Qed.

Lemma length_render_tokens :
  (∀ v, valid v → tokens v ≤ length (render v))%nat ∧
  (∀ es, valid_elements es → tokens_elements es ≤ length (render_elements es))%nat ∧
  (∀ ms, valid_members ms → tokens_members ms ≤ length (render_members ms))%nat.
Proof.
  apply json_mutind; cbn [tokens tokens_elements tokens_members render
    render_elements render_members length valid valid_elements valid_members];
    intros; rewrite ?length_app; cbn [length]; try lia.
  - destruct (render_head (JNum n)) as (c & tl & Hr & _); [done|].
    cbn [render] in Hr. rewrite Hr. simpl. lia.
  - unfold render_string. simpl. lia.
  - destruct_and!. specialize (H ltac:(done)). lia.
  - destruct_and!. specialize (H ltac:(done)). lia.
  - destruct_and!. specialize (H ltac:(done)). specialize (H0 ltac:(done)).
    rewrite ?length_app. destruct rest; cbn [length tokens_elements tokens_members] in *; lia.
  - destruct_and!. specialize (H ltac:(done)). specialize (H0 ltac:(done)).
    rewrite ?length_app. cbn [length]. rewrite ?length_app.
    destruct rest; cbn [length tokens_elements tokens_members] in *; lia.
Qed.

Lemma bump_small k : Z.of_nat k < 2 ^ 64 → bump k 0 = Z.of_nat k.
Proof.
  intros Hk. destruct k as [|k]; [done|].
  rewrite bump_ulong. unfold ulong. rewrite Z.mod_small; lia.
Qed.

(** C3: for every valid JSON text (a value of the grammar with white
    space around it) [size] is the number of tokens of the value, every
    scalar and every container counted once; it is 4 for [[1,2,3]] and 7
    for [[1,[2,3],{"a":4}]]. *)
Theorem C3_size_counts_tokens v ws1 ws2 :
  valid v → ws_ok ws1 → ws_ok ws2 →
  Z.of_nat (length (ws1 ++ render v ++ ws2)) < 2 ^ 64 →
  doc_size <$> (pi_doc <$> doc_open (ws1 ++ render v ++ ws2)) = Ok (Z.of_nat (tokens v))
  ∧ doc_size <$> (pi_doc <$> doc_open (dq "[1,2,3]")) = Ok 4
  ∧ doc_size <$> (pi_doc <$> doc_open (dq "[1,[2,3],{'a':4}]")) = Ok 7.
Proof.
  intros Hv Hw1 Hw2 Hlen. split; [|by vm_compute].
  unfold doc_open, parse_json.
  pose proof (proj1 length_render_tokens v Hv) as Ht.
  destruct (proj1 scans_all v Hv (S (length (ws1 ++ render v ++ ws2)))
              (mkPI ((ws1 ++ render v ++ ws2) ++ [NUL]) 0 doc_init) ws1 (ws2 ++ [NUL]))
    as (a & [b s d] & -> & S1 & R1 & L1 & Z1).
  { rewrite !length_app. lia. }
  { unfold rem. cbn [pi_str pi_s drop]. list_norm. }
  { done. }
  { by apply ends_number_ws. }
  cbn [mbind res_bind fmap res_fmap pi_doc doc_size size set_where set_where_path
       set_data set_doc] in *.
  rewrite Z1. f_equal. apply bump_small. rewrite !length_app in Hlen. lia.
Qed.

Example render_nested_7 : render nested_7 = dq "[1,[2,3],{'a':4}]".
Proof. reflexivity. Qed.

Lemma C3_witness :
  doc_size <$> (pi_doc <$> doc_open ([] ++ render nested_7 ++ [" "%char]))
    = Ok (Z.of_nat (tokens nested_7))
  ∧ doc_size <$> (pi_doc <$> doc_open (dq "[1,2,3]")) = Ok 4
  ∧ doc_size <$> (pi_doc <$> doc_open (dq "[1,[2,3],{'a':4}]")) = Ok 7.
Proof.
  apply (C3_size_counts_tokens nested_7 [] [" "%char]).
  - cbn. repeat first [split | apply Forall_nil_2 | apply Forall_cons_2 | discriminate | reflexivity].
  - apply Forall_nil_2.
  - apply Forall_cons_2; [reflexivity|apply Forall_nil_2].
  - vm_compute. reflexivity.
Defined.

(** ** Materialisation: the cache of scalars, fresh collections *)

Lemma deep_weaken lo lo' H :
  (lo' ≤ lo)%nat →
  (∀ r v, deep lo H r v → deep lo' H r v) ∧
  (∀ rs items, deep_items lo H rs items → deep_items lo' H rs items) ∧
  (∀ es entries, deep_entries lo H es entries → deep_entries lo' H es entries).
Proof.
  intros Hlo. apply rvalue_mutind; cbn [deep deep_items deep_entries].
  - done.
  - done.
  - intros rs IH v (o & items & -> & Ho & Hl & Hd). exists o, items. split_and!; auto. lia.
  - intros es IH v (o & ents & -> & Ho & Hl & Hd). exists o, ents. split_and!; auto. lia.
  - by intros [].
  - intros r IHr rs IHrs [|v items]; [done|]. intros [? ?]. auto.
  - by intros [].
  - intros kb r IHr es IHes [|[k v] ents]; [done|]. intros (? & ? & ?). auto.
Qed.


Lemma rb_str_bytes_keeps lo H H' k kb :
  keeps lo H H' → rb_str_bytes H k = Some kb → rb_str_bytes H' k = Some kb.
Proof.
  intros Hk. destruct k as [| | | | |o]; try done. simpl.
  destruct (H !! o) as [[]|] eqn:E; try done. intros [= <-].
  by rewrite (Hk o _ E) by (by left).
Qed.

Lemma deep_keeps lo H H' :
  keeps lo H H' →
  (∀ r v, deep lo H r v → deep lo H' r v) ∧
  (∀ rs items, deep_items lo H rs items → deep_items lo H' rs items) ∧
  (∀ es entries, deep_entries lo H es entries → deep_entries lo H' es entries).
Proof.
  intros Hk. apply rvalue_mutind; cbn [deep deep_items deep_entries].
  - done.
  - intros x v (o & -> & Hl & Ha). exists o. split_and!; auto.
  - intros rs IH v (o & items & -> & Ho & Hl & Hd). exists o, items. split_and!; auto.
  - intros es IH v (o & ents & -> & Ho & Hl & Hd). exists o, ents. split_and!; auto.
  - by intros [].
  - intros r IHr rs IHrs [|v items]; [done|]. intros [? ?]. auto.
  - by intros [].
  - intros kb r IHr es IHes [|[k v] ents]; [done|]. intros (? & ? & ?).
    split_and!; auto. by eapply rb_str_bytes_keeps.
Qed.

Lemma keeps_refl lo H : keeps lo H H.
Proof. by intros o x. Qed.

Lemma keeps_trans lo H1 H2 H3 : keeps lo H1 H2 → keeps lo H2 H3 → keeps lo H1 H3.
Proof. intros A B o x Hx Hc. eapply B; [|done]. by eapply A. Qed.

Lemma ext_but_keeps_none lo H H' : ext_but None H H' → keeps lo H H'.
Proof. intros [_ He] o x Hx _. by apply He. Qed.

Lemma ext_but_refl oa H : ext_but oa H H.
Proof. split; [done|]. by intros. Qed.

Lemma ext_but_trans oa H1 H2 H3 : ext_but oa H1 H2 → ext_but oa H2 H3 → ext_but oa H1 H3.
Proof.
  intros [A1 A2] [B1 B2]. split; [lia|]. intros o x Ho Hx. apply B2; [done|]. by apply A2.
Qed.

Lemma ext_but_none oa H H' : ext_but None H H' → ext_but oa H H'.
Proof. intros [A1 A2]. split; [done|]. intros o x _ Hx. by apply A2. Qed.

Lemma ext_but_alloc H x : ext_but None H (H ++ [x]).
Proof.
  split; [rewrite length_app; simpl; lia|].
  intros o y _ Hy. by apply lookup_app_l_Some.
Qed.

(** An update of the container [oa] keeps everything else. *)
Lemma keeps_update lo H oa x y :
  H !! oa = Some x → ¬ is_atom x → (oa < lo)%nat → keeps lo H (<[oa := y]> H).
Proof.
  intros Hx Hn Hlt o z Hz Hc. destruct (decide (o = oa)) as [->|].
  - rewrite Hx in Hz. injection Hz as <-. destruct Hc; [done|lia].
  - by rewrite list_lookup_insert_ne.
Qed.

Lemma ext_but_update H oa y : ext_but (Some oa) H (<[oa := y]> H).
Proof.
  split; [by rewrite length_insert|]. intros o x Ho Hx.
  rewrite list_lookup_insert_ne; [done|]. congruence.
Qed.

Lemma ext_but_keeps oa lo H H' x :
  ext_but (Some oa) H H' → H !! oa = Some x → ¬ is_atom x → (oa < lo)%nat → keeps lo H H'.
Proof.
  intros [_ He] Hx Hn Hlt o z Hz Hc. apply He; [|done].
  intros [= ->]. rewrite Hx in Hz. injection Hz as <-. destruct Hc; [done|lia].
Qed.

Lemma same_skel_refl l : same_skel l l.
Proof. by repeat split. Qed.

Lemma same_skel_trans l1 l2 l3 : same_skel l1 l2 → same_skel l2 l3 → same_skel l1 l3.
Proof.
  intros (A1 & A2 & A3 & A4 & A5 & A6 & A7 & A8) (B1 & B2 & B3 & B4 & B5 & B6 & B7 & B8).
  repeat split; try congruence; tauto.
Qed.

Lemma skel_eq_refl L : skel_eq L L.
Proof. split; [done|]. intros a l Hl. exists l. split; [done|apply same_skel_refl]. Qed.

Lemma skel_eq_trans L1 L2 L3 : skel_eq L1 L2 → skel_eq L2 L3 → skel_eq L1 L3.
Proof.
  intros [A1 A2] [B1 B2]. split; [congruence|]. intros a l Hl.
  destruct (A2 a l Hl) as (l2 & Hl2 & S2). destruct (B2 a l2 Hl2) as (l3 & Hl3 & S3).
  exists l3. split; [done|]. by eapply same_skel_trans.
Qed.

Lemma cache_kept_refl L : cache_kept L L.
Proof. by intros a l. Qed.

Lemma cache_kept_trans L1 L2 L3 : cache_kept L1 L2 → cache_kept L2 L3 → cache_kept L1 L3.
Proof. intros A B a l Hl Hv. apply B; [|done]. by apply A. Qed.

Lemma heap_ok_keeps lo H H' L : keeps lo H H' → heap_ok H L → heap_ok H' L.
Proof.
  intros Hk Hh a l Hl Hv o Ho. destruct (Hh a l Hl Hv o Ho) as (x & Hx & Ha).
  exists x. split; [|done]. apply (Hk o x Hx). by left.
Qed.

Lemma shape_skel L L' :
  skel_eq L L' → cache_kept L L' →
  (∀ t, shape L t → shape L' t) ∧ (∀ ks first, ring L first ks → ring L' first ks).
Proof.
  intros [_ Hs] Hc. apply tree_mutind.
  - intros a ks IH (l & Hl & Ht & Hcol & Hlit & Hk). cbn [shape].
    destruct (Hs a l Hl) as (l' & Hl' & (S1 & S2 & S3 & S4 & S5 & S6 & S7 & S8)).
    exists l'. split; [done|]. rewrite <- S6, <- S5. split_and!; try done; [tauto| |].
    + intros Hx. specialize (Hlit Hx). rewrite (Hc a l Hl Hlit) in Hl'. by injection Hl' as <-.
    + destruct ks as [|k rest]; [tauto|]. destruct Hk as (? & ? & ?). split_and!; auto. tauto.
  - done.
  - intros k IHk rest IHrest first (Hk & (lk & Hlk & Hn) & Hr). cbn [ring].
    split_and!; [by apply IHk| |by apply IHrest].
    destruct (Hs _ lk Hlk) as (l' & Hl' & (S1 & _)).
    exists l'. split; [done|]. by rewrite <- S1.
Qed.

Lemma cached_skel L L' :
  skel_eq L L' → cache_kept L L' →
  (∀ t, cached L t → cached L' t) ∧ (∀ ks, cached_forest L ks → cached_forest L' ks).
Proof.
  intros [_ Hs] Hc. apply tree_mutind; cbn [cached cached_forest].
  - intros a ks IH [(l & Hl & Hv) Hk]. split; [|auto].
    destruct Hv as [Hv|Hv].
    + destruct (Hs a l Hl) as (l' & Hl' & (_ & _ & _ & _ & _ & _ & _ & S8)).
      exists l'. split; [done|]. left. tauto.
    + exists l. split; [by apply Hc|]. by right.
  - done.
  - intros k IHk rest IHrest [? ?]. auto.
Qed.

Lemma content_of_keeps lo H H' v :
  keeps lo H H' → atom_ok H v → content_of H' v = content_of H v.
Proof.
  intros Hk Ha. destruct v as [| | | | |o]; try done. simpl.
  destruct (Ha o eq_refl) as (x & Hx & Hat). rewrite Hx.
  by rewrite (Hk o x Hx) by (by left).
Qed.

Lemma lookup_total_eq (L : list Leaf) a l : L !! a = Some l → L !!! a = l.
Proof. apply list_lookup_total_correct. Qed.

Section Values.
Variable json : list ascii.

Lemma absval_kept lo H H' L L' :
  keeps lo H H' → heap_ok H L → skel_eq L L' → cache_kept L L' →
  (∀ t, shape L t → cached L t → absval json H' L' t = absval json H L t) ∧
  (∀ ks, (∀ first, ring L first ks → cached_forest L ks →
            absvals json H' L' ks = absvals json H L ks) ∧
         (∀ first acc, ring L first ks → cached_forest L ks →
            absentries json H' L' ks acc = absentries json H L ks acc)).
Proof.
  intros Hk Hh [_ Hs] Hc. apply tree_mutind.
  - intros a ks [IH1 IH2] (l & Hl & Ht & Hcol & Hlit & Hks) [(l0 & Hl0 & Hv) Hck].
    rewrite Hl in Hl0. injection Hl0 as <-.
    destruct (Hs a l Hl) as (l' & Hl' & (S1 & S2 & S3 & S4 & S5 & S6 & S7 & S8)).
    cbn [absval]. rewrite (lookup_total_eq _ _ _ Hl), (lookup_total_eq _ _ _ Hl'), <- S6.
    destruct Hv as [Hv|Hv].
    + destruct Hcol as [Hcol _]. destruct (Hcol Hv) as [E|E]; rewrite E.
      * f_equal. destruct ks as [|k rest]; [done|]. destruct Hks as (_ & _ & Hr).
        by eapply IH1.
      * f_equal. destruct ks as [|k rest]; [done|]. destruct Hks as (_ & _ & Hr).
        by eapply IH2.
    + rewrite (Hc a l Hl Hv) in Hl'. injection Hl' as <-.
      assert (type l ≠ T_ARRAY ∧ type l ≠ T_HASH) as [N1 N2].
      { split; intros E; destruct Hcol as [_ Hcol]; rewrite Hcol in Hv; auto; done. }
      pose proof (content_of_keeps lo H H' (value l) Hk (Hh a l Hl Hv)) as Hcn.
      by destruct (type l).
  - done.
  - intros k IHk rest [IHr1 IHr2]. split.
    + intros first (Hsk & _ & Hr) [Hck Hcr]. cbn [absvals].
      rewrite IHk by done. f_equal. by eapply IHr1.
    + intros first acc (Hsk & (lk & Hlk & _) & Hr) [Hck Hcr]. cbn [absentries].
      rewrite IHk by done.
      destruct (Hs _ lk Hlk) as (l' & Hl' & (_ & S2 & _)).
      rewrite (lookup_total_eq _ _ _ Hlk), (lookup_total_eq _ _ _ Hl'), <- S2.
      by eapply IHr2.
Qed.
End Values.

Lemma atom_ok_alloc H x : is_atom x → atom_ok (H ++ [x]) (Ref (length H)).
Proof.
  intros Hx o [= <-]. exists x. split; [|done].
  rewrite lookup_app_r by lia. by rewrite Nat.sub_diag.
Qed.

Lemma atom_ok_imm H v : (∀ o, v ≠ Ref o) → atom_ok H v.
Proof. intros Hv o E. by destruct (Hv o). Qed.

Lemma rb_int_ok H z v H' :
  rb_int H z = (v, H') → ext_but None H H' ∧ atom_ok H' v.
Proof.
  unfold rb_int, rb_alloc. destruct (_ && _); intros [= <- <-].
  - split; [apply ext_but_refl|]. by apply atom_ok_imm.
  - split; [apply ext_but_alloc|]. by apply atom_ok_alloc.
Qed.

Lemma deep_content lo H v : atom_ok H v → deep lo H (content_of H v) v.
Proof.
  intros Ha. destruct v as [| | | | |o]; try (simpl; split; [done|by intros]).
  destruct (Ha o eq_refl) as (x & Hx & Hat). simpl. rewrite Hx. simpl. eauto.
Qed.

Section Materialise.
Variable json : list ascii.

Lemma fixnum_value_ok H l v H' :
  fixnum_value json H l = (v, H') → ext_but None H H' ∧ atom_ok H' v.
Proof.
  unfold fixnum_value.
  destruct (if Ascii.eqb _ _ then _ else _) as [neg s].
  destruct (fixnum_digits s 0 false) as [n big].
  destruct big; apply rb_int_ok.
Qed.

(** Caching a scalar keeps the skeleton. *)
Lemma cache_scalar H H' L a l v :
  L !! a = Some l → value_type l ≠ COL_VAL → value_type l ≠ RUBY_VAL →
  heap_ok H L → ext_but None H H' → atom_ok H' v →
  let L' := cache L (At a) v (Some RUBY_VAL) in
  skel_eq L L' ∧ cache_kept L L' ∧ heap_ok H' L' ∧
  ∃ l', L' !! a = Some l' ∧ value_type l' = RUBY_VAL ∧ value l' = v ∧ type l' = type l.
Proof.
  intros Hl Hc Hr Hh He Hv. cbn [cache].
  set (f := λ x, set_value_type RUBY_VAL (set_value v x)).
  assert (∀ L0 : list Leaf, alter (set_value_type RUBY_VAL) a (alter (set_value v) a L0) = alter f a L0) as ->.
  { intros. by rewrite list_alter_alter_eq. }
  split_and!.
  - split; [by rewrite length_alter|]. intros a' l' Hl'.
    destruct (decide (a' = a)) as [->|].
    + rewrite list_lookup_alter_eq, Hl. simpl. eexists. split; [done|].
      rewrite Hl in Hl'. injection Hl' as <-. by repeat split.
    + rewrite list_lookup_alter_ne by done. exists l'. split; [done|apply same_skel_refl].
  - intros a' l' Hl' Hv'. destruct (decide (a' = a)) as [->|].
    + rewrite Hl in Hl'. by injection Hl' as <-.
    + by rewrite list_lookup_alter_ne.
  - intros a' l' Hl' Hv'. destruct (decide (a' = a)) as [->|].
    + rewrite list_lookup_alter_eq, Hl in Hl'. injection Hl' as <-. done.
    + rewrite list_lookup_alter_ne in Hl' by done.
      eapply heap_ok_keeps; [by apply (ext_but_keeps_none 0)|done..].
  - exists (f l). by rewrite list_lookup_alter_eq, Hl.
Qed.

Lemma leaf_value_scalar fuel H L a l :
  L !! a = Some l → value_type l ≠ COL_VAL → type l ≠ T_NONE →
  type l ≠ T_ARRAY → type l ≠ T_HASH →
  (type l = T_NIL ∨ type l = T_TRUE ∨ type l = T_FALSE → value_type l = RUBY_VAL) →
  heap_ok H L →
  ∃ v H' L', leaf_value json (S fuel) H L (At a) = Ok (v, H', L') ∧
    ext_but None H H' ∧ skel_eq L L' ∧ cache_kept L L' ∧ heap_ok H' L' ∧
    atom_ok H' v ∧
    ∃ l', L' !! a = Some l' ∧ value_type l' = RUBY_VAL ∧ value l' = v ∧ type l' = type l.
Proof.
  intros Hl Hc Ht Ha Hh Hlit Hok. cbn [leaf_value deref]. rewrite Hl. cbn [mbind res_bind].
  destruct (decide (value_type l = RUBY_VAL)) as [Hv|Hv].
  - rewrite bool_decide_false by (by intros ?).
    exists (value l), H, L. split_and!; auto using ext_but_refl, skel_eq_refl, cache_kept_refl.
    + by eapply Hok.
    + by exists l.
  - rewrite bool_decide_true by done.
    destruct (type l) eqn:Et; try done; try (destruct Hv; apply Hlit; auto; fail).
    + (* Integer *)
      destruct (fixnum_value json H l) as [v H'] eqn:E.
      destruct (fixnum_value_ok _ _ _ _ E) as [He Hat].
      destruct (cache_scalar H H' L a l v Hl Hc Hv Hok He Hat) as (? & ? & ? & l' & ? & ? & ? & ?).
      exists v, H', (cache L (At a) v (Some RUBY_VAL)). split_and!; try done.
      exists l'. split_and!; try done. congruence.
    + (* Float *)
      unfold rb_alloc.
      destruct (cache_scalar H (H ++ [RFloat (cstr_at json (str l))]) L a l (Ref (length H))
                  Hl Hc Hv Hok) as (? & ? & ? & l' & ? & ? & ? & ?);
        [apply ext_but_alloc|by apply atom_ok_alloc|].
      do 3 eexists. split; [done|]. split_and!; try done; [apply ext_but_alloc|by apply atom_ok_alloc|].
      exists l'. split_and!; try done. congruence.
    + (* String *)
      unfold rb_alloc.
      destruct (cache_scalar H (H ++ [RString (cstr_at json (str l))]) L a l (Ref (length H))
                  Hl Hc Hv Hok) as (? & ? & ? & l' & ? & ? & ? & ?);
        [apply ext_but_alloc|by apply atom_ok_alloc|].
      do 3 eexists. split; [done|]. split_and!; try done; [apply ext_but_alloc|by apply atom_ok_alloc|].
      exists l'. split_and!; try done. congruence.
Qed.
End Materialise.

Lemma deep_items_snoc lo H rs items r v :
  deep_items lo H rs items → deep lo H r v →
  deep_items lo H (rvalues_cat rs (RCons r RNil)) (items ++ [v]).
Proof.
  revert items. induction rs as [|r' rs IH]; intros [|v' items]; simpl; try done.
  intros [? ?] ?. split; [done|]. by apply IH.
Qed.

Lemma rvalues_cat_snoc a r b :
  rvalues_cat (rvalues_cat a (RCons r RNil)) b = rvalues_cat a (RCons r b).
Proof. induction a as [|r' a IH]; simpl; [done|]. by rewrite IH. Qed.

Lemma hash_store_deep lo H es entries k kb r v :
  deep_entries lo H es entries → rb_str_bytes H k = Some kb → deep lo H r v →
  deep_entries lo H (rentries_store es kb r) (hash_store H entries k v).
Proof.
  intros Hd Hk Hr. revert entries Hd.
  induction es as [|kb' r' es IH]; intros [|[k' v'] entries]; simpl; try done.
  intros (Hk' & Hv' & Hd). rewrite Hk', Hk.
  destruct (decide (kb' = kb)) as [->|Hne].
  - rewrite bool_decide_true by done. simpl. auto.
  - rewrite bool_decide_false by congruence. simpl. split_and!; auto.
Qed.

Lemma ring_last L first k rest :
  ring L first (FCons k rest) →
  ∃ ll, L !! last_addr (addr k) rest = Some ll ∧ next ll = At first.
Proof.
  revert k. induction rest as [|k' rest IH].
  - intros k (_ & (lk & Hlk & Hn) & _). simpl. eauto.
  - intros k (_ & _ & Hr). simpl. by apply IH.
Qed.

Lemma ext_but_fresh oa H H0 H' :
  ext_but None H H0 → ext_but (Some oa) H0 H' → (length H ≤ oa)%nat →
  ext_but None H H'.
Proof.
  intros [A1 A2] [B1 B2] Hoa. split; [lia|]. intros o x _ Hx.
  apply B2; [|by apply A2]. intros [= ->].
  apply lookup_lt_Some in Hx. lia.
Qed.

Lemma fetched_trans oa H1 L1 H2 L2 H3 L3 :
  fetched oa H1 L1 H2 L2 → fetched oa H2 L2 H3 L3 → fetched oa H1 L1 H3 L3.
Proof.
  intros (A1 & A2 & A3 & A4) (B1 & B2 & B3 & B4). split_and!; try done.
  - by eapply ext_but_trans.
  - by eapply skel_eq_trans.
  - by eapply cache_kept_trans.
Qed.

Section MaterialiseProof.
Variable json : list ascii.

Lemma array_loop_cons k rest :
  materialises json k → materialises_array json rest →
  materialises_array json (FCons k rest).
Proof.
  intros IHk IHr fuel H L first oa items rs0 Hf _ (Hsk & (lk & Hlk & Hn) & Hr) Hok Hoa Hd.
  cbn [weight_forest] in Hf. destruct fuel as [|f]; [lia|].
  cbn [leaf_array_loop head_addr].
  destruct (IHk f H L) as (v & H1 & L1 & -> & (E1 & S1 & C1 & Ok1) & Cd1 & Dp1 & _);
    [lia|done|done|].
  cbn [mbind res_bind].
  pose proof (lookup_lt_Some _ _ _ Hoa) as Hlt.
  assert (H1 !! oa = Some (RArray items)) as Hoa1 by (by apply E1).
  pose proof (lookup_lt_Some _ _ _ Hoa1) as Hlt1.
  unfold rb_ary_push. rewrite Hoa1. cbn [mbind res_bind].
  set (H2 := <[oa := RArray (items ++ [v])]> H1).
  destruct (proj2 S1 _ lk Hlk) as (lk1 & Hlk1 & (N1 & _)).
  cbn [deref]. rewrite Hlk1. cbn [mbind res_bind].
  assert (keeps (S oa) H1 H2) as K12 by (eapply keeps_update; [done|by intros []|lia]).
  assert (keeps (S oa) H H1) as K01 by (by apply ext_but_keeps_none).
  assert (heap_ok H2 L1) as Ok2 by (by eapply heap_ok_keeps).
  assert (shape L1 k) as Hsk1 by (by eapply (shape_skel L L1)).
  assert (absval json H2 L1 k = absval json H1 L1 k) as Ea.
  { by eapply (absval_kept json (S oa) H1 H2 L1 L1);
      auto using skel_eq_refl, cache_kept_refl. }
  assert (deep (S oa) H2 (absval json H2 L1 k) v) as Dv.
  { rewrite Ea. eapply deep_keeps; [done|]. eapply deep_weaken; [|done]. lia. }
  assert (deep_items (S oa) H2 (rvalues_cat rs0 (RCons (absval json H2 L1 k) RNil))
            (items ++ [v])) as Di.
  { apply deep_items_snoc; [|done].
    eapply deep_keeps; [|done]. by eapply keeps_trans. }
  assert (H2 !! oa = Some (RArray (items ++ [v]))) as Hoa2
    by (by apply list_lookup_insert_eq).
  assert (fetched (Some oa) H L H2 L1) as F2.
  { split_and!; try done.
    eapply ext_but_trans; [by apply ext_but_none|apply ext_but_update]. }
  rewrite <- N1.
  destruct rest as [|k' rest'].
  - rewrite Hn. rewrite decide_True by done.
    exists H2, L1, (items ++ [v]). split_and!; try done.
  - destruct Hn as [Hn Hne]. rewrite Hn. rewrite decide_False by congruence.
    destruct (IHr f H2 L1 first oa (items ++ [v])
                (rvalues_cat rs0 (RCons (absval json H2 L1 k) RNil)))
      as (H' & L' & items' & Eq & F' & Cd' & Hoa' & Dp'); try done.
    { lia. }
    { by eapply (shape_skel L L1). }
    cbn [head_addr] in Eq.
    exists H', L', items'. split; [exact Eq|].
    destruct F' as (E' & S' & C' & Ok').
    split_and!; try done.
    + eapply fetched_trans; [done|]. by split_and!.
    + split; [|done]. by eapply (cached_skel L1 L').
    + cbn [absvals]. rewrite rvalues_cat_snoc in Dp'.
      assert (absval json H' L' k = absval json H2 L1 k) as ->; [|done].
      eapply (absval_kept json (S oa) H2 H' L1 L'); try done.
      eapply ext_but_keeps; [done|done|by intros []|lia].
Qed.

Lemma hash_loop_cons k rest :
  materialises json k → materialises_hash json rest →
  materialises_hash json (FCons k rest).
Proof.
  intros IHk IHr fuel H L first oh entries es0 Hf _ (Hsk & (lk & Hlk & Hn) & Hr) Hok Hoh Hd.
  cbn [weight_forest] in Hf. destruct fuel as [|f]; [lia|].
  cbn [leaf_hash_loop head_addr deref]. rewrite Hlk. cbn [mbind res_bind rb_alloc].
  set (kb := cstr_at json (key lk)).
  set (H0 := H ++ [RString kb]).
  pose proof (lookup_lt_Some _ _ _ Hoh) as Hlt.
  assert (keeps (S oh) H H0) as K00 by (apply ext_but_keeps_none, ext_but_alloc).
  assert (heap_ok H0 L) as Ok0 by (by eapply heap_ok_keeps).
  destruct (IHk f H0 L) as (v & H1 & L1 & -> & (E1 & S1 & C1 & Ok1) & Cd1 & Dp1 & _);
    [lia|done|done|].
  cbn [mbind res_bind].
  assert (keeps (S oh) H0 H1) as K01 by (by apply ext_but_keeps_none).
  assert (H1 !! oh = Some (RHash entries)) as Hoh1.
  { apply E1; [done|]. apply (proj2 (ext_but_alloc H (RString kb))); done. }
  pose proof (lookup_lt_Some _ _ _ Hoh1) as Hlt1.
  unfold rb_hash_aset. rewrite Hoh1. cbn [mbind res_bind].
  set (H2 := <[oh := RHash (hash_store H1 entries (Ref (length H)) v)]> H1).
  destruct (proj2 S1 _ lk Hlk) as (lk1 & Hlk1 & (N1 & Ky1 & _)).
  rewrite Hlk1. cbn [mbind res_bind].
  assert (keeps (S oh) H1 H2) as K12 by (eapply keeps_update; [done|by intros []|lia]).
  assert (heap_ok H2 L1) as Ok2 by (by eapply heap_ok_keeps).
  assert (shape L1 k) as Hsk1 by (by eapply (shape_skel L L1)).
  assert (absval json H2 L1 k = absval json H1 L1 k) as Ea.
  { by eapply (absval_kept json (S oh) H1 H2 L1 L1);
      auto using skel_eq_refl, cache_kept_refl. }
  assert (rb_str_bytes H1 (Ref (length H)) = Some kb) as Hkb.
  { eapply rb_str_bytes_keeps; [exact K01|]. unfold rb_str_bytes, H0.
    rewrite lookup_app_r by lia. by rewrite Nat.sub_diag. }
  assert (deep_entries (S oh) H2 (rentries_store es0 kb (absval json H2 L1 k))
            (hash_store H1 entries (Ref (length H)) v)) as Di.
  { eapply deep_keeps; [exact K12|]. rewrite Ea. apply hash_store_deep; [|done|].
    - eapply deep_keeps; [|done]. by eapply keeps_trans.
    - eapply deep_weaken; [|done]. unfold H0. rewrite length_app. simpl. lia. }
  assert (H2 !! oh = Some (RHash (hash_store H1 entries (Ref (length H)) v))) as Hoh2
    by (by apply list_lookup_insert_eq).
  assert (fetched (Some oh) H L H2 L1) as F2.
  { split_and!; try done.
    eapply ext_but_trans; [apply ext_but_none, ext_but_alloc|].
    eapply ext_but_trans; [by apply ext_but_none|apply ext_but_update]. }
  rewrite <- N1.
  destruct rest as [|k' rest'].
  - rewrite Hn. rewrite decide_True by done.
    exists H2, L1, (hash_store H1 entries (Ref (length H)) v). split_and!; try done.
    cbn [absentries]. rewrite (lookup_total_eq _ _ _ Hlk1), <- Ky1. exact Di.
  - destruct Hn as [Hn Hne]. rewrite Hn. rewrite decide_False by congruence.
    destruct (IHr f H2 L1 first oh (hash_store H1 entries (Ref (length H)) v)
                (rentries_store es0 kb (absval json H2 L1 k)))
      as (H' & L' & entries' & Eq & F' & Cd' & Hoh' & Dp'); try done.
    { lia. }
    { by eapply (shape_skel L L1). }
    cbn [head_addr] in Eq.
    exists H', L', entries'. split; [exact Eq|].
    destruct F' as (E' & S' & C' & Ok').
    split_and!; try done.
    + eapply fetched_trans; [done|]. by split_and!.
    + split; [|done]. by eapply (cached_skel L1 L').
    + cbn [absentries].
      destruct (proj2 S' _ lk1 Hlk1) as (lk' & Hlk' & (_ & Ky' & _)).
      rewrite (lookup_total_eq _ _ _ Hlk'), <- Ky', <- Ky1.
      assert (absval json H' L' k = absval json H2 L1 k) as ->; [|done].
      eapply (absval_kept json (S oh) H2 H' L1 L'); try done.
      eapply ext_but_keeps; [done|done|by intros []|lia].
Qed.

Lemma leaf_value_node a ks :
  materialises_array json ks ∧ materialises_hash json ks →
  materialises json (Node a ks).
Proof.
  intros [IHa IHh] fuel H L Hf (l & Hl & Ht & Hcol & Hlit & Hk) Hok.
  cbn [weight] in Hf. destruct fuel as [|f]; [lia|]. cbn [addr].
  destruct (decide (value_type l = COL_VAL)) as [Hc|Hc].
  - assert (keeps 0 H (H ++ [RArray []])) as Ka by apply ext_but_keeps_none, ext_but_alloc.
    assert (keeps 0 H (H ++ [RHash []])) as Kh by apply ext_but_keeps_none, ext_but_alloc.
    cbn [leaf_value deref]. rewrite Hl. cbn [mbind res_bind].
    rewrite bool_decide_true by congruence.
    destruct (proj1 Hcol Hc) as [Ety|Ety]; rewrite Ety; cbn [rb_alloc].
    + destruct ks as [|k rest].
      * rewrite (Hk Hc). cbn [is_null negb].
        exists (Ref (length H)), (H ++ [RArray []]), L. split; [done|].
        split_and!.
        -- split_and!; auto using ext_but_alloc, skel_eq_refl, cache_kept_refl.
           by eapply heap_ok_keeps.
        -- split; [|done]. exists l. auto.
        -- cbn [absval]. rewrite (lookup_total_eq _ _ _ Hl), Ety. cbn [absvals deep].
           exists (length H), []. split_and!; try done.
           rewrite lookup_app_r by lia. by rewrite Nat.sub_diag.
        -- intros _ _ _. split; [done|]. rewrite length_app. simpl. lia.
      * destruct Hk as (_ & He & Hr). rewrite He. cbn [is_null negb].
        destruct (ring_last _ _ _ _ Hr) as (ll & Hll & Hn).
        cbn [deref]. rewrite Hll. cbn [mbind res_bind]. rewrite Hn.
        destruct (IHa f (H ++ [RArray []]) L (addr k) (length H) [] RNil)
          as (H' & L' & items' & Eq & (E' & S' & C' & Ok') & Cd' & Hoa' & Dp'); try done.
        { cbn [weight_forest] in *. lia. }
        { by eapply heap_ok_keeps. }
        { rewrite lookup_app_r by lia. by rewrite Nat.sub_diag. }
        cbn [head_addr] in Eq. rewrite Eq. cbn [mbind res_bind].
        exists (Ref (length H)), H', L'. split; [done|].
        destruct (proj2 S' _ l Hl) as (l' & Hl' & (_ & _ & _ & _ & _ & Ty' & _ & Vt')).
        split_and!.
        -- split_and!; try done. eapply ext_but_fresh; [apply ext_but_alloc|done|done].
        -- split; [|done]. exists l'. split; [done|]. left. tauto.
        -- cbn [absval]. rewrite (lookup_total_eq _ _ _ Hl'), <- Ty', Ety. cbn [deep].
           exists (length H), items'. split_and!; try done.
           eapply deep_weaken; [|exact Dp']. lia.
        -- intros _ _ _. split; [done|]. destruct E' as [E' _].
           rewrite length_app in E'. simpl in E'. lia.
    + destruct ks as [|k rest].
      * rewrite (Hk Hc). cbn [is_null negb].
        exists (Ref (length H)), (H ++ [RHash []]), L. split; [done|].
        split_and!.
        -- split_and!; auto using ext_but_alloc, skel_eq_refl, cache_kept_refl.
           by eapply heap_ok_keeps.
        -- split; [|done]. exists l. auto.
        -- cbn [absval]. rewrite (lookup_total_eq _ _ _ Hl), Ety. cbn [absentries deep].
           exists (length H), []. split_and!; try done.
           rewrite lookup_app_r by lia. by rewrite Nat.sub_diag.
        -- intros _ _ _. split; [done|]. rewrite length_app. simpl. lia.
      * destruct Hk as (_ & He & Hr). rewrite He. cbn [is_null negb].
        destruct (ring_last _ _ _ _ Hr) as (ll & Hll & Hn).
        cbn [deref]. rewrite Hll. cbn [mbind res_bind]. rewrite Hn.
        destruct (IHh f (H ++ [RHash []]) L (addr k) (length H) [] HNil)
          as (H' & L' & entries' & Eq & (E' & S' & C' & Ok') & Cd' & Hoa' & Dp'); try done.
        { cbn [weight_forest] in *. lia. }
        { by eapply heap_ok_keeps. }
        { rewrite lookup_app_r by lia. by rewrite Nat.sub_diag. }
        cbn [head_addr] in Eq. rewrite Eq. cbn [mbind res_bind].
        exists (Ref (length H)), H', L'. split; [done|].
        destruct (proj2 S' _ l Hl) as (l' & Hl' & (_ & _ & _ & _ & _ & Ty' & _ & Vt')).
        split_and!.
        -- split_and!; try done. eapply ext_but_fresh; [apply ext_but_alloc|done|done].
        -- split; [|done]. exists l'. split; [done|]. left. tauto.
        -- cbn [absval]. rewrite (lookup_total_eq _ _ _ Hl'), <- Ty', Ety. cbn [deep].
           exists (length H), entries'. split_and!; try done.
           eapply deep_weaken; [|exact Dp']. lia.
        -- intros _ _ _. split; [done|]. destruct E' as [E' _].
           rewrite length_app in E'. simpl in E'. lia.
  - destruct ks as [|k rest]; [|by destruct Hk as (? & _)].
    destruct (leaf_value_scalar json f H L a l) as
      (v & H' & L' & Eq & E' & S' & C' & Ok' & At' & l' & Hl' & Vt' & Vl' & Ty'); try done.
    { tauto. } { tauto. }
    exists v, H', L'. split; [exact Eq|]. split_and!; try done.
    + split; [|done]. exists l'. auto.
    + cbn [absval]. rewrite (lookup_total_eq _ _ _ Hl'), Ty', Vl'.
      assert (deep (length H) H' (content_of H' v) v) as HD by (by apply deep_content).
      destruct (type l); try done; tauto.
    + intros l0 Hl0 Hc0. congruence.
Qed.

(** [leaf_value] returns on every tree of the arena, with fuel the weight
    of the tree. *)
Lemma materialises_all :
  (∀ t, materialises json t) ∧
  (∀ ks, materialises_array json ks ∧ materialises_hash json ks).
Proof.
  apply tree_mutind.
  - intros a ks IH. by apply leaf_value_node.
  - split; by intros ????????.
  - intros k IHk rest [IHa IHh]. split.
    + by apply array_loop_cons.
    + by apply hash_loop_cons.
Qed.
End MaterialiseProof.

(** The navigator reads the skeleton only. *)
Lemma deref_skel L L' p :
  skel_eq L L' →
  match deref L p, deref L' p with
  | Ok l, Ok l' => same_skel l l'
  | Err e, Err e' => e = e'
  | _, _ => False
  end.
Proof.
  intros [Hlen Hs]. destruct p as [|a]; [done|]. cbn [deref].
  destruct (L !! a) as [l|] eqn:E.
  - destruct (Hs a l E) as (l' & -> & S'). done.
  - apply lookup_ge_None in E. rewrite Hlen in E. apply lookup_ge_None in E.
    by rewrite E.
Qed.

Section NavigatorSkel.
Variable json : list ascii.

Lemma nth_sibling_skel L L' fuel e first cnt :
  skel_eq L L' → nth_sibling fuel L e first cnt = nth_sibling fuel L' e first cnt.
Proof.
  intros HS. revert e cnt. induction fuel as [|f IH]; intros e cnt; [done|].
  cbn [nth_sibling]. destruct (1 >=? cnt); [done|].
  pose proof (deref_skel L L' e HS) as D.
  destruct (deref L e) as [l|], (deref L' e) as [l'|]; try done; [|by subst].
  cbn [mbind res_bind]. destruct D as (<- & _). destruct (decide _); [done|apply IH].
Qed.

Lemma find_key_skel L L' fuel e first path klen :
  skel_eq L L' →
  find_key json fuel L e first path klen = find_key json fuel L' e first path klen.
Proof.
  intros HS. revert e. induction fuel as [|f IH]; intros e; [done|].
  cbn [find_key].
  pose proof (deref_skel L L' e HS) as D.
  destruct (deref L e) as [l|], (deref L' e) as [l'|]; try done; [|by subst].
  cbn [mbind res_bind]. destruct D as (<- & Hk & _). unfold key_matches. rewrite <- Hk.
  destruct (_ && _); [done|]. destruct (decide _); [done|apply IH].
Qed.

Lemma get_leaf_skel L L' fuel stack lp path :
  skel_eq L L' → get_leaf json fuel L stack lp path = get_leaf json fuel L' stack lp path.
Proof.
  intros HS. revert stack lp path. induction fuel as [|f IH]; intros stack lp path; [done|].
  cbn [get_leaf]. destruct (slot stack lp) as [leaf|]; [|done]. cbn [mbind res_bind].
  destruct (Ascii.eqb (chr0 path) NUL); [done|].
  destruct (dotdot path); [destruct lp; [done|apply IH]|].
  pose proof (deref_skel L L' leaf HS) as D.
  destruct (deref L leaf) as [l|], (deref L' leaf) as [l'|]; try done; [|by subst].
  cbn [mbind res_bind]. destruct D as (_ & _ & _ & _ & <- & <- & _ & Hc).
  rewrite <- (bool_decide_ext _ _ Hc).
  destruct (_ && _); [|done].
  pose proof (deref_skel L L' (elements l) HS) as D.
  destruct (deref L (elements l)) as [ll|], (deref L' (elements l)) as [ll'|];
    try done; [|by subst].
  cbn [mbind res_bind]. destruct D as (<- & _).
  destruct (type l); try done.
  - destruct (read_index 0 path) as [cnt path'].
    rewrite (nth_sibling_skel L L') by done.
    destruct (nth_sibling _ _ _ _ _) as [[e|]|]; try done. cbn [mbind res_bind].
    destruct (store _ _ _); [apply IH|done].
  - destruct (key_step path) as [klen path'].
    rewrite (find_key_skel L L') by done.
    destruct (find_key _ _ _ _ _ _ _) as [[e|]|]; try done. cbn [mbind res_bind].
    destruct (store _ _ _); [apply IH|done].
Qed.

Lemma get_doc_leaf_skel fuel scratch d L' path :
  skel_eq (leaves d) L' →
  get_doc_leaf json fuel scratch (set_leaves L' d) path = get_doc_leaf json fuel scratch d path.
Proof.
  intros HS. unfold get_doc_leaf. destruct d as [dt w wp sz L]. cbn in *.
  destruct (slot wp w); [|done]. cbn [mbind res_bind].
  destruct path as [path|]; [|done]. destruct (negb _); [|done].
  destruct (Ascii.eqb _ _).
  - destruct (store _ _ _); [|done]. cbn [mbind res_bind]. symmetry. by apply get_leaf_skel.
  - symmetry. by apply get_leaf_skel.
Qed.
End NavigatorSkel.

Section FetchTwice.
Variable json : list ascii.

(** A second [leaf_value] on a cached scalar returns what is cached and
    changes nothing. *)
Lemma leaf_value_cached fuel H L a l :
  L !! a = Some l → value_type l = RUBY_VAL →
  leaf_value json (S fuel) H L (At a) = Ok (value l, H, L).
Proof.
  intros Hl Hv. cbn [leaf_value deref]. rewrite Hl. cbn [mbind res_bind].
  rewrite bool_decide_false; [done|]. by intros ?.
Qed.

End FetchTwice.


(** ** Decimal steps *)

Lemma read_index_app cnt ds rest :
  Forall (λ c, is_digit c = true) ds →
  read_index cnt (ds ++ rest) = read_index (horner cnt ds) rest.
Proof.
  intros Hd. revert cnt. induction Hd as [|x ds Hx _ IH]; intros cnt; [done|].
  cbn [app read_index]. rewrite Hx. apply IH.
Qed.

Lemma read_index_stop cnt rest :
  is_digit (chr0 rest) = false → read_index cnt rest = (cnt, rest).
Proof. destruct rest as [|c rest]; [done|]. cbn. by intros ->. Qed.

Lemma ulong_digits_acc room num acc :
  ulong_digits room num acc = ulong_digits room num [] ++ acc.
Proof.
  revert num acc. induction room as [|room IH]; intros num acc; [done|].
  cbn [ulong_digits]. destruct (0 <? num); [|done].
  rewrite IH, (IH _ [_]). by rewrite <- app_assoc.
Qed.

Lemma digit_chr m :
  0 ≤ m < 10 →
  is_digit (chr (m + code "0")) = true ∧ code (chr (m + code "0")) - code "0" = m.
Proof.
  intros Hm.
  assert (m = 0 ∨ m = 1 ∨ m = 2 ∨ m = 3 ∨ m = 4 ∨ m = 5 ∨ m = 6 ∨ m = 7 ∨ m = 8 ∨ m = 9)
    as Hc by lia.
  repeat (destruct Hc as [->|Hc]; [by vm_compute|]). subst. by vm_compute.
Qed.

Lemma int_small z : - 2 ^ 31 ≤ z < 2 ^ 31 → int z = z.
Proof. intros Hz. unfold int. rewrite Z.mod_small; lia. Qed.

Lemma ulong_digits_value room num :
  0 ≤ num < 2 ^ 31 → num < 10 ^ Z.of_nat room →
  Forall (λ c, is_digit c = true) (ulong_digits room num []) ∧
  horner 0 (ulong_digits room num []) = num ∧
  (0 < num → ulong_digits room num [] ≠ []).
Proof.
  revert num. induction room as [|room IH]; intros num Hn Hr.
  - cbn in *. split; [done|]. split; [cbn; lia|lia].
  - cbn [ulong_digits]. destruct (Z.ltb_spec 0 num) as [Hp|Hp].
    + rewrite ulong_digits_acc.
      assert (0 ≤ num mod 10 < 10) as Hm by (apply Z.mod_pos_bound; lia).
      assert (0 ≤ num / 10 < 2 ^ 31) as Hq.
      { split; [apply Z.div_pos; lia|]. apply Z.div_lt_upper_bound; lia. }
      assert (num / 10 < 10 ^ Z.of_nat room) as Hq'.
      { apply Z.div_lt_upper_bound; [lia|].
        rewrite Nat2Z.inj_succ, Z.pow_succ_r in Hr by lia. lia. }
      destruct (IH (num / 10) Hq Hq') as (F & V & _).
      destruct (digit_chr (num mod 10) Hm) as [D1 D2].
      split_and!.
      * apply Forall_app. split; [done|]. by apply Forall_singleton.
      * unfold horner in *. rewrite fold_left_app, V. cbn [fold_left].
        rewrite D2. pose proof (Z.div_mod num 10 ltac:(lia)) as Hdm.
        rewrite int_small; lia.
      * intros _. by destruct (ulong_digits room (num / 10) []).
    + split; [done|]. split; [cbn; lia|lia].
Qed.

(** [ulong_fill] writes what the digits loop of a step reads back. *)
Lemma ulong_fill_digits n :
  0 < n < 2 ^ 31 →
  Forall (λ c, is_digit c = true) (ulong_fill n) ∧ horner 0 (ulong_fill n) = n ∧
  ulong_fill n ≠ [].
Proof.
  intros Hn.
  destruct (ulong_digits_value 31 n) as (F & V & N); [lia|cbn; lia|].
  unfold ulong_fill. destruct (ulong_digits 31 n []) eqn:E; [by destruct N; [lia|]|].
  done.
Qed.

Lemma read_index_fill n rest :
  0 < n < 2 ^ 31 → is_digit (chr0 rest) = false →
  read_index 0 (ulong_fill n ++ rest) = (n, rest).
Proof.
  intros Hn Hr. destruct (ulong_fill_digits n Hn) as (F & V & _).
  rewrite read_index_app by done. rewrite V. by apply read_index_stop.
Qed.

(** ** Key steps *)

Lemma cstr_no_nul l : NUL ∉ cstr l.
Proof.
  induction l as [|c l IH]; cbn [cstr]; [by apply not_elem_of_nil|].
  destruct (Ascii.eqb_spec c NUL) as [->|Hc]; [by apply not_elem_of_nil|].
  apply not_elem_of_cons. split; [congruence|done].
Qed.

Lemma cstr_id l : NUL ∉ l → cstr l = l.
Proof.
  induction l as [|c l IH]; [done|]. intros [Hc Hl]%not_elem_of_cons.
  cbn [cstr]. destruct (Ascii.eqb_spec c NUL) as [->|_]; [done|]. by rewrite IH.
Qed.

Lemma strlen_id l : NUL ∉ l → strlen l = length l.
Proof.
  induction l as [|c l IH]; [done|]. intros [Hc Hl]%not_elem_of_cons.
  cbn [strlen length]. destruct (Ascii.eqb_spec c NUL) as [->|_]; [done|]. by rewrite IH.
Qed.

Lemma strchr_end kb : ("/"%char ∉ kb) → strchr kb "/" = None.
Proof.
  induction kb as [|c l IH]; [done|]. intros [Hc Hl]%not_elem_of_cons.
  cbn [strchr]. destruct (Ascii.eqb_spec c "/") as [->|_]; [done|].
  destruct (Ascii.eqb c NUL); [done|]. by rewrite IH.
Qed.

Lemma strchr_slash kb rest :
  ("/"%char ∉ kb) → NUL ∉ kb → strchr (kb ++ "/"%char :: rest) "/" = Some (length kb).
Proof.
  induction kb as [|c l IH]; [done|].
  intros [Hc Hl]%not_elem_of_cons [Hn Hl']%not_elem_of_cons.
  cbn [strchr app length]. destruct (Ascii.eqb_spec c "/") as [->|_]; [done|].
  destruct (Ascii.eqb_spec c NUL) as [->|_]; [done|]. by rewrite IH.
Qed.

Lemma key_step_last kb :
  ("/"%char ∉ kb) → NUL ∉ kb → key_step kb = (length kb, []).
Proof.
  intros Hs Hn. unfold key_step. rewrite strchr_end, strlen_id by done.
  by rewrite drop_all.
Qed.

Lemma key_step_slash kb rest :
  ("/"%char ∉ kb) → NUL ∉ kb → key_step (kb ++ "/"%char :: rest) = (length kb, rest).
Proof.
  intros Hs Hn. unfold key_step. rewrite strchr_slash by done.
  by rewrite <- drop_drop, drop_app_length.
Qed.

(** [strncmp] over the length of the step and the NUL after it: the key
    is the step. *)
Lemma strncmp0_cstr kb rest b :
  NUL ∉ kb →
  strncmp0 (kb ++ rest) b (length kb) && Ascii.eqb (default NUL (b !! length kb)) NUL
  = bool_decide (cstr b = kb).
Proof.
  revert b. induction kb as [|x kb IH]; intros b Hn.
  - cbn [strncmp0 length andb]. destruct b as [|c b]; cbn [cstr].
    + by rewrite bool_decide_true.
    + change (default NUL ((c :: b) !! 0%nat)) with c.
      destruct (Ascii.eqb c NUL); symmetry;
        [by apply bool_decide_eq_true_2|by apply bool_decide_eq_false_2].
  - apply not_elem_of_cons in Hn as [Hx Hn].
    destruct b as [|c b]; cbn [strncmp0 length app chr0 hd tail cstr].
    + destruct (Ascii.eqb_spec x NUL) as [->|_]; [done|].
      cbn [andb]. symmetry. by apply bool_decide_eq_false_2.
    + destruct (Ascii.eqb_spec x c) as [<-|Hxc].
      * destruct (Ascii.eqb_spec x NUL) as [->|_]; [done|].
        change ((x :: b) !! S (length kb)) with (b !! length kb). rewrite IH by done.
        apply bool_decide_ext. split; [by intros ->|by intros [= ->]].
      * cbn [andb]. symmetry. apply bool_decide_eq_false_2.
        destruct (Ascii.eqb c NUL); congruence.
Qed.

Lemma key_matches_cstr json kb rest l :
  NUL ∉ kb →
  key_matches json (kb ++ rest) (length kb) l = bool_decide (cstr_at json (key l) = kb).
Proof.
  intros Hn. unfold key_matches, cstr_at, peek.
  rewrite <- (strncmp0_cstr kb rest (drop (key l) json) Hn).
  by rewrite lookup_drop.
Qed.

(** ** Rings *)

Lemma nth_kid_weight ks j k :
  nth_kid ks j = Some k → (S j + weight k ≤ weight_forest ks)%nat.
Proof.
  revert j. induction ks as [|k0 rest IH] using forest_ind; intros j; [done|].
  destruct j as [|j]; cbn [nth_kid weight_forest].
  - intros [= ->]. lia.
  - intros Hj. specialize (IH _ Hj). lia.
Qed.

Lemma nth_kid_height ks j k :
  nth_kid ks j = Some k → (S (height k) ≤ height_forest ks)%nat.
Proof.
  revert j. induction ks as [|k0 rest IH] using forest_ind; intros j; [done|].
  destruct j as [|j]; cbn [nth_kid height_forest].
  - intros [= ->]. lia.
  - intros Hj. specialize (IH _ Hj). lia.
Qed.

Lemma ring_nth L first ks j k :
  ring L first ks → nth_kid ks j = Some k →
  shape L k ∧ ∃ lk, L !! addr k = Some lk.
Proof.
  revert j. induction ks as [|k0 rest IH] using forest_ind; intros j; [done|].
  intros (Hs & (lk & Hlk & _) & Hr). destruct j as [|j]; cbn [nth_kid].
  - intros [= <-]. eauto.
  - by apply IH.
Qed.

(** What [shape] says of a node with children. *)
Lemma shape_kids L a k rest :
  shape L (Node a (FCons k rest)) →
  ∃ l ll, L !! a = Some l ∧ value_type l = COL_VAL ∧
    (type l = T_ARRAY ∨ type l = T_HASH) ∧
    elements l = At (last_addr (addr k) rest) ∧
    L !! last_addr (addr k) rest = Some ll ∧ next ll = At (addr k) ∧
    ring L (addr k) (FCons k rest).
Proof.
  intros (l & Hl & Ht & Hcol & Hlit & Hc & He & Hr).
  destruct (ring_last _ _ _ _ Hr) as (ll & Hll & Hn).
  exists l, ll. split_and!; try done. by apply Hcol.
Qed.

Lemma shape_kid L p k : shape L p → kid_of p k → shape L k.
Proof.
  destruct p as [a [|k0 rest]]; intros Hs [j Hj]; [done|]. cbn [kids] in Hj.
  destruct (shape_kids _ _ _ _ Hs) as (_ & _ & _ & _ & _ & _ & _ & _ & Hr).
  by destruct (ring_nth _ _ _ _ _ Hr Hj).
Qed.

(** The count of an ARRAY step stops on the child of that number. *)
Lemma nth_sibling_ring L first ks j k fuel :
  ring L first ks → nth_kid ks j = Some k → Z.of_nat (S j) < 2 ^ 31 → (j < fuel)%nat →
  nth_sibling fuel L (At (head_addr ks)) (At first) (Z.of_nat (S j))
  = Ok (Some (At (addr k))).
Proof.
  revert j fuel. induction ks as [|k0 rest IH] using forest_ind; intros j fuel; [done|].
  intros (Hs & (lk & Hlk & Hn) & Hr) Hj Hb Hf.
  destruct fuel as [|f]; [lia|]. cbn [nth_sibling head_addr].
  destruct j as [|j]; cbn [nth_kid] in Hj.
  - injection Hj as <-. done.
  - destruct (Z.geb_spec 1 (Z.of_nat (S (S j)))) as [?|_]; [lia|].
    cbn [deref]. rewrite Hlk. cbn [mbind res_bind].
    destruct rest as [|k1 rest']; [done|]. destruct Hn as [-> Hne].
    rewrite decide_False by congruence.
    replace (int (Z.of_nat (S (S j)) - 1)) with (Z.of_nat (S j))
      by (rewrite int_small; lia).
    apply (IH j f); try done; lia.
Qed.

(** The scan of a HASH step stops on the first child the step names. *)
Lemma find_key_ring json L first ks j k fuel path klen :
  ring L first ks → nth_kid ks j = Some k →
  key_matches json path klen (L !!! addr k) = true →
  (∀ i k', (i < j)%nat → nth_kid ks i = Some k' →
     key_matches json path klen (L !!! addr k') = false) →
  (j < fuel)%nat →
  find_key json fuel L (At (head_addr ks)) (At first) path klen = Ok (Some (At (addr k))).
Proof.
  revert j fuel. induction ks as [|k0 rest IH] using forest_ind; intros j fuel; [done|].
  intros (Hs & (lk & Hlk & Hn) & Hr) Hj Hm Hb Hf.
  destruct fuel as [|f]; [lia|]. cbn [find_key head_addr deref]. rewrite Hlk.
  cbn [mbind res_bind]. rewrite <- (lookup_total_eq _ _ _ Hlk).
  destruct j as [|j]; cbn [nth_kid] in Hj.
  - injection Hj as <-. by rewrite Hm.
  - rewrite (Hb 0%nat k0) by (done || lia).
    rewrite (lookup_total_eq _ _ _ Hlk).
    destruct rest as [|k1 rest']; [done|]. destruct Hn as [-> Hne].
    rewrite decide_False by congruence.
    apply (IH j f); try done; [|lia].
    intros i k' Hi Hk'. apply (Hb (S i) k'); [lia|done].
Qed.

(** Whatever the count or the step, what the scans return is a child. *)
Lemma nth_sibling_kid L first ks fuel cnt :
  ring L first ks → ks ≠ FNil → (weight_forest ks ≤ fuel)%nat →
  ∃ r, nth_sibling fuel L (At (head_addr ks)) (At first) cnt = Ok r ∧
    ∀ e, r = Some e → ∃ j k, nth_kid ks j = Some k ∧ e = At (addr k).
Proof.
  revert fuel cnt. induction ks as [|k0 rest IH] using forest_ind; intros fuel cnt; [done|].
  intros (Hs & (lk & Hlk & Hn) & Hr) _ Hf. cbn [weight_forest] in Hf.
  destruct fuel as [|f]; [lia|]. cbn [nth_sibling head_addr].
  destruct (1 >=? cnt).
  - eexists. split; [done|]. intros e [= <-]. by exists 0%nat, k0.
  - cbn [deref]. rewrite Hlk. cbn [mbind res_bind].
    destruct rest as [|k1 rest'].
    + rewrite Hn, decide_True by done. eexists. split; [done|]. done.
    + destruct Hn as [-> Hne]. rewrite decide_False by congruence.
      destruct (IH f (int (cnt - 1)) Hr) as (r & Eq & Hk); [done|lia|].
      cbn [head_addr] in Eq. rewrite Eq.
      exists r. split; [done|]. intros e He. destruct (Hk e He) as (j & k & ? & ?).
      by exists (S j), k.
Qed.

Lemma find_key_kid json L first ks fuel path klen :
  ring L first ks → ks ≠ FNil → (weight_forest ks ≤ fuel)%nat →
  ∃ r, find_key json fuel L (At (head_addr ks)) (At first) path klen = Ok r ∧
    ∀ e, r = Some e → ∃ j k, nth_kid ks j = Some k ∧ e = At (addr k).
Proof.
  revert fuel. induction ks as [|k0 rest IH] using forest_ind; intros fuel; [done|].
  intros (Hs & (lk & Hlk & Hn) & Hr) _ Hf. cbn [weight_forest] in Hf.
  destruct fuel as [|f]; [lia|]. cbn [find_key head_addr deref]. rewrite Hlk.
  cbn [mbind res_bind].
  destruct (key_matches _ _ _ _).
  - eexists. split; [done|]. intros e [= <-]. by exists 0%nat, k0.
  - destruct rest as [|k1 rest'].
    + rewrite Hn, decide_True by done. eexists. split; [done|]. done.
    + destruct Hn as [-> Hne]. rewrite decide_False by congruence.
      destruct (IH f Hr) as (r & Eq & Hk); [done|lia|].
      cbn [head_addr] in Eq. rewrite Eq.
      exists r. split; [done|]. intros e He. destruct (Hk e He) as (j & k & ? & ?).
      by exists (S j), k.
Qed.

(** ** Names of steps *)

Lemma digit_not c : is_digit c = true → c ≠ NUL ∧ c ≠ "/"%char ∧ c ≠ "."%char.
Proof. intros H. split_and!; intros ->; by vm_compute in H. Qed.

Lemma digits_name_ok ds :
  ds ≠ [] → Forall (λ c, is_digit c = true) ds → name_ok ds.
Proof.
  intros Hne Hd. split_and!; try done.
  - intros Hin. by destruct (digit_not _ (proj1 (list.Forall_forall _ _) Hd _ Hin)) as (? & _).
  - intros Hin. by destruct (digit_not _ (proj1 (list.Forall_forall _ _) Hd _ Hin)) as (_ & ? & _).
  - destruct Hd as [|c ds Hc _]; [done|]. destruct (digit_not _ Hc) as (_ & _ & Hdot).
    unfold dotdot. cbn [chr0 hd]. by destruct (Ascii.eqb_spec c ".").
Qed.

Lemma name_ok_chr0 n rest : name_ok n → Ascii.eqb (chr0 (n ++ rest)) NUL = false.
Proof.
  intros (Hne & Hn & _). destruct n as [|c n]; [done|].
  apply not_elem_of_cons in Hn as [Hc _]. cbn [app chr0 hd].
  by destruct (Ascii.eqb_spec c NUL).
Qed.

Lemma dotdot_app n rest :
  name_ok n → rest = [] ∨ chr0 rest = "/"%char → dotdot (n ++ rest) = false.
Proof.
  intros (Hne & _ & _ & Hd) Hr. destruct n as [|c [|c' n]]; [done| |done].
  unfold dotdot. cbn [app chr0 chr1 hd tail].
  destruct (Ascii.eqb c "."); [|done]. cbn [andb].
  destruct Hr as [->|Hr]; [done|].
  change (chr1 (c :: rest)) with (chr0 rest). by rewrite Hr.
Qed.

Lemma join_steps_cons n names :
  join_steps (n :: names)
  = n ++ match names with [] => [] | _ => "/"%char :: join_steps names end.
Proof. destruct names; cbn [join_steps]; [by rewrite app_nil_r|done]. Qed.

Lemma concat_join names :
  names ≠ [] → concat (map (λ n, n ++ ["/"%char]) names) = join_steps names ++ ["/"%char].
Proof.
  induction names as [|n names IH]; [done|]. intros _.
  rewrite join_steps_cons. cbn [map concat]. destruct names as [|n' names].
  - cbn. by rewrite !app_nil_r.
  - rewrite IH by done. by rewrite <- !app_assoc.
Qed.

Lemma join_steps_no_nul names : Forall name_ok names → NUL ∉ join_steps names.
Proof.
  induction 1 as [|n names (_ & Hn & _) _ IH]; [by apply not_elem_of_nil|].
  rewrite join_steps_cons. apply not_elem_of_app. split; [done|].
  destruct names; [by apply not_elem_of_nil|].
  apply not_elem_of_cons. split; [done|]. exact IH.
Qed.

Lemma tip_cons p k ts : tip p (k :: ts) = tip k ts.
Proof.
  unfold tip. revert p k. induction ts as [|k' ts IH]; intros p k; [done|].
  change (List.last (k :: k' :: ts) p) with (List.last (k' :: ts) p).
  by rewrite (IH p k'), (IH k k').
Qed.

Section Located.
Variable json : list ascii.

Lemma key_free_nth L kb ks j k :
  key_free json L kb ks → nth_kid ks j = Some k →
  cstr_at json (key (L !!! addr k)) ≠ kb.
Proof.
  revert j. induction ks as [|k0 rest IH] using forest_ind; intros j; [done|].
  intros [H0 Hr]. destruct j as [|j]; cbn [nth_kid].
  - by intros [= <-].
  - by apply IH.
Qed.

Lemma located_nth L pt i ks j k :
  located_kids json L pt i ks → nth_kid ks j = Some k →
  located json L k ∧ parent_type (L !!! addr k) = pt ∧
  (pt = T_ARRAY →
     index (L !!! addr k) = i + Z.of_nat j ∧ i + Z.of_nat j < 2 ^ 31) ∧
  (pt = T_HASH →
     key_ok (cstr_at json (key (L !!! addr k))) ∧
     ∀ i' k', (i' < j)%nat → nth_kid ks i' = Some k' →
       cstr_at json (key (L !!! addr k')) ≠ cstr_at json (key (L !!! addr k))).
Proof.
  revert i j. induction ks as [|k0 rest IH] using forest_ind; intros i j; [done|].
  intros (Hl & Hp & Hn & Hr). destruct j as [|j]; cbn [nth_kid].
  - intros [= <-]. split_and!; try done.
    + intros ->. cbv beta iota in Hn. destruct Hn as [Hn1 Hn2].
      rewrite Z.add_0_r. by split.
    + intros ->. cbv beta iota in Hn. destruct Hn as [Hn1 Hn2]. split; [done|].
      intros i' k' Hi'. lia.
  - intros Hj. destruct (IH _ _ Hr Hj) as (Hl' & Hp' & Ha & Hh). split_and!; try done.
    + intros Ht. destruct (Ha Ht). split; lia.
    + intros Ht. destruct (Hh Ht) as [Hk Hd]. split; [done|].
      intros [|i'] k' Hi; cbn [nth_kid].
      * intros [= <-]. rewrite Ht in Hn. destruct Hn as [_ Hf].
        intros Heq. by eapply key_free_nth.
      * apply Hd. lia.
Qed.

(** What [shape] and [located] say of a child: its parent is an array or
    an object that knows its ring, and the step [doc_where] writes for the
    child names it. *)
Lemma kid_facts L p k :
  shape L p → located json L p → kid_of p k →
  shape L k ∧ located json L k ∧ name_ok (step_name json L k) ∧
  ∃ lk, L !! addr k = Some lk ∧
    where_step json lk = Ok (step_name json L k ++ ["/"%char]).
Proof.
  destruct p as [a [|k0 rest]]; intros Hs Hl [j Hj]; [done|]. cbn [kids] in Hj.
  destruct (shape_kids _ _ _ _ Hs) as (l & ll & Hla & Hc & Ht & He & Hll & Hn & Hr).
  destruct (ring_nth _ _ _ _ _ Hr Hj) as (Hsk & lk & Hlk).
  cbn [located] in Hl. rewrite (lookup_total_eq _ _ _ Hla) in Hl.
  destruct (located_nth _ _ _ _ _ _ Hl Hj) as (Hlk' & Hp & Ha & Hh).
  rewrite (lookup_total_eq _ _ _ Hlk) in Hp, Ha, Hh.
  unfold step_name, where_step. rewrite (lookup_total_eq _ _ _ Hlk), Hp.
  split; [done|]. split; [done|].
  destruct Ht as [Ht|Ht]; rewrite Ht.
  - destruct (Ha Ht) as [Hi Hb].
    destruct (ulong_fill_digits (index lk)) as (F & V & N); [lia|].
    split; [by apply digits_name_ok|]. exists lk. split; [done|]. rewrite Hp, Ht.
    destruct (Z.leb_spec (10 ^ 10) (index lk)) as [Hbig|_]; [|done].
    assert (2 ^ 31 < 10 ^ 10) by done. lia.
  - destruct (Hh Ht) as [(K1 & K2 & K3) _].
    split; [|exists lk; by rewrite Hp, Ht]. split_and!; try done. apply cstr_no_nul.
Qed.

Lemma linked_names L p ts :
  shape L p → located json L p → linked p ts →
  Forall name_ok (map (step_name json L) ts) ∧
  where_steps json L (map (λ k, At (addr k)) ts)
  = Ok (concat (map (λ n, n ++ ["/"%char]) (map (step_name json L) ts))) ∧
  shape L (tip p ts) ∧ located json L (tip p ts).
Proof.
  revert p. induction ts as [|k ts IH]; intros p Hs Hl; [done|].
  intros [Hk Hts]. destruct (kid_facts L p k Hs Hl Hk) as (Hsk & Hlk & Hn & lk & Hlk' & Hw).
  destruct (IH k Hsk Hlk Hts) as (F & W & St & Lt).
  rewrite tip_cons. split_and!; try done.
  - by apply Forall_cons.
  - cbn [map where_steps deref]. rewrite Hlk'. cbn [mbind res_bind].
    rewrite Hw. cbn [mbind res_bind]. rewrite W. done.
Qed.
End Located.

(** ** From the cursor to the path and back *)

Lemma tip_lookup {A} (f : tree → A) t ts :
  map f (t :: ts) !! length ts = Some (f (tip t ts)).
Proof.
  revert t. induction ts as [|k ts IH]; intros t; [done|].
  rewrite tip_cons. apply (IH k).
Qed.

Lemma chain_slots d t ts :
  chain d t ts →
  where_path d !! 0%nat = Some (At (addr t)) ∧
  where_path d !! where_ d = Some (At (addr (tip t ts))) ∧
  (where_ d < length (where_path d))%nat.
Proof.
  intros (Hd & Hl & Hw & Ht). split_and!.
  - rewrite <- (lookup_take_lt _ (S (length ts))) by lia. by rewrite Ht.
  - rewrite Hw, <- (lookup_take_lt _ (S (length ts))) by lia. rewrite Ht.
    apply tip_lookup.
  - apply (f_equal length) in Ht. rewrite length_take, length_map in Ht.
    cbn [length] in Ht. lia.
Qed.

Section Probe.
Variable json : list ascii.

Lemma where_steps_cons L lp lps :
  where_steps json L (lp :: lps)
  = (l ← deref L lp; st ← where_step json l; rest ← where_steps json L lps;
     Ok (st ++ rest)).
Proof. done. Qed.

Lemma doc_where_chain d t ts :
  chain d t ts → shape (leaves d) t → located json (leaves d) t →
  parent_type (leaves d !!! addr t) = T_NONE →
  doc_where json d = Ok (path_to json (leaves d) ts).
Proof.
  intros Hc Hs Hl Hroot. destruct (chain_slots d t ts Hc) as (H0 & _ & Hlt).
  destruct Hc as (Hd & Hlk & Hw & Ht).
  unfold doc_where, slot. rewrite H0. cbn [mbind res_bind is_null orb].
  destruct ts as [|k ts].
  { rewrite bool_decide_true by done. done. }
  rewrite bool_decide_false by (rewrite Hw; done).
  rewrite decide_True by done. rewrite Hw, Ht.
  destruct (linked_names json (leaves d) t (k :: ts) Hs Hl Hlk) as (F & W & _).
  assert (∃ l, leaves d !! addr t = Some l) as [l Hla].
  { destruct t as [a ks]. destruct Hs as (l & ? & _). by exists l. }
  rewrite (lookup_total_eq _ _ _ Hla) in Hroot.
  assert (where_step json l = Ok ["/"%char]) as Hwl
    by (unfold where_step; by rewrite Hroot).
  change (map (λ k, At (addr k)) (t :: k :: ts))
    with (At (addr t) :: map (λ k, At (addr k)) (k :: ts)).
  rewrite where_steps_cons. cbn [deref]. rewrite Hla. cbn [mbind res_bind].
  rewrite Hwl. cbn [mbind res_bind].
  rewrite W. cbn [mbind res_bind]. rewrite concat_join by done.
  unfold path_to.
  change (["/"%char] ++ ?x ++ ["/"%char]) with (("/"%char :: x) ++ ["/"%char]).
  rewrite removelast_last. rewrite cstr_id; [done|].
  apply not_elem_of_cons. split; [done|]. by apply join_steps_no_nul.
Qed.

(** [get_leaf] on the steps of a chain follows the chain. *)
Lemma get_leaf_chain L ts :
  ∀ p fuel stack lp,
    shape L p → located json L p → linked p ts →
    stack !! lp = Some (At (addr p)) → (lp + length ts < length stack)%nat →
    (weight p < fuel)%nat →
    get_leaf json fuel L stack lp (join_steps (map (step_name json L) ts))
    = Ok (At (addr (tip p ts))).
Proof.
  induction ts as [|k ts IH]; intros p fuel stack lp Hs Hl Hlk Hst Hlen Hf.
  { destruct fuel as [|f]; [lia|]. cbn [map join_steps get_leaf]. unfold slot.
    rewrite Hst. done. }
  destruct Hlk as [Hk Hts].
  destruct (kid_facts json L p k Hs Hl Hk) as (Hsk & Hlk' & Hn & lk & Hlkk & _).
  destruct p as [a [|k0 rest]]; destruct Hk as [j Hj]; [done|]. cbn [kids] in Hj.
  cbn [addr] in Hst.
  destruct (shape_kids _ _ _ _ Hs) as (l & ll & Hla & Hc & Ht & He & Hll & Hnx & Hr).
  cbn [located] in Hl. rewrite (lookup_total_eq _ _ _ Hla) in Hl.
  destruct (located_nth json _ _ _ _ _ _ Hl Hj) as (_ & Hp & Ha & Hh).
  rewrite tip_cons. cbn [map]. rewrite join_steps_cons.
  set (more := join_steps (map (step_name json L) ts)).
  set (rest' := match map (step_name json L) ts with
                | [] => []
                | _ => "/"%char :: more
                end).
  assert (rest' = [] ∧ more = [] ∨ rest' = "/"%char :: more) as Hrest.
  { unfold rest', more. destruct (map (step_name json L) ts); auto. }
  assert (skip_slash rest' = more) as Hskip by (by destruct Hrest as [[-> ->]| ->]).
  assert (rest' = [] ∨ chr0 rest' = "/"%char) as Hrest'
    by (destruct Hrest as [[-> ->]| ->]; auto).
  destruct fuel as [|f]; [lia|]. cbn [get_leaf]. unfold slot. rewrite Hst.
  cbn [mbind res_bind]. rewrite name_ok_chr0, dotdot_app by done.
  cbn [deref]. rewrite Hla. cbn [mbind res_bind]. rewrite bool_decide_true by done.
  rewrite He. cbn [is_null negb andb deref]. rewrite Hll. cbn [mbind res_bind].
  rewrite Hnx.
  pose proof (nth_kid_weight _ _ _ Hj) as Hw. cbn [weight] in Hf.
  assert (∀ e, store stack (S lp) e = Ok (<[S lp := e]> stack)) as Hstore.
  { intros e. unfold store. rewrite decide_True; [done|]. cbn [length] in Hlen. lia. }
  assert (get_leaf json f L (<[S lp := At (addr k)]> stack) (S lp) more
          = Ok (At (addr (tip k ts)))) as Hnext.
  { apply IH; try done.
    - apply list_lookup_insert_eq. cbn [length] in Hlen. lia.
    - rewrite length_insert. cbn [length] in Hlen. lia.
    - lia. }
  rewrite (lookup_total_eq _ _ _ Hlkk) in *.
  unfold step_name. rewrite (lookup_total_eq _ _ _ Hlkk), Hp.
  destruct Ht as [Ht|Ht]; rewrite Ht.
  - destruct (Ha Ht) as [Hi Hb].
    rewrite read_index_fill; [|lia|by destruct Hrest as [[-> ->]| ->]].
    rewrite Hskip. replace (index lk) with (Z.of_nat (S j)) by lia.
    pose proof (nth_sibling_ring L (addr k0) _ j k f Hr Hj) as E.
    cbn [head_addr] in E. rewrite E by lia. cbn [mbind res_bind].
    rewrite Hstore. exact Hnext.
  - destruct (Hh Ht) as [(K1 & K2 & K3) Hd].
    set (kb := cstr_at json (key lk)) in *.
    assert (NUL ∉ kb) as Hnul by apply cstr_no_nul.
    assert (key_step (kb ++ rest') = (length kb, more)) as ->.
    { destruct Hrest as [[-> ->]| ->].
      - rewrite app_nil_r. by apply key_step_last.
      - by apply key_step_slash. }
    pose proof (find_key_ring json L (addr k0) _ j k f (kb ++ rest') (length kb) Hr Hj) as E.
    cbn [head_addr] in E. rewrite E; [| | |lia].
    + cbn [mbind res_bind]. rewrite Hstore. exact Hnext.
    + rewrite key_matches_cstr by done. apply bool_decide_eq_true_2.
      by rewrite (lookup_total_eq _ _ _ Hlkk).
    + intros i k' Hi Hk'. rewrite key_matches_cstr by done.
      apply bool_decide_eq_false_2. by apply (Hd i k').
Qed.
End Probe.

(** ** The block at a leaf *)

Lemma skel_total L L' a : skel_eq L L' → same_skel (L !!! a) (L' !!! a).
Proof.
  intros [Hlen Hs]. destruct (L !! a) as [l|] eqn:E.
  - destruct (Hs a l E) as (l' & E' & S').
    by rewrite (lookup_total_eq _ _ _ E), (lookup_total_eq _ _ _ E').
  - rewrite !list_lookup_total_alt, E.
    apply lookup_ge_None in E. rewrite Hlen in E. apply lookup_ge_None in E.
    rewrite E. apply same_skel_refl.
Qed.

Lemma linked_snoc p ts k : linked p ts → kid_of (tip p ts) k → linked p (ts ++ [k]).
Proof.
  revert p. induction ts as [|k' ts IH]; intros p.
  - intros _ Hk. by split.
  - intros [Hk' Hts]. rewrite tip_cons. intros Hk. split; [done|]. by apply IH.
Qed.

Lemma tip_snoc p ts k : tip p (ts ++ [k]) = k.
Proof. unfold tip. by rewrite List.last_last. Qed.

Lemma linked_height p ts :
  linked p ts → (length ts + height (tip p ts) ≤ height p)%nat.
Proof.
  revert p. induction ts as [|k ts IH]; intros p; [cbn; lia|].
  intros [[j Hj] Hts]. rewrite tip_cons. specialize (IH k Hts).
  destruct p as [a ks]. cbn [kids height] in *.
  pose proof (nth_kid_height _ _ _ Hj). cbn [length]. lia.
Qed.

Section Skeleton.
Variable json : list ascii.

Lemma key_free_skel L L' kb ks :
  skel_eq L L' → key_free json L kb ks → key_free json L' kb ks.
Proof.
  intros HS. induction ks as [|k rest IH] using forest_ind; [done|].
  intros [Hk Hr]. split; [|by apply IH].
  destruct (skel_total L L' (addr k) HS) as (_ & <- & _). done.
Qed.

Lemma located_skel L L' :
  skel_eq L L' →
  (∀ t, located json L t → located json L' t) ∧
  (∀ ks pt i, located_kids json L pt i ks → located_kids json L' pt i ks).
Proof.
  intros HS. apply tree_mutind.
  - intros a ks IH. cbn [located].
    destruct (skel_total L L' a HS) as (_ & _ & _ & _ & _ & <- & _). apply IH.
  - done.
  - intros k IHk rest IHr pt i (Hl & Hp & Hn & Hr).
    destruct (skel_total L L' (addr k) HS) as (_ & Ek & Ei & _ & _ & _ & Ep & _).
    cbn [located_kids]. rewrite <- Ek, <- Ei, <- Ep.
    split_and!; auto. destruct pt; try done.
    destruct Hn as [? ?]. split; [done|]. by eapply key_free_skel.
Qed.

Lemma scalars_skel L L' :
  skel_eq L L' →
  (∀ t, scalars L' t = scalars L t) ∧ (∀ ks, scalars_forest L' ks = scalars_forest L ks).
Proof.
  intros HS. apply tree_mutind.
  - intros a ks IH. cbn [scalars].
    destruct (skel_total L L' a HS) as (_ & _ & _ & _ & _ & _ & _ & Ec).
    rewrite (bool_decide_ext _ _ Ec), IH. done.
  - done.
  - intros k IHk rest IHr. cbn [scalars_forest]. by rewrite IHk, IHr.
Qed.

Lemma doc_inv_fetched oa H L H' L' t :
  fetched oa H L H' L' → doc_inv json H L t → doc_inv json H' L' t.
Proof.
  intros (E & S' & C & Ok') (Hs & Hl & Hr & _). split_and!; try done.
  - by eapply (shape_skel L L').
  - by eapply (located_skel L L').
  - destruct (skel_total L L' (addr t) S') as (_ & _ & _ & _ & _ & _ & <- & _). done.
Qed.

Lemma fetched_refl oa H L : heap_ok H L → fetched oa H L H L.
Proof.
  intros Hok. split_and!; auto using ext_but_refl, skel_eq_refl, cache_kept_refl.
Qed.

Lemma get_doc_leaf_path fuel scratch d t ts :
  chain d t ts → shape (leaves d) t → located json (leaves d) t →
  (length ts < length scratch)%nat → (weight t < fuel)%nat →
  get_doc_leaf json fuel scratch d (Some (path_to json (leaves d) ts))
  = Ok (At (addr (tip t ts))).
Proof.
  intros Hc Hs Hl Hlen Hf. destruct (chain_slots d t ts Hc) as (_ & Hcur & _).
  destruct Hc as (Hd & Hlk & Hw & Ht).
  unfold get_doc_leaf, slot. rewrite Hcur. cbn [mbind res_bind]. rewrite Hd.
  cbn [is_null negb]. unfold path_to.
  change (Ascii.eqb (chr0 ("/"%char :: ?x)) "/") with true. cbv iota.
  unfold store. rewrite decide_True by lia. cbn [mbind res_bind drop].
  apply get_leaf_chain; try done.
  - apply list_lookup_insert_eq. lia.
  - rewrite length_insert. lia.
Qed.

Lemma probe_leaf fuel scratch H log d t ts :
  chain d t ts → doc_inv json H (leaves d) t →
  value_type (leaves d !!! addr (tip t ts)) ≠ COL_VAL →
  (length ts < length scratch)%nat → (weight t < fuel)%nat →
  ∃ v H' L',
    probe json fuel scratch (H, log) d
    = Ok (H', log ++ [mkVisit (At (addr (tip t ts))) (path_to json (leaves d) ts) v v],
          set_leaves L' d) ∧
    fetched None H (leaves d) H' L'.
Proof.
  intros Hc (Hs & Hl & Hroot & Hok) Hv Hlen Hf.
  destruct (chain_slots d t ts Hc) as (_ & Hcur & _).
  destruct (linked_names json (leaves d) t ts Hs Hl (proj1 (proj2 Hc))) as (_ & _ & Hst & _).
  destruct (tip t ts) as [a ks] eqn:Etip. cbn [addr] in *.
  destruct Hst as (l & Hla & Ht & Hcol & Hlit & Hk).
  rewrite (lookup_total_eq _ _ _ Hla) in Hv.
  destruct fuel as [|f]; [lia|].
  destruct (leaf_value_scalar json f H (leaves d) a l) as
    (v & H' & L' & Eq & E' & S' & C' & Ok' & At' & l' & Hl' & Vt' & Vl' & Ty'); try done.
  { tauto. } { tauto. }
  exists v, H', L'. split; [|by split_and!].
  assert (doc_fetch json (S f) scratch H d (Some (path_to json (leaves d) ts, None))
          = Ok (v, H', set_leaves L' d)) as F1.
  { unfold doc_fetch. cbn [fmap option_fmap option_map fst].
    rewrite (get_doc_leaf_path (S f) scratch d t ts) by (done || lia). rewrite Etip.
    cbn [addr mbind res_bind is_null negb]. by rewrite Eq. }
  assert (doc_fetch json (S f) scratch H' (set_leaves L' d) None
          = Ok (v, H', set_leaves L' d)) as F2.
  { unfold doc_fetch, get_doc_leaf, slot. cbn [fmap option_fmap option_map].
    change (where_path (set_leaves L' d)) with (where_path d).
    change (where_ (set_leaves L' d)) with (where_ d).
    change (leaves (set_leaves L' d)) with L'.
    rewrite Hcur. cbn [mbind res_bind is_null negb].
    rewrite (leaf_value_cached json f H' L' a l' Hl' Vt'). cbn [mbind res_bind].
    by rewrite Vl'. }
  unfold probe. unfold slot at 1. rewrite Hcur. cbn [mbind res_bind].
  rewrite (doc_where_chain json d t ts) by done. cbn [mbind res_bind].
  rewrite F1. cbn [mbind res_bind]. rewrite F2. done.
Qed.
End Skeleton.

(** ** The walk *)

Section Walk.
Variable json : list ascii.
Variables (pf : nat) (scratch : list ptr) (t : tree).

Lemma each_leaf_S {St} (blk : St → Doc → res (St * Doc)) f s d :
  each_leaf blk (S f) s d
  = (cur ← slot (where_path d) (where_ d);
     l ← deref (leaves d) cur;
     if bool_decide (value_type l = COL_VAL) then
       if negb (is_null (elements l)) then
         last ← deref (leaves d) (elements l);
         each_leaf_loop blk f s (set_where (S (where_ d)) d) (next last) (next last)
       else Ok (s, d)
     else blk s d).
Proof. done. Qed.

Lemma each_leaf_loop_S {St} (blk : St → Doc → res (St * Doc)) f s d e first :
  each_leaf_loop blk (S f) s d e first
  = (d ← set_cur e d;
     '(s, d) ← each_leaf blk f s d;
     l ← deref (leaves d) e;
     if decide (next l = first) then Ok (s, d)
     else each_leaf_loop blk f s d (next l) first).
Proof. done. Qed.

Lemma walks_node a ks :
  walks_kids json pf scratch t ks → walks json pf scratch t (Node a ks).
Proof.
  intros IH fuel H log d ts Hc Htip Hinv Hcomb Hh Hf Hpf Hsc.
  destruct (chain_slots d t ts Hc) as (_ & Hcur & Hlt). rewrite Htip in Hcur.
  cbn [addr] in Hcur. pose proof Hinv as (Hs & Hl & Hroot & Hok).
  pose proof Hc as (Hd & Hlk & Hw & Htk).
  destruct (linked_names json (leaves d) t ts Hs Hl Hlk) as (_ & _ & Hst & _).
  rewrite Htip in Hst. pose proof Hst as (l & Hla & Ht & Hcol & Hlit & Hk).
  destruct fuel as [|f]; [cbn in Hf; lia|]. rewrite each_leaf_S. unfold slot.
  rewrite Hcur. cbn [mbind res_bind deref]. rewrite Hla. cbn [mbind res_bind].
  destruct (decide (value_type l = COL_VAL)) as [Hcv|Hcv].
  - rewrite bool_decide_true by done. destruct ks as [|k0 rest].
    + rewrite (Hk Hcv). cbn [is_null negb]. exists H, [], d. rewrite app_nil_r.
      split_and!; try done; try (by apply Forall_nil).
      * by apply fetched_refl.
      * cbn [scalars]. rewrite (lookup_total_eq _ _ _ Hla).
        by rewrite bool_decide_true.
    + destruct (shape_kids _ _ _ _ Hst) as (l' & ll & Hla' & _ & _ & He & Hll & Hnx & Hr).
      rewrite Hla in Hla'. injection Hla' as <-.
      rewrite He. cbn [is_null negb deref]. rewrite Hll. cbn [mbind res_bind].
      rewrite Hnx.
      destruct (IH f H log (set_where (S (where_ d)) d) ts (addr k0))
        as (H' & log' & d' & Eq & F & Dd & Len & RT & Sc); try done.
      { cbn. by rewrite Hw. }
      { intros k j Hj. rewrite Htip. by exists j. }
      { cbn [height] in Hh.
        change (where_path (set_where (S (where_ d)) d)) with (where_path d). lia. }
      { cbn [weight] in Hf. lia. }
      cbn [head_addr] in Eq. exists H', log', d'. split_and!; try done.
      cbn [scalars]. rewrite (lookup_total_eq _ _ _ Hla).
      by rewrite bool_decide_true.
  - rewrite bool_decide_false by done.
    destruct (probe_leaf json pf scratch H log d t ts Hc Hinv) as (v & H' & L' & Eq & F).
    { rewrite Htip. cbn [addr]. by rewrite (lookup_total_eq _ _ _ Hla). }
    { lia. }
    { done. }
    rewrite Htip in Eq. cbn [addr] in Eq.
    eexists H', [_], (set_leaves L' d). split; [exact Eq|]. split_and!; try done.
    + by apply Forall_singleton.
    + cbn [scalars map v_leaf]. rewrite (lookup_total_eq _ _ _ Hla).
      by rewrite bool_decide_false.
Qed.

Lemma walks_cons k rest :
  walks json pf scratch t k → walks_kids json pf scratch t rest →
  walks_kids json pf scratch t (FCons k rest).
Proof.
  intros IHk IHr fuel H log d ts first Hd Hlk Hw Htk Hkid _
    (Hsk & (lk & Hlk' & Hn) & Hr) Hinv (Hck & Hlast & Hcr) Hh Hf Hpf Hsc.
  cbn [height_forest weight_forest] in Hh, Hf.
  destruct fuel as [|f]; [lia|]. rewrite each_leaf_loop_S. cbn [head_addr].
  unfold set_cur, store. rewrite decide_True by lia. cbn [mbind res_bind].
  set (d1 := set_where_path (<[where_ d := At (addr k)]> (where_path d)) d).
  assert (chain d1 t (ts ++ [k])) as Hc1.
  { split_and!; try done.
    - apply linked_snoc; [done|]. by apply (Hkid k 0%nat).
    - rewrite length_app. cbn. lia.
    - unfold d1. cbn [where_path set_where_path]. rewrite length_app. cbn [length].
      rewrite Nat.add_1_r, Hw.
      rewrite (take_S_r _ _ (At (addr k))) by (apply list_lookup_insert_eq; lia).
      rewrite take_insert_ge by lia. rewrite Htk.
      change (t :: ts ++ [k]) with ((t :: ts) ++ [k]). by rewrite map_app. }
  destruct (IHk f H log d1 (ts ++ [k]) Hc1)
    as (H1 & log1 & d2 & Eq1 & F1 & Dd1 & Len1 & RT1 & Sc1 & Cur1); try done.
  { apply tip_snoc. }
  { unfold d1. cbn [where_path set_where_path where_]. rewrite length_insert. lia. }
  { lia. }
  { unfold d1. cbn [where_path set_where_path]. by rewrite length_insert. }
  rewrite Eq1. cbn [mbind res_bind].
  change (leaves d1) with (leaves d) in *.
  pose proof F1 as (_ & S1 & C1 & _).
  destruct (proj2 S1 _ lk Hlk') as (lk2 & Hlk2 & (N2 & _)).
  cbn [deref]. rewrite Hlk2. cbn [mbind res_bind]. rewrite <- N2.
  assert (length (where_path d2) = length (where_path d)) as Len2.
  { rewrite Len1. unfold d1. cbn [where_path set_where_path]. by rewrite length_insert. }
  destruct rest as [|k' rest'].
  - rewrite Hn, decide_True by done. exists H1, log1, d2.
    split_and!; try done. cbn [scalars_forest]. by rewrite app_nil_r.
  - destruct Hn as [Hn Hne]. rewrite Hn, decide_False by congruence.
    assert (kids k = FNil) as Hleaf.
    { destruct (kids k); [done|]. by discriminate Hlast. }
    destruct (Cur1 Hleaf) as [Cw Cp].
    destruct (IHr f H1 (log ++ log1) d2 ts first)
      as (H2 & log2 & d3 & Eq2 & F2 & Dd2 & Len3 & RT2 & Sc2); try done.
    { by rewrite Dd1. }
    { by rewrite Cw. }
    { rewrite Cp. unfold d1. cbn [where_path set_where_path].
      rewrite take_insert_ge by lia. done. }
    { intros k1 j Hj. by apply (Hkid k1 (S j)). }
    { by eapply (shape_skel (leaves d) (leaves d2)). }
    { by eapply doc_inv_fetched. }
    { rewrite Len2. lia. }
    { lia. }
    { by rewrite Len2. }
    cbn [head_addr] in Eq2. rewrite Eq2, <- app_assoc.
    exists H2, (log1 ++ log2), d3. split_and!; try done.
    + by eapply fetched_trans.
    + by rewrite Dd2, Dd1.
    + by rewrite Len3.
    + by apply Forall_app.
    + rewrite map_app, Sc1, Sc2.
      by rewrite (proj2 (scalars_skel (leaves d) (leaves d2) S1)).
Qed.

Lemma walks_all :
  (∀ t', walks json pf scratch t t') ∧ (∀ ks, walks_kids json pf scratch t ks).
Proof.
  apply tree_mutind.
  - intros a ks IH. by apply walks_node.
  - by intros ????????????.
  - intros k IHk rest IHr. by apply walks_cons.
Qed.
End Walk.

(** ** Moving the cursor *)

Lemma linked_app_l p ts k :
  linked p (ts ++ [k]) → linked p ts ∧ kid_of (tip p ts) k.
Proof.
  revert p. induction ts as [|k' ts IH]; intros p.
  - by intros [? _].
  - intros [Hk' Hts]. rewrite tip_cons. destruct (IH k' Hts). by repeat split.
Qed.

Lemma linked_weight p ts : linked p ts → (weight (tip p ts) ≤ weight p)%nat.
Proof.
  revert p. induction ts as [|k ts IH]; intros p; [done|].
  intros [[j Hj] Hts]. rewrite tip_cons. specialize (IH k Hts).
  destruct p as [a ks]. cbn [kids weight] in *.
  pose proof (nth_kid_weight _ _ _ Hj). lia.
Qed.

Lemma comb_nth ks j k : comb_kids ks → nth_kid ks j = Some k → comb k.
Proof.
  revert j. induction ks as [|k0 rest IH] using forest_ind; intros j; [done|].
  intros (Hk & _ & Hr). destruct j as [|j]; cbn [nth_kid].
  - by intros [= <-].
  - by apply IH.
Qed.

Lemma comb_tip p ts : comb p → linked p ts → comb (tip p ts).
Proof.
  revert p. induction ts as [|k ts IH]; intros p; [done|].
  intros Hc [[j Hj] Hts]. rewrite tip_cons. apply IH; [|done].
  destruct p as [a ks]. by eapply comb_nth.
Qed.

Lemma chain_push d t ts k :
  chain d t ts → kid_of (tip t ts) k → (S (length ts) < length (where_path d))%nat →
  ∃ d1, push (At (addr k)) d = Ok d1 ∧ chain d1 t (ts ++ [k]) ∧
    leaves d1 = leaves d ∧ length (where_path d1) = length (where_path d).
Proof.
  intros (Hd & Hlk & Hw & Htk) Hk Hlen.
  unfold push, set_cur, store. cbn [where_ where_path set_where].
  rewrite decide_True by lia. cbn [mbind res_bind]. eexists. split; [done|].
  split; [|split; [done|cbn; by rewrite length_insert]].
  unfold chain. split_and!; try done.
  - by apply linked_snoc.
  - cbn. rewrite length_app. cbn. lia.
  - cbn [where_path set_where_path set_where]. rewrite length_app. cbn [length].
    rewrite Nat.add_1_r, Hw.
    rewrite (take_S_r _ _ (At (addr k))) by (apply list_lookup_insert_eq; lia).
    rewrite take_insert_ge by lia. rewrite Htk.
    change (t :: ts ++ [k]) with ((t :: ts) ++ [k]). by rewrite map_app.
Qed.

Lemma chain_pop d t ts k :
  chain d t (ts ++ [k]) →
  ∃ d1, pop d = Ok d1 ∧ chain d1 t ts ∧ leaves d1 = leaves d ∧
    length (where_path d1) = length (where_path d).
Proof.
  intros Hc. destruct (chain_slots _ _ _ Hc) as (_ & _ & Hlt).
  destruct Hc as (Hd & Hlk & Hw & Htk). rewrite length_app in Hw, Htk.
  cbn [length] in Hw, Htk. rewrite Nat.add_1_r in Hw, Htk.
  unfold pop, set_cur, store. rewrite decide_True by lia. cbn [mbind res_bind].
  eexists. split; [done|].
  split; [|split; [done|cbn; by rewrite length_insert]].
  unfold chain. split_and!; try done.
  - by destruct (linked_app_l _ _ _ Hlk).
  - cbn. lia.
  - cbn [where_path set_where_path set_where where_]. rewrite Hw.
    rewrite take_insert_ge by lia.
    replace (S (length ts)) with (Nat.min (S (length ts)) (S (S (length ts)))) at 1 by lia.
    rewrite <- take_take, Htk.
    change (t :: ts ++ [k]) with ((t :: ts) ++ [k]). rewrite map_app.
    rewrite take_app_length'; [done|]. by rewrite length_map.
Qed.

Lemma skip_slash_le path : (length (skip_slash path) ≤ length path)%nat.
Proof.
  unfold skip_slash. destruct (Ascii.eqb _ _); [|done]. rewrite length_drop. lia.
Qed.

Lemma read_index_le cnt path :
  (length (snd (read_index cnt path)) ≤ length path)%nat.
Proof.
  revert cnt. induction path as [|c path IH]; intros cnt; [done|].
  cbn [read_index]. destruct (is_digit c); [|done].
  specialize (IH (int (cnt * 10 + (code c - code "0")))). cbn [length]. lia.
Qed.

(** A step that is read leaves less of the path. *)
Lemma array_step_shorter path :
  Ascii.eqb (chr0 path) NUL = false →
  let path1 := snd (read_index 0 path) in
  negb (Ascii.eqb (chr0 path1) "/") && negb (Ascii.eqb (chr0 path1) NUL) = false →
  (length (skip_slash path1) < length path)%nat.
Proof.
  intros Hn path1 Hc. destruct path as [|c path]; [done|].
  unfold path1 in *. cbn [read_index] in *. destruct (is_digit c).
  - pose proof (read_index_le (int (0 * 10 + (code c - code "0"))) path).
    pose proof (skip_slash_le (snd (read_index (int (0 * 10 + (code c - code "0"))) path))).
    cbn [length]. lia.
  - cbn [snd chr0 hd] in *. rewrite Hn in Hc. unfold skip_slash. cbn [chr0 hd].
    destruct (Ascii.eqb c "/"); [|done]. rewrite length_drop. cbn [length]. lia.
Qed.

Lemma strlen_pos c path : Ascii.eqb c NUL = false → (0 < strlen (c :: path))%nat.
Proof. intros Hc. cbn [strlen]. rewrite Hc. lia. Qed.

Lemma key_step_shorter path :
  Ascii.eqb (chr0 path) NUL = false →
  (length (snd (key_step path)) < length path)%nat.
Proof.
  intros Hn. destruct path as [|c path]; [done|]. cbn [chr0 hd] in Hn.
  unfold key_step. destruct (strchr (c :: path) "/") as [klen|].
  - cbn [snd]. rewrite length_drop. cbn [length]. lia.
  - cbn [snd]. rewrite length_drop. pose proof (strlen_pos c path Hn). cbn [length]. lia.
Qed.

Lemma linked_shape L p ts : shape L p → linked p ts → shape L (tip p ts).
Proof.
  revert p. induction ts as [|k ts IH]; intros p; [done|].
  intros Hs [Hk Hts]. rewrite tip_cons. apply IH; [|done]. by eapply shape_kid.
Qed.

Lemma moved_stay t d ts loc : chain d t ts → moved t d d loc.
Proof. intros Hc. split_and!; try done. intros _. by exists ts. Qed.

Section Move.
Variable json : list ascii.
Variable t : tree.

(** The end of an ARRAY or HASH step: onto the child, on with the rest
    of the path, and back if that fails. *)
Lemma move_into f d ts k path loc :
  (∀ d1 ts1, chain d1 t ts1 → leaves d1 = leaves d →
     length (where_path d1) = length (where_path d) →
     ∃ d2 loc2, move_step json f d1 path loc = Ok (d2, loc2) ∧ moved t d1 d2 loc2) →
  chain d t ts → kid_of (tip t ts) k → (height t < length (where_path d))%nat →
  ∃ d' loc',
    (d1 ← push (At (addr k)) d;
     '(d2, loc2) ← move_step json f d1 path loc;
     if decide (loc2 ≠ 0) then d3 ← pop d2; Ok (d3, loc2) else Ok (d2, loc2))
    = Ok (d', loc') ∧ moved t d d' loc'.
Proof.
  intros IH Hc Hk Hh.
  assert (linked t (ts ++ [k])) as Hlk by (apply linked_snoc; [apply Hc|done]).
  pose proof (linked_height _ _ Hlk) as Hlh. rewrite length_app in Hlh. cbn in Hlh.
  destruct (chain_push d t ts k Hc Hk) as (d1 & -> & Hc1 & Hl1 & Hn1); [lia|].
  cbn [mbind res_bind].
  destruct (IH d1 _ Hc1 Hl1 Hn1) as (d2 & loc2 & -> & Hl2 & Hn2 & Hok & Hfail).
  cbn [mbind res_bind]. destruct (decide (loc2 ≠ 0)) as [Hne|He].
  - specialize (Hfail Hne).
    destruct Hc1 as (_ & _ & Hw1 & _). rewrite length_app in Hw1. cbn in Hw1.
    unfold pop, set_cur, store. rewrite decide_True by lia. cbn [mbind res_bind].
    eexists _, loc2. split; [done|]. destruct Hc as (_ & _ & Hw & _).
    split_and!; cbn; try congruence.
    + rewrite length_insert. congruence.
    + lia.
  - exists d2, loc2. split; [done|].
    split_and!; [congruence|congruence|exact Hok|by intros ?].
Qed.

Lemma move_step_chain fuel :
  ∀ path d ts loc,
    chain d t ts → shape (leaves d) t →
    (length path + weight t < fuel)%nat → (height t < length (where_path d))%nat →
    ∃ d' loc', move_step json fuel d path loc = Ok (d', loc') ∧ moved t d d' loc'.
Proof.
  induction fuel as [|f IH]; intros path d ts loc Hc Hs Hf Hh; [lia|].
  cbn [move_step].
  destruct (Ascii.eqb (chr0 path) NUL) eqn:Hn.
  { exists d, 0. split; [done|]. by eapply moved_stay. }
  assert (0 < length path)%nat as Hpos by (destruct path; [done|cbn; lia]).
  destruct (chain_slots d t ts Hc) as (_ & Hcur & Hlt).
  unfold slot. rewrite Hcur. cbn [mbind res_bind is_null].
  assert (∃ d' loc', (Ok (d, loc) : res (Doc * Z)) = Ok (d', loc') ∧ moved t d d' loc')
    as Hstay.
  { exists d, loc. split; [done|]. by eapply moved_stay. }
  assert (∀ path' loc1 d1 ts1,
            (length path' < length path)%nat →
            chain d1 t ts1 → leaves d1 = leaves d →
            length (where_path d1) = length (where_path d) →
            ∃ d2 loc2, move_step json f d1 path' loc1 = Ok (d2, loc2) ∧
              moved t d1 d2 loc2) as IH'.
  { intros path' loc1 d1 ts1 Hp Hc1 Hl1 Hn1. apply (IH path' d1 ts1 loc1); try done.
    - by rewrite Hl1.
    - lia.
    - by rewrite Hn1. }
  destruct (dotdot path) eqn:Hdd.
  - destruct (decide (where_ d = 0%nat)) as [Hz|Hz]; [done|].
    destruct (exists_last (l:=ts)) as (ts0 & k & ->).
    { intros ->. by destruct Hc as (_ & _ & ? & _). }
    destruct (chain_pop d t ts0 k Hc) as (d1 & -> & Hc1 & Hl1 & Hn1).
    cbn [mbind res_bind].
    destruct (IH' (skip_slash (drop 2 path)) (int (loc + 1)) d1 ts0)
      as (d2 & loc2 & -> & Hl2 & Hn2 & Hok & Hfail); try done.
    { pose proof (skip_slash_le (drop 2 path)). rewrite length_drop in *. lia. }
    cbn [mbind res_bind]. destruct (decide (loc2 ≠ 0)) as [Hne|He].
    + specialize (Hfail Hne). destruct (chain_slots _ _ _ Hc1) as (_ & _ & Hlt1).
      unfold set_cur, store. rewrite decide_True by lia. cbn [mbind res_bind].
      eexists _, loc2. split; [done|]. destruct Hc as (_ & _ & Hw & _).
      destruct Hc1 as (_ & _ & Hw1 & _). rewrite length_app in Hw. cbn in Hw.
      split_and!; cbn; try congruence.
      * rewrite length_insert. congruence.
      * lia.
    + exists d2, loc2. split; [done|].
      split_and!; [congruence|congruence|exact Hok|by intros ?].
  -     pose proof (linked_shape _ _ _ Hs (proj1 (proj2 Hc))) as Hst.
    pose proof (linked_weight _ _ (proj1 (proj2 Hc))) as Hwt.
    destruct (tip t ts) as [a ks] eqn:Etip. cbn [addr] in *.
    pose proof Hst as (l & Hla & Ht & Hcol & Hlit & Hk).
    cbn [deref]. rewrite Hla. cbn [mbind res_bind].
    destruct (bool_decide (value_type l = COL_VAL) && negb (is_null (elements l)))
      eqn:Hcond; [|done].
    apply andb_true_iff in Hcond as [Hcv%bool_decide_eq_true Hel].
    destruct ks as [|k0 rest]; [by rewrite (Hk Hcv) in Hel|].
    destruct (shape_kids _ _ _ _ Hst) as (l' & ll & Hla' & _ & _ & He & Hll & Hnx & Hr).
    rewrite Hla in Hla'. injection Hla' as <-.
    rewrite He. cbn [deref]. rewrite Hll. cbn [mbind res_bind]. rewrite Hnx.
    cbn [weight] in Hwt.
    destruct (type l); try exact Hstay.
    + destruct (read_index 0 path) as [cnt path1] eqn:Er.
      destruct (negb _ && negb _) eqn:Hck; [exact Hstay|].
      destruct (nth_sibling_kid (leaves d) (addr k0) _ f cnt Hr) as (r & Er' & Hkid);
        [done|lia|].
      cbn [head_addr] in Er'. rewrite Er'. cbn [mbind res_bind].
      destruct r as [e|]; [|exact Hstay]. destruct (Hkid e eq_refl) as (j & k & Hj & ->).
      apply (move_into f d ts k (skip_slash path1) (int (loc + 1))); try done.
      * intros d1 ts1 Hc1 Hl1 Hn1. apply (IH' _ _ d1 ts1); try done.
        pose proof (array_step_shorter path Hn) as Hsh. rewrite Er in Hsh.
        cbn [snd] in Hsh. by apply Hsh.
      * rewrite Etip. by exists j.
    + destruct (key_step path) as [klen path'] eqn:Ek.
      destruct (find_key_kid json (leaves d) (addr k0) _ f path klen Hr) as (r & Er' & Hkid);
        [done|lia|].
      cbn [head_addr] in Er'. rewrite Er'. cbn [mbind res_bind].
      destruct r as [e|]; [|exact Hstay]. destruct (Hkid e eq_refl) as (j & k & Hj & ->).
      apply (move_into f d ts k path' (int (loc + 1))); try done.
      * intros d1 ts1 Hc1 Hl1 Hn1. apply (IH' _ _ d1 ts1); try done.
        pose proof (key_step_shorter path Hn) as Hsh. by rewrite Ek in Hsh.
      * rewrite Etip. by exists j.
Qed.
End Move.

(** ** The round trip *)

Lemma chain_home d t ts : chain d t ts → chain (set_where 0 d) t [].
Proof.
  intros Hc. destruct (chain_slots d t ts Hc) as (H0 & _ & _).
  destruct Hc as (Hd & _ & _ & _). split_and!; try done.
  cbn [where_path set_where length]. by rewrite (take_S_r _ _ _ H0).
Qed.

Section RoundTripProof.
Variable json : list ascii.

(** From any node the cursor is on: [each_leaf] yields the leaves below
    it, each with a path that fetches it. *)
Lemma each_leaf_round_trips fuel pf scratch H d t ts :
  chain d t ts → doc_inv json H (leaves d) t → comb t →
  (height t < length (where_path d))%nat →
  (length (where_path d) ≤ length scratch)%nat →
  (weight t < pf)%nat → (weight t ≤ fuel)%nat →
  ∃ H' log d',
    each_leaf (probe json pf scratch) fuel (H, []) d = Ok (H', log, d') ∧
    round_trips log ∧ map v_leaf log = scalars (leaves d) (tip t ts).
Proof.
  intros Hc Hinv Hcomb Hh Hsc Hpf Hf.
  pose proof (proj1 (proj2 Hc)) as Hlk.
  pose proof (linked_height _ _ Hlk). pose proof (linked_weight _ _ Hlk).
  destruct (proj1 (walks_all json pf scratch t) (tip t ts) fuel H [] d ts)
    as (H' & log & d' & Eq & _ & _ & _ & RT & Sc & _); try done.
  { by apply comb_tip. }
  { destruct Hc as (_ & _ & -> & _). lia. }
  { lia. }
  by exists H', log, d'.
Qed.
End RoundTripProof.




(** After a nested array the cursor is one slot too deep (the walk does
    not step back), and the next leaf is noted under the path of the
    last leaf of the nested array. *)
Example each_leaf_after_nested :
  open_each_leaf (dq "[[1,2],3]") None
  = Ok [mkVisit (At 3) (dq "/1/1") (Fixnum 1) (Fixnum 1);
        mkVisit (At 5) (dq "/1/2") (Fixnum 2) (Fixnum 2);
        mkVisit (At 7) (dq "/1/2") (Fixnum 2) (Fixnum 3)].
Proof. reflexivity. Qed.

(** The example of the comment of [doc_each_leaf], and a walk from a
    starting path. *)
Example each_leaf_321 :
  open_each_leaf (dq "[3,[2,1]]") None
  = Ok [mkVisit (At 2) (dq "/1") (Fixnum 3) (Fixnum 3);
        mkVisit (At 5) (dq "/2/1") (Fixnum 2) (Fixnum 2);
        mkVisit (At 7) (dq "/2/2") (Fixnum 1) (Fixnum 1)] ∧
  open_each_leaf (dq "[3,[2,1]]") (Some (dq "/2"))
  = Ok [mkVisit (At 5) (dq "/2/1") (Fixnum 2) (Fixnum 2);
        mkVisit (At 7) (dq "/2/2") (Fixnum 1) (Fixnum 1)].
Proof. split; reflexivity. Qed.

(** ** [each_value] *)

Lemma set_leaves_id d : set_leaves (leaves d) d = d.
Proof. by destruct d. Qed.

Lemma yields_kept L L' vs ps : cache_kept L L' → yields L vs ps → yields L' vs ps.
Proof.
  intros Hc. induction 1 as [|v p vs ps (a & l & -> & Hl & Hv & Hval) _ IH];
    constructor; [|done].
  exists a, l. split_and!; try done. by apply Hc.
Qed.

Section Values.
Variable json : list ascii.

Lemma each_value_S {St}
    (blk : St → list RObject → Doc → VALUE → res (St * list RObject * Doc)) f s H d leaf :
  each_value json blk (S f) s H d leaf
  = (l ← deref (leaves d) leaf;
     if bool_decide (value_type l = COL_VAL) then
       if negb (is_null (elements l)) then
         last ← deref (leaves d) (elements l);
         each_value_loop json blk f s H d (next last) (next last)
       else Ok (s, H, d)
     else
       '(v, H, L) ← leaf_value json (S f) H (leaves d) leaf;
       blk s H (set_leaves L d) v).
Proof. done. Qed.

Lemma each_value_loop_S {St}
    (blk : St → list RObject → Doc → VALUE → res (St * list RObject * Doc))
    f s H d e first :
  each_value_loop json blk (S f) s H d e first
  = ('(s, H, d) ← each_value json blk f s H d e;
     l ← deref (leaves d) e;
     if decide (next l = first) then Ok (s, H, d)
     else each_value_loop json blk f s H d (next l) first).
Proof. done. Qed.

Lemma values_node a ks : values_of_kids json ks → values_of json (Node a ks).
Proof.
  intros IH fuel s H d Hs Hok Hf. pose proof Hs as (l & Hla & Ht & Hcol & Hlit & Hk).
  destruct fuel as [|f]; [cbn in Hf; lia|]. rewrite each_value_S. cbn [addr deref].
  rewrite Hla. cbn [mbind res_bind].
  destruct (decide (value_type l = COL_VAL)) as [Hcv|Hcv].
  - rewrite bool_decide_true by done. destruct ks as [|k0 rest].
    + rewrite (Hk Hcv). cbn [is_null negb]. exists [], H, (leaves d).
      rewrite app_nil_r, set_leaves_id. split_and!; try done.
      * by apply fetched_refl.
      * cbn [scalars]. rewrite (lookup_total_eq _ _ _ Hla).
        rewrite bool_decide_true by done. constructor.
    + destruct (shape_kids _ _ _ _ Hs) as (l' & ll & Hla' & _ & _ & He & Hll & Hnx & Hr).
      rewrite Hla in Hla'. injection Hla' as <-.
      rewrite He. cbn [is_null negb deref]. rewrite Hll. cbn [mbind res_bind].
      rewrite Hnx.
      destruct (IH f s H d (addr k0)) as (vs & H' & L' & Eq & F & Y); try done.
      { cbn [weight] in Hf. lia. }
      cbn [head_addr] in Eq. exists vs, H', L'. split_and!; try done.
      cbn [scalars]. rewrite (lookup_total_eq _ _ _ Hla).
      by rewrite bool_decide_true.
  - rewrite bool_decide_false by done.
    destruct (leaf_value_scalar json f H (leaves d) a l) as
      (v & H' & L' & Eq & E' & S' & C' & Ok' & At' & l' & Hl' & Vt' & Vl' & Ty'); try done.
    { tauto. } { tauto. }
    rewrite Eq. cbn [mbind res_bind]. exists [v], H', L'. split; [done|].
    split; [by split_and!|].
    cbn [scalars]. rewrite (lookup_total_eq _ _ _ Hla).
    rewrite bool_decide_false by done. constructor; [|constructor].
    by exists a, l'.
Qed.

Lemma values_cons k rest :
  values_of json k → values_of_kids json rest → values_of_kids json (FCons k rest).
Proof.
  intros IHk IHr fuel s H d first _ (Hsk & (lk & Hlk & Hn) & Hr) Hok Hf.
  cbn [weight_forest] in Hf. destruct fuel as [|f]; [lia|].
  rewrite each_value_loop_S. cbn [head_addr].
  destruct (IHk f s H d Hsk Hok) as (vs1 & H1 & L1 & -> & F1 & Y1); [lia|].
  cbn [mbind res_bind]. pose proof F1 as (_ & S1 & C1 & Ok1).
  destruct (proj2 S1 _ lk Hlk) as (lk1 & Hlk1 & (N1 & _)).
  change (leaves (set_leaves L1 d)) with L1. cbn [deref]. rewrite Hlk1.
  cbn [mbind res_bind]. rewrite <- N1.
  destruct rest as [|k' rest'].
  - rewrite Hn, decide_True by done. exists vs1, H1, L1. split_and!; try done.
    cbn [scalars_forest]. by rewrite app_nil_r.
  - destruct Hn as [Hn Hne]. rewrite Hn, decide_False by congruence.
    destruct (IHr f (s ++ vs1) H1 (set_leaves L1 d) first)
      as (vs2 & H2 & L2 & Eq & F2 & Y2); try done.
    { by eapply (shape_skel (leaves d) L1). }
    { lia. }
    cbn [head_addr] in Eq. rewrite Eq, <- app_assoc.
    change (leaves (set_leaves L1 d)) with L1 in *.
    exists (vs1 ++ vs2), H2, L2. split; [done|]. split; [by eapply fetched_trans|].
    change (scalars_forest (leaves d) (FCons k (FCons k' rest')))
      with (scalars (leaves d) k ++ scalars_forest (leaves d) (FCons k' rest')).
    apply Forall2_app.
    + eapply yields_kept; [|exact Y1]. apply F2.
    + by rewrite <- (proj2 (scalars_skel (leaves d) L1 S1)).
Qed.

Lemma values_all : (∀ t, values_of json t) ∧ (∀ ks, values_of_kids json ks).
Proof.
  apply tree_mutind.
  - intros a ks IH. by apply values_node.
  - by intros ??????.
  - intros k IHk rest IHr. by apply values_cons.
Qed.
End Values.

(** ** [each_child], [local_key], [home] *)

Lemma last_addr_list a ks :
  last_addr a ks = List.last (map addr (forest_list ks)) a.
Proof.
  revert a. induction ks as [|k rest IH] using forest_ind; intros a; [done|].
  cbn [last_addr forest_list map]. rewrite IH.
  destruct (map addr (forest_list rest)) eqn:E; [done|].
  change (List.last (addr k :: n :: l) a) with (List.last (n :: l) a).
  clear. revert n. induction l as [|m l IH]; intros n; [done|].
  change (List.last (n :: m :: l) (addr k)) with (List.last (m :: l) (addr k)).
  change (List.last (n :: m :: l) a) with (List.last (m :: l) a). apply IH.
Qed.

(** The loop of [doc_each_child] with the noting block: every child is
    yielded with the cursor on it, one slot below the parent; the slot is
    left holding the last child. *)
Lemma each_child_loop_notes ks :
  ∀ fuel log d first n,
    where_ d = S n → (S n < length (where_path d))%nat →
    ks ≠ FNil → ring (leaves d) first ks → (weight_forest ks ≤ fuel)%nat →
    each_child_loop note_cursor fuel log d (At (head_addr ks)) (At first)
    = Ok (log ++ map (λ k, take (S n) (where_path d) ++ [At (addr k)]) (forest_list ks),
          set_where_path (<[S n := At (last_addr 0 ks)]> (where_path d)) d).
Proof.
  induction ks as [|k rest IH] using forest_ind; intros fuel log d first n Hw Hlen Hne
    Hring Hf; [done|]. destruct Hring as (Hs & (lk & Hlk & Hn) & Hr).
  cbn [weight_forest] in Hf. destruct fuel as [|f]; [lia|].
  destruct d as [dt w wp sz L].
  cbn [where_ where_path leaves set_where_path] in *. subst w.
  cbn [each_child_loop head_addr]. unfold set_cur, store.
  cbn [where_ where_path leaves set_where_path].
  rewrite decide_True by done. cbn [mbind res_bind]. unfold note_cursor.
  cbn [where_ where_path set_where_path leaves mbind res_bind deref]. rewrite Hlk.
  cbn [mbind res_bind].
  rewrite (take_S_r _ _ (At (addr k))) by (by apply list_lookup_insert_eq).
  rewrite take_insert_ge by lia.
  destruct rest as [|k' rest'].
  - rewrite Hn, decide_True by done. done.
  - destruct Hn as [Hn Hne']. rewrite Hn, decide_False by congruence.
    etrans.
    { apply (IH f (log ++ [take (S n) wp ++ [At (addr k)]])
               (mkDoc dt (S n) (<[S n := At (addr k)]> wp) sz L) first n); try done.
      - cbn. by rewrite length_insert.
      - lia. }
    cbn [where_path].
    rewrite take_insert_ge by lia. rewrite list_insert_insert_eq.
    cbn [forest_list map last_addr]. rewrite <- app_assoc. cbn [app].
    do 2 f_equal.
Qed.

Section Keys.
Variable json : list ascii.

Lemma each_child_notes d t ts fuel :
  chain d t ts → shape (leaves d) t →
  (S (where_ d) < length (where_path d))%nat → (weight (tip t ts) ≤ fuel)%nat →
  let ks := kids (tip t ts) in
  each_child note_cursor fuel [] d
  = Ok (map (λ k, map (λ k, At (addr k)) (t :: ts ++ [k])) (forest_list ks),
        match ks with
        | FNil => d
        | _ => set_where_path (<[S (where_ d) := At (last_addr 0 ks)]> (where_path d))
                 (set_where (S (where_ d)) d)
        end).
Proof.
  intros Hc Hs Hlen Hf ks. destruct (chain_slots d t ts Hc) as (_ & Hcur & _).
  pose proof (linked_shape _ _ _ Hs (proj1 (proj2 Hc))) as Hst.
  destruct Hc as (Hd & Hlk & Hw & Htk). unfold ks. clear ks.
  destruct (tip t ts) as [a ks] eqn:Etip. cbn [addr kids] in *.
  pose proof Hst as (l & Hla & Ht & Hcol & Hlit & Hk).
  unfold each_child, slot. rewrite Hcur. cbn [mbind res_bind deref]. rewrite Hla.
  cbn [mbind res_bind]. destruct ks as [|k0 rest].
  - destruct (decide (value_type l = COL_VAL)) as [Hcv|Hcv].
    + rewrite (Hk Hcv). by rewrite andb_false_r.
    + by rewrite bool_decide_false.
  - destruct (shape_kids _ _ _ _ Hst) as (l' & ll & Hla' & Hcv & _ & He & Hll & Hnx & Hr).
    rewrite Hla in Hla'. injection Hla' as <-.
    rewrite bool_decide_true by done. rewrite He. cbn [is_null negb andb deref].
    rewrite Hll. cbn [mbind res_bind]. rewrite Hnx.
    pose proof (each_child_loop_notes (FCons k0 rest) fuel []
                  (set_where (S (where_ d)) d) (addr k0) (where_ d)) as E.
    cbn [head_addr where_ where_path set_where leaves] in E.
    rewrite E; try done; [|cbn [weight] in Hf; lia].
    cbn [app]. f_equal. f_equal. apply map_ext. intros k.
    rewrite Hw, Htk. change (t :: ts ++ [k]) with ((t :: ts) ++ [k]).
    by rewrite map_app.
Qed.

Lemma doc_home_move d fuel :
  where_path d !! 0%nat = Some (data d) →
  doc_home d = Ok (set_where 0 d) ∧
  doc_move json (S fuel) d ["/"%char] = Ok (set_where 0 d, Ok Qnil) ∧
  doc_where json (set_where 0 d) = Ok ["/"%char].
Proof.
  intros H0. split_and!.
  - unfold doc_home, store. rewrite decide_True by (by eapply lookup_lt_Some).
    cbn [mbind res_bind]. rewrite list_insert_id by done. by destruct d.
  - done.
  - unfold doc_where, slot. cbn [where_path set_where where_]. rewrite H0.
    cbn [mbind res_bind]. rewrite bool_decide_true by done. by rewrite orb_true_r.
Qed.
End Keys.

(** ** Properties of the traversals and of the keys *)

Ltac shape_by_computation :=
  cbn; repeat first [split | eexists | discriminate
                    | intros [?|[?|?]]; discriminate | intros [?|?]; discriminate
                    | intros ?; discriminate | intros ?; (left + right); reflexivity
                    | reflexivity].

Ltac located_by_computation :=
  cbn; repeat first [split | reflexivity | discriminate
                    | intros Hin; repeat (apply elem_of_cons in Hin as [Hin|Hin];
                                          [discriminate|]);
                      by apply elem_of_nil in Hin].

Lemma heap_ok_session_ab : heap_ok [] (leaves (pi_doc session_ab)).
Proof.
  intros a l Hl Hv o Ho.
  do 6 (destruct a as [|a]; [injection Hl as <-; discriminate|]). discriminate.
Qed.

Lemma doc_inv_session_ab :
  doc_inv (pi_str session_ab) [] (leaves (pi_doc session_ab)) tree_ab.
Proof.
  split_and!; [shape_by_computation|located_by_computation|reflexivity|].
  apply heap_ok_session_ab.
Qed.

Lemma join_steps_snoc names x :
  names ≠ [] → join_steps (names ++ [x]) = join_steps names ++ "/"%char :: x.
Proof.
  induction names as [|n names IH]; [done|]. intros _.
  destruct names as [|m ns]; [done|].
  change ((n :: m :: ns) ++ [x]) with (n :: ((m :: ns) ++ [x])).
  rewrite (join_steps_cons n ((m :: ns) ++ [x])), IH by done.
  rewrite (join_steps_cons n (m :: ns)). cbn [app]. by rewrite <- app_assoc.
Qed.

Section TraversalProperties.
Variable json : list ascii.


(** X2.  [each_child] without a path, from a cursor on a node of the
    document: the block is called once for every child, in order, with the
    cursor on that child one slot below the node; a leaf or an empty
    collection yields nothing and leaves the document as it was.  When
    there are children the call returns with the cursor still one slot
    down, on the last child. *)
Theorem X2_each_child_visits_children d t ts fuel :
  chain d t ts → shape (leaves d) t →
  (S (where_ d) < length (where_path d))%nat → (weight (tip t ts) ≤ fuel)%nat →
  doc_each_child json note_cursor fuel [] d None
  = Ok (map (λ k, map (λ k, At (addr k)) (t :: ts ++ [k])) (forest_list (kids (tip t ts))),
        match kids (tip t ts) with
        | FNil => d
        | ks => set_where_path (<[S (where_ d) := At (last_addr 0 ks)]> (where_path d))
                  (set_where (S (where_ d)) d)
        end).
Proof.
  intros Hc Hs Hlen Hf. unfold doc_each_child.
  rewrite (each_child_notes d t ts fuel Hc Hs Hlen Hf). cbn [mbind res_bind].
  f_equal. f_equal. unfold restore_path. rewrite length_take_le by lia.
  destruct (kids (tip t ts)).
  - rewrite take_drop. by destruct d.
  - cbn [where_path set_where_path set_where].
    rewrite <- (take_insert_ge _ _ (S (where_ d)) (At (last_addr 0 (FCons t0 f)))) by lia.
    by rewrite take_drop.
Qed.

(** X3.  At a child of an array or object, [local_key] reads as the last
    step of [where?]: the member name as a new String, or the position as
    a Fixnum. *)
Theorem X3_local_key_is_last_step H d t ts k :
  chain d t (ts ++ [k]) → doc_inv json H (leaves d) t →
  ∃ v H' pre,
    doc_local_key json H d = Ok (v, H') ∧
    key_text H' v = Some (step_name json (leaves d) k) ∧
    doc_where json d = Ok (pre ++ "/"%char :: step_name json (leaves d) k).
Proof.
  intros Hc (Hs & Hl & Hroot & Hok).
  destruct (chain_slots _ _ _ Hc) as (_ & Hcur & _). rewrite tip_snoc in Hcur.
  pose proof (proj1 (proj2 Hc)) as Hlk.
  destruct (linked_app_l _ _ _ Hlk) as [Hlts Hkid].
  destruct (linked_names json (leaves d) t ts Hs Hl Hlts) as (_ & _ & Hsp & Hlp).
  destruct (tip t ts) as [a [|k0 rest]] eqn:Etip; destruct Hkid as [j Hj]; [done|].
  cbn [kids] in Hj.
  destruct (shape_kids _ _ _ _ Hsp) as (l & ll & Hla & Hcv & Ht & He & Hll & Hnx & Hr).
  destruct (ring_nth _ _ _ _ _ Hr Hj) as (Hsk & lk & Hlkk).
  cbn [located] in Hlp. rewrite (lookup_total_eq _ _ _ Hla) in Hlp.
  destruct (located_nth json _ _ _ _ _ _ Hlp Hj) as (_ & Hp & Ha & Hh).
  rewrite (lookup_total_eq _ _ _ Hlkk) in Hp, Ha, Hh.
  assert (∃ pre, doc_where json d
                 = Ok (pre ++ "/"%char :: step_name json (leaves d) k)) as [pre Hwh].
  { rewrite (doc_where_chain json d t (ts ++ [k])) by done. unfold path_to.
    rewrite map_app. cbn [map]. destruct (map (step_name json (leaves d)) ts) as [|n ns].
    - by exists [].
    - exists ("/"%char :: join_steps (n :: ns)).
      by rewrite (join_steps_snoc (n :: ns)). }
  unfold doc_local_key, slot. rewrite Hcur. cbn [mbind res_bind deref].
  rewrite Hlkk. cbn [mbind res_bind]. rewrite Hp.
  unfold step_name in *. rewrite (lookup_total_eq _ _ _ Hlkk), Hp in *.
  destruct Ht as [Ht|Ht]; rewrite Ht in *.
  - destruct (Ha eq_refl) as [Hi Hb].
    assert (int64 (index lk) = index lk) as -> by (unfold int64; rewrite Z.mod_small; lia).
    unfold rb_int. rewrite (proj2 (andb_true_iff _ _)).
    + by exists (Fixnum (index lk)), H, pre.
    + unfold FIXNUM_MIN, FIXNUM_MAX. split; apply Z.leb_le; lia.
  - exists (Ref (length H)), (H ++ [RString (cstr_at json (key lk))]), pre.
    split; [done|]. split; [|done]. cbn [key_text rb_str_bytes].
    rewrite lookup_app_r by lia. by rewrite Nat.sub_diag.
Qed.

(** X4.  [home] does what [move("/")] does: the cursor is at the root,
    where [where?] is the slash, and nothing else of the document changes. *)
Theorem X4_home_is_move_to_root d fuel :
  where_path d !! 0%nat = Some (data d) →
  doc_home d = Ok (set_where 0 d) ∧
  doc_move json (S fuel) d ["/"%char] = Ok (set_where 0 d, Ok Qnil) ∧
  doc_where json (set_where 0 d) = Ok ["/"%char].
Proof. apply doc_home_move. Qed.
End TraversalProperties.


Lemma X2_witness :
  doc_each_child (pi_str session_ab) note_cursor 20 [] (pi_doc session_ab) None
  = Ok (map (λ k, map (λ k, At (addr k)) (tree_ab :: [] ++ [k]))
          (forest_list (kids (tip tree_ab []))),
        match kids (tip tree_ab []) with
        | FNil => pi_doc session_ab
        | ks => set_where_path
                  (<[S (where_ (pi_doc session_ab)) := At (last_addr 0 ks)]>
                     (where_path (pi_doc session_ab)))
                  (set_where (S (where_ (pi_doc session_ab))) (pi_doc session_ab))
        end).
Proof.
  apply (X2_each_child_visits_children (pi_str session_ab) (pi_doc session_ab)
           tree_ab [] 20).
  - by repeat split.
  - shape_by_computation.
  - vm_compute. lia.
  - vm_compute. lia.
Defined.

Lemma X3_witness :
  ∃ v H' pre,
    doc_local_key (pi_str session_ab) [] session_ab_b = Ok (v, H') ∧
    key_text H' v = Some (step_name (pi_str session_ab) (leaves session_ab_b)
                            (Node 5 FNil)) ∧
    doc_where (pi_str session_ab) session_ab_b
    = Ok (pre ++ "/"%char :: step_name (pi_str session_ab) (leaves session_ab_b)
                                (Node 5 FNil)).
Proof.
  apply (X3_local_key_is_last_step (pi_str session_ab) [] session_ab_b tree_ab
           [tree_ab_a; tree_ab_2] (Node 5 FNil)).
  - split_and!; try reflexivity. cbn. repeat split; by (exists 0%nat + exists 1%nat).
  - apply doc_inv_session_ab.
Defined.

Lemma X4_witness :
  doc_home session_ab_a = Ok (set_where 0 session_ab_a) ∧
  doc_move (pi_str session_ab) 1 session_ab_a ["/"%char]
  = Ok (set_where 0 session_ab_a, Ok Qnil) ∧
  doc_where (pi_str session_ab) (set_where 0 session_ab_a) = Ok ["/"%char].
Proof.
  apply (X4_home_is_move_to_root (pi_str session_ab) session_ab_a 0). reflexivity.
Defined.

(** ** Integers *)

Lemma digit_value c : is_digit c = true → 0 ≤ code c - code "0" ≤ 9.
Proof.
  unfold is_digit. intros [H1 H2]%andb_true_iff.
  apply Z.leb_le in H1, H2. change (code "0") with 48 in *. change (code "9") with 57 in *.
  lia.
Qed.

Lemma fixnum_digits_big s n : snd (fixnum_digits s n true) = true.
Proof.
  revert n. induction s as [|c s IH]; intros n; [done|].
  cbn [fixnum_digits]. destruct (is_digit c); [|done]. cbn [orb]. apply IH.
Qed.

(** While [big] is not set, [n] has not wrapped. *)
Lemma fixnum_digits_exact s n :
  0 ≤ n < NUM_MAX →
  snd (fixnum_digits s n false) = false →
  fst (fixnum_digits s n false) = decimal s n ∧ 0 ≤ decimal s n < NUM_MAX.
Proof.
  revert n. induction s as [|c s IH]; intros n Hn; [done|].
  cbn [fixnum_digits decimal]. destruct (is_digit c) eqn:Hc; [|done].
  pose proof (digit_value c Hc) as Hd.
  assert (NUM_MAX = 2 ^ 54 - 1) as HN by done.
  assert (int64 (n * 10 + (code c - code "0")) = n * 10 + (code c - code "0")) as ->.
  { unfold int64. rewrite Z.mod_small; lia. }
  cbn [orb]. destruct (Z.leb_spec NUM_MAX (n * 10 + (code c - code "0"))) as [Hb|Hb].
  - rewrite fixnum_digits_big. done.
  - apply IH. lia.
Qed.

Section Integers.
Variable json : list ascii.

(** X5.  The Integer [leaf_fixnum_value] makes is always the exact value
    of the decimal digits of the token, with its sign: below [NUM_MAX] the
    [int64_t] accumulator has not wrapped, and from [NUM_MAX] on the text is
    handed to [rb_cstr_to_inum]. *)
Theorem X5_fixnum_value_is_decimal H l :
  fixnum_value json H l
  = rb_int H (let s := drop (str l) json in
              if Ascii.eqb (chr0 s) "-" then - decimal (drop 1 s) 0
              else if Ascii.eqb (chr0 s) "+" then decimal (drop 1 s) 0
              else decimal s 0).
Proof.
  unfold fixnum_value. cbv zeta.
  set (s := drop (str l) json).
  assert (∀ s' (neg : bool),
            (let '(n, big) := fixnum_digits s' 0 false in
             if big then rb_int H (if neg then - decimal s' 0 else decimal s' 0)
             else rb_int H (if neg then int64 (- n) else n))
            = rb_int H (if neg then - decimal s' 0 else decimal s' 0)) as Hmain.
  { intros s' neg. pose proof (fixnum_digits_exact s' 0) as Hex.
    destruct (fixnum_digits s' 0 false) as [n big]. destruct big; [done|].
    destruct Hex as [Hn Hr]; [done|done|]. cbn [fst] in Hn. subst n.
    assert (NUM_MAX = 2 ^ 54 - 1) as HN by done.
    destruct neg; [|done]. unfold int64. rewrite Z.mod_small by lia. f_equal. lia. }
  destruct (Ascii.eqb (chr0 s) "-"); [apply (Hmain _ true)|].
  destruct (Ascii.eqb (chr0 s) "+"); apply (Hmain _ false).
Qed.
End Integers.

(** ** [move] and [fetch] on the same path *)

Section MoveFetch.
Variable json : list ascii.

Lemma take_slot (stack wp : list ptr) w :
  take (S w) stack = take (S w) wp → slot stack w = slot wp w.
Proof.
  intros Ht. unfold slot.
  rewrite <- (lookup_take_lt stack (S w) w), <- (lookup_take_lt wp (S w) w) by lia.
  by rewrite Ht.
Qed.

Lemma take_push (stack wp : list ptr) w e :
  take (S w) stack = take (S w) wp →
  (S w < length wp)%nat → (S w < length stack)%nat →
  take (S (S w)) (<[S w := e]> stack) = take (S (S w)) (<[S w := e]> wp).
Proof.
  intros Ht H1 H2.
  rewrite (take_S_r (<[S w := e]> stack) _ e) by (by apply list_lookup_insert_eq).
  rewrite (take_S_r (<[S w := e]> wp) _ e) by (by apply list_lookup_insert_eq).
  rewrite !take_insert_ge by lia. by rewrite Ht.
Qed.

(** Where [move_step] succeeds, [get_leaf] on a stack that agrees with
    the cursor resolves the same path to the leaf the cursor ends on. *)
Lemma move_step_get_leaf fuel :
  ∀ path d stack loc d',
    take (S (where_ d)) stack = take (S (where_ d)) (where_path d) →
    (length (where_path d) ≤ length stack)%nat →
    0 < loc → loc + Z.of_nat fuel < 2 ^ 31 →
    move_step json fuel d path loc = Ok (d', 0) →
    get_leaf json fuel (leaves d) stack (where_ d) path
    = slot (where_path d') (where_ d') ∧
    leaves d' = leaves d.
Proof.
  induction fuel as [|f IH]; intros path d stack loc d' Ht Hlen Hloc Hb; [done|].
  assert (int (loc + 1) = loc + 1) as Hint by (apply int_small; lia).
  assert (Ok (d, loc) ≠ (Ok (d', 0) : res (Doc * Z))) as Hfail
    by (intros [= _ ?]; lia).
  cbn [move_step get_leaf]. rewrite (take_slot _ _ _ Ht).
  destruct (Ascii.eqb (chr0 path) NUL).
  { intros [= <-]. split; [|done]. by destruct (slot (where_path d) (where_ d)). }
  destruct (slot (where_path d) (where_ d)) as [leaf|] eqn:Hcur; [|done].
  cbn [mbind res_bind]. destruct leaf as [|a]; [by intros ?|]. cbn [is_null].
  assert (∀ e path',
            (d1 ← push e d;
             '(d2, loc2) ← move_step json f d1 path' (int (loc + 1));
             if decide (loc2 ≠ 0) then d3 ← pop d2; Ok (d3, loc2) else Ok (d2, loc2))
            = Ok (d', 0) →
            (stack' ← store stack (S (where_ d)) e;
             get_leaf json f (leaves d) stack' (S (where_ d)) path')
            = slot (where_path d') (where_ d') ∧ leaves d' = leaves d) as Hinto.
  { intros e path'. unfold push, set_cur, store.
    cbn [where_ where_path set_where].
    destruct (decide (S (where_ d) < length (where_path d))%nat) as [Hl|Hl]; [|done].
    rewrite decide_True by lia. cbn [mbind res_bind].
    destruct (move_step json f _ path' (int (loc + 1))) as [[d2 loc2]|] eqn:Em; [|done].
    cbn [mbind res_bind]. destruct (decide (loc2 ≠ 0)) as [Hne|He].
    { destruct (pop d2); [|done]. cbn. intros [= _ ?]. lia. }
    intros [= -> ->]. rewrite Hint in Em.
    apply (IH path' _ (<[S (where_ d) := e]> stack)) in Em; try done.
    - cbn [where_ where_path set_where_path set_where]. apply take_push; [done|lia|lia].
    - cbn. rewrite !length_insert. lia.
    - lia.
    - lia. }
  destruct (dotdot path).
  - destruct (decide (where_ d = 0%nat)) as [Hz|Hz]; [by intros ?|].
    destruct d as [dt [|w] wp sz L]; [done|].
    cbn [where_ where_path leaves] in *.
    unfold pop, set_cur, store. cbn [where_ where_path set_where_path set_where].
    destruct (decide (S w < length wp)%nat) as [Hl|Hl]; [|done].
    cbn [mbind res_bind where_ where_path set_where_path set_where].
    replace (S w - 1)%nat with w by lia.
    change (set_where w (set_where_path (<[S w:=NULL]> wp) (mkDoc dt (S w) wp sz L)))
      with (mkDoc dt w (<[S w := NULL]> wp) sz L).
    destruct (move_step json f (mkDoc dt w (<[S w := NULL]> wp) sz L)
                (skip_slash (drop 2 path)) (int (loc + 1))) as [[d2 loc2]|] eqn:Em;
      [|done].
    cbn [mbind res_bind]. destruct (decide (loc2 ≠ 0)) as [Hne|He].
    { destruct (decide (where_ d2 < length (where_path d2))%nat); [|done].
      cbn. intros [= _ ?]. lia. }
    intros [= -> ->]. rewrite Hint in Em.
    apply (IH _ _ stack) in Em; try done.
    + cbn [where_ where_path]. rewrite take_insert_ge by lia.
      apply (f_equal (take (S w))) in Ht. rewrite !take_take in Ht.
      by replace (Nat.min (S w) (S (S w))) with (S w) in Ht by lia.
    + cbn. rewrite length_insert. lia.
    + lia.
    + lia.
  - destruct (deref (leaves d) (At a)) as [l|]; [|done]. cbn [mbind res_bind].
    destruct (bool_decide _ && negb _); [|by intros ?].
    destruct (deref (leaves d) (elements l)) as [ll|]; [|done]. cbn [mbind res_bind].
    destruct (type l); try (by intros ?).
    + destruct (read_index 0 path) as [cnt path1].
      destruct (negb _ && negb _); [by intros ?|].
      destruct (nth_sibling f (leaves d) (next ll) (next ll) cnt) as [[e|]|];
        try done.
      cbn [mbind res_bind]. apply Hinto.
    + destruct (key_step path) as [klen path'].
      destruct (find_key json f (leaves d) (next ll) (next ll) path klen) as [[e|]|];
        try done.
      cbn [mbind res_bind]. apply Hinto.
Qed.
End MoveFetch.

Section MoveFetchProperty.
Variable json : list ascii.

(** X6.  Where [move] to an absolute path succeeds, [fetch] and [type]
    of that path (from the place the move started) resolve to the leaf the
    cursor is now on: [fetch(p)] returns what [move(p)] followed by [fetch()]
    returns.  The move changes no leaf. *)
Theorem X6_fetch_path_is_move_then_fetch fuel scratch H d a p d' :
  data d = At a → where_path d !! 0%nat = Some (At a) →
  (where_ d < length (where_path d))%nat →
  (length (where_path d) ≤ length scratch)%nat →
  Z.of_nat fuel < 2 ^ 31 - 1 →
  doc_move json fuel d ("/"%char :: p) = Ok (d', Ok Qnil) →
  leaves d' = leaves d ∧
  get_doc_leaf json fuel scratch d (Some ("/"%char :: p))
  = get_doc_leaf json fuel scratch d' None ∧
  doc_type json fuel scratch d (Some ("/"%char :: p)) = doc_type json fuel scratch d' None ∧
  (λ r, (r.1, leaves r.2)) <$> doc_fetch json fuel scratch H d (Some ("/"%char :: p, None))
  = (λ r, (r.1, leaves r.2)) <$> doc_fetch json fuel scratch H d' None.
Proof.
  intros Hd H0 Hw Hlen Hf. unfold doc_move, absolute.
  change (Ascii.eqb (chr0 ("/"%char :: p)) "/") with true. cbv iota.
  change (drop 1 ("/"%char :: p)) with p.
  destruct (move_step json fuel (set_where 0 d) p 1) as [[d1 loc]|] eqn:Em; [|done].
  cbn [mbind res_bind]. destruct (decide (loc ≠ 0)) as [Hne|He]; [by intros [=]|].
  intros [= ->]. assert (loc = 0) as -> by (by destruct (decide (loc = 0))).
  apply (move_step_get_leaf json fuel p _ (<[0%nat := At a]> scratch)) in Em; cycle 1.
  { cbn [where_ where_path set_where].
    rewrite (take_S_r _ _ (At a)) by (apply list_lookup_insert_eq; lia).
    by rewrite (take_S_r _ _ (At a)). }
  { cbn. by rewrite length_insert. }
  { done. }
  { lia. }
  destruct Em as [Eg El]. cbn [where_ leaves set_where] in Eg, El.
  assert (get_doc_leaf json fuel scratch d (Some ("/"%char :: p))
          = get_doc_leaf json fuel scratch d' None) as Hg.
  { unfold get_doc_leaf, slot.
    destruct (lookup_lt_is_Some_2 (where_path d) (where_ d) Hw) as [cur ->].
    cbn [mbind res_bind]. rewrite Hd. cbn [is_null negb].
    change (Ascii.eqb (chr0 ("/"%char :: p)) "/") with true. cbv iota.
    unfold store. rewrite decide_True by lia. cbn [mbind res_bind].
    change (drop 1 ("/"%char :: p)) with p. rewrite Eg. unfold slot. by destruct (where_path d' !! where_ d'). }
  split; [done|]. split; [done|]. split.
  - unfold doc_type. by rewrite Hg, El.
  - unfold doc_fetch. cbn [fmap option_fmap option_map fst]. rewrite Hg, El.
    destruct (get_doc_leaf json fuel scratch d' None) as [leaf|]; [|done].
    cbn [mbind res_bind]. destruct (is_null leaf); cbn [negb].
    + cbn. by rewrite El.
    + by destruct (leaf_value json fuel H (leaves d) leaf) as [[[v H1] L1]|].
Qed.
End MoveFetchProperty.

Lemma X6_witness :
  leaves session_ab_b = leaves (pi_doc session_ab) ∧
  get_doc_leaf (pi_str session_ab) 20 scratch0 (pi_doc session_ab)
    (Some ("/"%char :: dq "a/2/b"))
  = get_doc_leaf (pi_str session_ab) 20 scratch0 session_ab_b None ∧
  doc_type (pi_str session_ab) 20 scratch0 (pi_doc session_ab)
    (Some ("/"%char :: dq "a/2/b"))
  = doc_type (pi_str session_ab) 20 scratch0 session_ab_b None ∧
  (λ r, (r.1, leaves r.2)) <$>
    doc_fetch (pi_str session_ab) 20 scratch0 [] (pi_doc session_ab)
      (Some ("/"%char :: dq "a/2/b", None))
  = (λ r, (r.1, leaves r.2)) <$>
    doc_fetch (pi_str session_ab) 20 scratch0 [] session_ab_b None.
Proof.
  apply (X6_fetch_path_is_move_then_fetch (pi_str session_ab) 20 scratch0 []
           (pi_doc session_ab) 0 (dq "a/2/b") session_ab_b).
  - reflexivity.
  - reflexivity.
  - vm_compute. lia.
  - vm_compute. lia.
  - vm_compute. reflexivity.
  - vm_compute. reflexivity.
Defined.

(** ** [move] along the path [where?] gives *)

Lemma lookup_map {A B} (f : A → B) l i : map f l !! i = f <$> l !! i.
Proof. revert i. induction l as [|x l IH]; intros [|i]; try done. apply IH. Qed.

Section MoveWhere.
Variable json : list ascii.

Lemma set_where_twice w w' d : set_where w (set_where w' d) = set_where w d.
Proof. done. Qed.

Lemma set_where_id d : set_where (where_ d) d = d.
Proof. by destruct d. Qed.

(** [move_step] on the steps of a chain whose slots already hold it:
    only [doc->where] changes. *)
Lemma move_step_follows L ts :
  ∀ p fuel d loc,
    leaves d = L → shape L p → located json L p → linked p ts →
    where_path d !! where_ d = Some (At (addr p)) →
    (∀ i k, ts !! i = Some k →
       where_path d !! S (where_ d + i) = Some (At (addr k))) →
    (weight p < fuel)%nat →
    move_step json fuel d (join_steps (map (step_name json L) ts)) loc
    = Ok (set_where (where_ d + length ts) d, 0).
Proof.
  induction ts as [|k ts IH]; intros p fuel d loc HL Hs Hl Hlk Hst Hsl Hf.
  { destruct fuel as [|f]; [lia|]. cbn [map join_steps move_step length].
    rewrite Nat.add_0_r, set_where_id. done. }
  destruct Hlk as [Hk Hts].
  destruct (kid_facts json L p k Hs Hl Hk) as (Hsk & Hlk' & Hn & lk & Hlkk & _).
  destruct p as [a [|k0 rest]]; destruct Hk as [j Hj]; [done|]. cbn [kids] in Hj.
  cbn [addr] in Hst.
  destruct (shape_kids _ _ _ _ Hs) as (l & ll & Hla & Hc & Ht & He & Hll & Hnx & Hr).
  cbn [located] in Hl. rewrite (lookup_total_eq _ _ _ Hla) in Hl.
  destruct (located_nth json _ _ _ _ _ _ Hl Hj) as (_ & Hp & Ha & Hh).
  cbn [map]. rewrite join_steps_cons.
  set (more := join_steps (map (step_name json L) ts)).
  set (rest' := match map (step_name json L) ts with
                | [] => []
                | _ => "/"%char :: more
                end).
  assert (rest' = [] ∧ more = [] ∨ rest' = "/"%char :: more) as Hrest.
  { unfold rest', more. destruct (map (step_name json L) ts); auto. }
  assert (skip_slash rest' = more) as Hskip by (by destruct Hrest as [[-> ->]| ->]).
  assert (rest' = [] ∨ chr0 rest' = "/"%char) as Hrest'
    by (destruct Hrest as [[-> ->]| ->]; auto).
  assert (negb (Ascii.eqb (chr0 rest') "/") && negb (Ascii.eqb (chr0 rest') NUL) = false)
    as Hend by (by destruct Hrest as [[-> ->]| ->]).
  destruct fuel as [|f]; [lia|]. cbn [move_step]. unfold slot. rewrite Hst.
  cbn [mbind res_bind is_null]. rewrite name_ok_chr0, dotdot_app by done.
  rewrite HL. cbn [deref]. rewrite Hla. cbn [mbind res_bind].
  rewrite bool_decide_true by done.
  rewrite He. cbn [is_null negb andb deref]. rewrite Hll. cbn [mbind res_bind].
  rewrite Hnx.
  pose proof (nth_kid_weight _ _ _ Hj) as Hw. cbn [weight] in Hf.
  pose proof (Hsl 0%nat k eq_refl) as Hk0. rewrite Nat.add_0_r in Hk0.
  assert (push (At (addr k)) d = Ok (set_where (S (where_ d)) d)) as Hpush.
  { unfold push, set_cur, store. cbn [where_ where_path set_where].
    rewrite decide_True by (by eapply lookup_lt_Some). cbn [mbind res_bind].
    rewrite list_insert_id by done. by destruct d. }
  assert (∀ loc1, move_step json f (set_where (S (where_ d)) d) more loc1
          = Ok (set_where (where_ d + length (k :: ts)) d, 0)) as Hnext.
  { intros loc1. unfold more.
    rewrite (IH k f (set_where (S (where_ d)) d) loc1); try done.
    - rewrite set_where_twice. cbn [where_ set_where length].
      by replace (S (where_ d) + length ts)%nat with (where_ d + S (length ts))%nat by lia.
    - intros i k' Hi. cbn [where_ where_path set_where].
      replace (S (S (where_ d) + i)) with (S (where_ d + S i)) by lia.
      by apply Hsl.
    - lia. }
  rewrite (lookup_total_eq _ _ _ Hlkk) in *.
  unfold step_name. rewrite (lookup_total_eq _ _ _ Hlkk), Hp.
  destruct Ht as [Ht|Ht]; rewrite Ht.
  - destruct (Ha Ht) as [Hi Hb].
    rewrite read_index_fill; [|lia|by destruct Hrest as [[-> ->]| ->]].
    rewrite Hend, Hskip. replace (index lk) with (Z.of_nat (S j)) by lia.
    pose proof (nth_sibling_ring L (addr k0) _ j k f Hr Hj) as E.
    cbn [head_addr] in E. rewrite E by lia. cbn [mbind res_bind].
    rewrite Hpush. cbn [mbind res_bind]. rewrite Hnext. cbn [mbind res_bind].
    by rewrite decide_False by (by intros ?).
  - destruct (Hh Ht) as [(K1 & K2 & K3) Hd].
    set (kb := cstr_at json (key lk)) in *.
    assert (NUL ∉ kb) as Hnul by apply cstr_no_nul.
    assert (key_step (kb ++ rest') = (length kb, more)) as ->.
    { destruct Hrest as [[-> ->]| ->].
      - rewrite app_nil_r. by apply key_step_last.
      - by apply key_step_slash. }
    pose proof (find_key_ring json L (addr k0) _ j k f (kb ++ rest') (length kb) Hr Hj) as E.
    cbn [head_addr] in E. rewrite E; [| | |lia].
    + cbn [mbind res_bind]. rewrite Hpush. cbn [mbind res_bind]. rewrite Hnext.
      cbn [mbind res_bind]. by rewrite decide_False by (by intros ?).
    + rewrite key_matches_cstr by done. apply bool_decide_eq_true_2.
      by rewrite (lookup_total_eq _ _ _ Hlkk).
    + intros i k' Hi Hk'. rewrite key_matches_cstr by done.
      apply bool_decide_eq_false_2. by apply (Hd i k').
Qed.

(** X7.  With the cursor on a node of a document whose names and
    positions fit a path, [move] to the path [where?] returns succeeds and
    leaves the document exactly as it is. *)
Theorem X7_move_to_where_is_identity fuel H d t ts :
  chain d t ts → doc_inv json H (leaves d) t → (weight t < fuel)%nat →
  ∃ w, doc_where json d = Ok w ∧ doc_move json fuel d w = Ok (d, Ok Qnil).
Proof.
  intros Hc (Hs & Hl & Hroot & _) Hf. exists (path_to json (leaves d) ts).
  split; [by apply (doc_where_chain json d t ts)|].
  destruct (chain_slots d t ts Hc) as (H0 & _ & _).
  destruct Hc as (Hd & Hlk & Hw & Htk).
  unfold doc_move, absolute, path_to.
  change (Ascii.eqb (chr0 ("/"%char :: ?x)) "/") with true. cbv iota.
  change (drop 1 ("/"%char :: ?x)) with x.
  rewrite (move_step_follows (leaves d) ts t fuel (set_where 0 d) 1); try done.
  - cbn [mbind res_bind where_ set_where]. rewrite decide_False by (by intros ?).
    rewrite set_where_twice. cbn [Nat.add]. by rewrite <- Hw, set_where_id.
  - intros i k Hi. cbn [where_ where_path set_where Nat.add].
    rewrite <- (lookup_take_lt _ (S (length ts))) by (apply lookup_lt_Some in Hi; lia).
    rewrite Htk. cbn [map].
    change (map (λ k, At (addr k)) ts !! i = Some (At (addr k))).
    by rewrite lookup_map, Hi.
Qed.
End MoveWhere.

Lemma X7_witness :
  ∃ w, doc_where (pi_str session_ab) session_ab_b = Ok w ∧
       doc_move (pi_str session_ab) 20 session_ab_b w = Ok (session_ab_b, Ok Qnil).
Proof.
  apply (X7_move_to_where_is_identity (pi_str session_ab) 20 [] session_ab_b tree_ab
           [tree_ab_a; tree_ab_2; Node 5 FNil]).
  - split_and!; try reflexivity. cbn. repeat split; by (exists 0%nat + exists 1%nat).
  - apply doc_inv_session_ab.
  - vm_compute. lia.
Defined.

(** ** The buffer of [where?] *)

Lemma ulong_digits_length room k n :
  0 ≤ n < 10 ^ Z.of_nat k → (length (ulong_digits room n []) ≤ k)%nat.
Proof.
  revert k n. induction room as [|room IH]; intros k n Hn; [cbn; lia|].
  cbn [ulong_digits]. destruct (Z.ltb_spec 0 n) as [Hp|Hp]; [|cbn; lia].
  destruct k as [|k]; [cbn in Hn; lia|].
  rewrite ulong_digits_acc, length_app. cbn [length].
  assert (0 ≤ n / 10 < 10 ^ Z.of_nat k) as Hq.
  { split; [apply Z.div_pos; lia|]. apply Z.div_lt_upper_bound; [lia|].
    rewrite Nat2Z.inj_succ, Z.pow_succ_r in Hn by lia. lia. }
  specialize (IH k (n / 10) Hq). lia.
Qed.

Lemma ulong_fill_length k n :
  0 ≤ n < 10 ^ Z.of_nat (S k) → (length (ulong_fill n) ≤ S k)%nat.
Proof.
  intros Hn. pose proof (ulong_digits_length 31 (S k) n Hn) as Hl.
  unfold ulong_fill. destruct (ulong_digits 31 n []); [cbn; lia|done].
Qed.

Lemma strlen_cstr l : strlen l = length (cstr l).
Proof.
  induction l as [|c l IH]; [done|]. cbn [strlen cstr].
  destruct (Ascii.eqb c NUL); [done|]. cbn [length]. by rewrite IH.
Qed.

Section WhereBuffer.
Variable json : list ascii.

Lemma kid_room L p k :
  shape L p → located json L p → kid_of p k →
  ∃ lk, L !! addr k = Some lk ∧
    (length (step_name json L k) + 1 ≤ where_room_step json lk)%nat.
Proof.
  destruct p as [a [|k0 rest]]; intros Hs Hl [j Hj]; [done|]. cbn [kids] in Hj.
  destruct (shape_kids _ _ _ _ Hs) as (l & ll & Hla & Hc & Ht & He & Hll & Hn & Hr).
  destruct (ring_nth _ _ _ _ _ Hr Hj) as (Hsk & lk & Hlk).
  cbn [located] in Hl. rewrite (lookup_total_eq _ _ _ Hla) in Hl.
  destruct (located_nth json _ _ _ _ _ _ Hl Hj) as (Hlk' & Hp & Ha & Hh).
  rewrite (lookup_total_eq _ _ _ Hlk) in Hp, Ha, Hh.
  exists lk. split; [done|].
  unfold step_name, where_room_step. rewrite (lookup_total_eq _ _ _ Hlk), Hp.
  destruct Ht as [Ht|Ht]; rewrite Ht.
  - destruct (Ha Ht) as [Hi Hb].
    destruct (Z.ltb_spec (index lk) 100) as [Hs'|Hs'].
    + pose proof (ulong_fill_length 1 (index lk)). lia.
    + assert (2 ^ 31 < 10 ^ 10) by done.
      pose proof (ulong_fill_length 9 (index lk)). lia.
  - unfold cstr_at. rewrite strlen_cstr. lia.
Qed.

Lemma linked_room L p ts :
  shape L p → located json L p → linked p ts →
  ∃ r, where_room json L (map (λ k, At (addr k)) ts) = Ok r ∧
    (length (concat (map (λ n, n ++ ["/"%char]) (map (step_name json L) ts))) + 3 ≤ r)%nat.
Proof.
  revert p. induction ts as [|k ts IH]; intros p Hs Hl.
  - intros _. exists 3%nat. split; [done|]. cbn. lia.
  - intros [Hk Hts].
    destruct (kid_facts json L p k Hs Hl Hk) as (Hsk & Hlk & _).
    destruct (kid_room L p k Hs Hl Hk) as (lk & Hlkk & Hfit).
    destruct (IH k Hsk Hlk Hts) as (r & Hr & Hle).
    exists (where_room_step json lk + r)%nat. split.
    + cbn [map where_room deref]. rewrite Hlkk. cbn [mbind res_bind]. by rewrite Hr.
    + cbn [map concat]. rewrite !length_app. cbn [length]. lia.
Qed.

End WhereBuffer.


(** ** The parser builds a tree *)

Lemma within_le :
  (∀ t lo hi, within lo hi t → (lo < hi)%nat) ∧
  (∀ ks lo hi, within_forest lo hi ks → (lo ≤ hi)%nat).
Proof.
  apply tree_mutind.
  - intros a ks _ lo hi [? _]. lia.
  - done.
  - intros k IHk rest IHr lo hi (mid & Hk & Hr).
    specialize (IHk _ _ Hk). specialize (IHr _ _ Hr). lia.
Qed.

Lemma within_mono :
  (∀ t lo hi lo' hi', within lo hi t → (lo' ≤ lo)%nat → (hi ≤ hi')%nat →
     within lo' hi' t) ∧
  (∀ ks lo hi lo' hi', within_forest lo hi ks → (lo' ≤ lo)%nat → (hi ≤ hi')%nat →
     within_forest lo' hi' ks).
Proof.
  apply tree_mutind.
  - intros a ks IH lo hi lo' hi' [Ha Hk] ? ?. split; [lia|].
    by apply (IH (S a) hi).
  - cbn. lia.
  - intros k IHk rest IHr lo hi lo' hi' (mid & Hk & Hr) ? ?. exists mid. split.
    + by apply (IHk lo mid).
    + by apply (IHr mid hi).
Qed.

Lemma within_weight :
  (∀ t lo hi, within lo hi t → (weight t + 1 ≤ 2 * (hi - lo))%nat) ∧
  (∀ ks lo hi, within_forest lo hi ks → (weight_forest ks ≤ 2 * (hi - lo))%nat).
Proof.
  apply tree_mutind.
  - intros a ks IH lo hi [Ha Hk]. specialize (IH _ _ Hk). cbn [weight]. lia.
  - cbn. lia.
  - intros k IHk rest IHr lo hi (mid & Hk & Hr).
    pose proof (proj1 within_le _ _ _ Hk). pose proof (proj2 within_le _ _ _ Hr).
    specialize (IHk _ _ Hk). specialize (IHr _ _ Hr). cbn [weight_forest]. lia.
Qed.

Lemma within_snoc ks k lo mid hi :
  within_forest lo mid ks → within mid hi k → within_forest lo hi (forest_snoc ks k).
Proof.
  revert lo. induction ks as [|k0 rest IH] using forest_ind; intros lo.
  - cbn [within_forest forest_snoc]. intros Hle Hk. exists hi. split; [|done].
    by apply (proj1 within_mono k mid hi).
  - intros (m & Hk0 & Hr) Hk. exists m. split; [done|]. by apply IH.
Qed.

Lemma last_addr_snoc a ks k : last_addr a (forest_snoc ks k) = addr k.
Proof.
  revert a. induction ks as [|k0 rest IH] using forest_ind; intros a; [done|].
  cbn [forest_snoc last_addr]. apply IH.
Qed.

Lemma last_addr_within k rest lo hi :
  within_forest lo hi (FCons k rest) →
  (lo ≤ last_addr (addr k) rest < hi)%nat.
Proof.
  revert k lo. induction rest as [|k' rest IH] using forest_ind; intros k lo.
  - intros (mid & Hk & Hr). destruct k as [a ks]. destruct Hk as [Ha _].
    cbn in *. lia.
  - intros (mid & Hk & Hr). cbn [last_addr].
    pose proof (proj1 within_le _ _ _ Hk). specialize (IH _ _ Hr). lia.
Qed.

(** [shape] reads the cells of the tree only. *)
Lemma shape_agree L L' :
  (∀ t lo hi, shape L t → within lo hi t →
     (∀ b, (lo ≤ b < hi)%nat → L' !! b = L !! b) → shape L' t) ∧
  (∀ ks first lo hi, ring L first ks → within_forest lo hi ks →
     (∀ b, (lo ≤ b < hi)%nat → L' !! b = L !! b) → ring L' first ks).
Proof.
  apply tree_mutind.
  - intros a ks IH lo hi (l & Hl & Ht & Hcol & Hlit & Hk) [Ha Hw] Hag. cbn [shape].
    exists l. rewrite (Hag a Ha). split_and!; try done.
    destruct ks as [|k rest]; [done|]. destruct Hk as (? & ? & Hr). split_and!; try done.
    apply (IH _ (S a) hi); [done..|]. intros b ?. apply Hag. lia.
  - done.
  - intros k IHk rest IHr first lo hi (Hk & (lk & Hlk & Hn) & Hr) (mid & Wk & Wr) Hag.
    pose proof (proj1 within_le _ _ _ Wk). pose proof (proj2 within_le _ _ _ Wr).
    cbn [ring]. split_and!.
    + apply (IHk lo mid); [done..|]. intros b ?. apply Hag. lia.
    + exists lk. split; [|done]. rewrite Hag; [done|].
      destruct k as [a ks]. destruct Wk as [? _]. cbn. lia.
    + apply (IHr first mid hi); [done..|]. intros b ?. apply Hag. lia.
Qed.

Lemma shape_alter_out L t lo hi f e :
  shape L t → within lo hi t → ¬ (lo ≤ e < hi)%nat → shape (alter f e L) t.
Proof.
  intros Hs Hw He. apply (proj1 (shape_agree L _) t lo hi Hs Hw).
  intros b Hb. apply list_lookup_alter_ne. lia.
Qed.

Lemma shape_alter_root L a ks hi f :
  shape L (Node a ks) → within_forest (S a) hi ks → keeps_core f →
  shape (alter f a L) (Node a ks).
Proof.
  intros (l & Hl & Ht & Hcol & Hlit & Hk) Hw Hf. cbn [shape].
  destruct (Hf l) as (F1 & F2 & F3 & F4).
  exists (f l). rewrite list_lookup_alter_eq, Hl. split; [done|].
  rewrite F1, F2, F3. split_and!; try done.
  destruct ks as [|k rest]; [done|]. destruct Hk as (? & ? & Hr). split_and!; try done.
  apply (proj2 (shape_agree L _) _ _ (S a) hi Hr Hw).
  intros b Hb. apply list_lookup_alter_ne. lia.
Qed.

Lemma keeps_core_next p : keeps_core (set_next p).
Proof. by intros []. Qed.
Lemma keeps_core_key k : keeps_core (set_key k).
Proof. by intros []. Qed.
Lemma keeps_core_index i : keeps_core (set_index i).
Proof. by intros []. Qed.
Lemma keeps_core_str s : keeps_core (set_str s).
Proof. by intros []. Qed.
Lemma keeps_core_parent_type t : keeps_core (set_parent_type t).
Proof. by intros []. Qed.

Lemma plain_alter L f e : keeps_core f → Forall plain L → Forall plain (alter f e L).
Proof.
  intros Hf HL. apply Forall_alter; [done|]. intros l _ Hl.
  destruct (Hf l) as (F1 & F2 & _ & F4). unfold plain. by rewrite F1, F2, F4.
Qed.

Lemma prefix_alter (L0 L : list Leaf) f e :
  L0 `prefix_of` L → (length L0 ≤ e)%nat → L0 `prefix_of` alter f e L.
Proof.
  intros [new ->] He. exists (alter f (e - length L0)%nat new).
  by rewrite alter_app_r_alt.
Qed.

Lemma plain_alter_value L f e :
  (∀ l, type (f l) = type l ∧ value_type (f l) = value_type l ∧ value (f l) = value l) →
  Forall plain L → Forall plain (alter f e L).
Proof.
  intros Hf HL. apply Forall_alter; [done|]. intros l _ Hl.
  destruct (Hf l) as (F1 & F2 & F4). unfold plain. by rewrite F1, F2, F4.
Qed.

Lemma plain_append L a e : Forall plain L → Forall plain (leaf_append_element L a e).
Proof.
  intros HL. unfold leaf_append_element.
  destruct (elements (L !!! a)); repeat (apply plain_alter_value; [by intros []|]); done.
Qed.

Lemma plain_init t : plain (leaf_init t).
Proof. destruct t; intros ?; try done; auto. Qed.

(** The ring with the element [k] linked in after its last. *)
Lemma ring_snoc L first rest k mid hi :
  ∀ k0 lo,
  ring L first (FCons k0 rest) → within_forest lo mid (FCons k0 rest) →
  shape L k → within mid hi k → (first < mid)%nat →
  ring (alter (set_next (At (addr k))) (last_addr (addr k0) rest)
          (alter (set_next (At first)) (addr k) L))
       first (forest_snoc (FCons k0 rest) k).
Proof.
  induction rest as [|k1 rest IH] using forest_ind; intros k0 lo.
  - intros (Hk0 & (lk & Hlk & Hn) & _) (m & Wk0 & Hm) Hk Wk Hf.
    cbn [within_forest] in Hm. cbn [last_addr forest_snoc ring].
    destruct k as [e ks], k0 as [a0 ks0]. cbn [addr] in *.
    pose proof Wk as [He Wks]. pose proof Wk0 as [Ha0 Wks0].
    pose proof Hk as (le & Hle & _).
    split_and!; [| | | |done].
    + apply shape_alter_root with m; [|done|apply keeps_core_next].
      apply (shape_alter_out _ _ lo m); [done..|lia].
    + exists (set_next (At e) lk).
      rewrite list_lookup_alter_eq, list_lookup_alter_ne, Hlk by lia.
      split; [done|]. split; [done|lia].
    + apply (shape_alter_out _ _ mid hi); [|done|lia].
      apply shape_alter_root with hi; [done..|apply keeps_core_next].
    + exists (set_next (At first) le).
      rewrite list_lookup_alter_ne, list_lookup_alter_eq, Hle by lia. done.
  - intros (Hk0 & (lk & Hlk & Hn & Hne) & Hr) (m & Wk0 & Wr) Hk Wk Hf.
    cbn [last_addr]. specialize (IH k1 m Hr Wr Hk Wk Hf).
    pose proof (last_addr_within _ _ _ _ Wr).
    pose proof (proj1 within_le _ _ _ Wk0). pose proof (proj1 within_le _ _ _ Wk).
    destruct k as [e ks]. cbn [addr] in *. pose proof Wk as [He _].
    change (forest_snoc (FCons k0 (FCons k1 rest)) (Node e ks))
      with (FCons k0 (forest_snoc (FCons k1 rest) (Node e ks))).
    change (forest_snoc (FCons k1 rest) (Node e ks))
      with (FCons k1 (forest_snoc rest (Node e ks))) in *.
    cbn [ring]. cbn [ring] in IH. split_and!; try apply IH.
    + apply (shape_alter_out _ _ lo m); [|done|lia].
      apply (shape_alter_out _ _ lo m); [done..|lia].
    + exists lk. destruct k0 as [a0 ks0]. destruct Wk0 as [? _]. cbn [addr] in *.
      rewrite !list_lookup_alter_ne by lia. done.
Qed.

(** [leaf_append_element] on a collection that is being filled. *)
Lemma append_shape L a ks k mid hi :
  shape L (Node a ks) → within_forest (S a) mid ks →
  value_type (L !!! a) = COL_VAL →
  shape L k → within mid hi k →
  shape (leaf_append_element L a (addr k)) (Node a (forest_snoc ks k)).
Proof.
  intros Hs Wks Hcv Hk Wk. pose proof Hs as (l & Hl & Ht & Hcol & Hlit & Hks).
  pose proof (proj2 within_le _ _ _ Wks) as Hle.
  rewrite (lookup_total_eq _ _ _ Hl) in Hcv.
  unfold leaf_append_element. rewrite (lookup_total_eq _ _ _ Hl).
  destruct k as [e kks]. cbn [addr]. pose proof Wk as [He Wkk].
  pose proof Hk as (le & Hle' & _).
  destruct ks as [|k0 rest].
  - rewrite (Hks Hcv). cbn [forest_snoc shape].
    exists (set_elements (At e) l).
    rewrite list_lookup_alter_ne, list_lookup_alter_eq, Hl by lia.
    split_and!; try done. cbn [ring addr]. split_and!; try done.
    + apply shape_alter_root with hi; [|done|apply keeps_core_next].
      apply (shape_alter_out _ _ mid hi); [done..|lia].
    + exists (set_next (At e) le).
      by rewrite list_lookup_alter_eq, list_lookup_alter_ne, Hle' by lia.
  - destruct Hks as (_ & He' & Hr). rewrite He'.
    destruct (ring_last _ _ _ _ Hr) as (ll & Hll & Hn).
    rewrite (lookup_total_eq _ _ _ Hll), Hn.
    assert (addr k0 < mid)%nat as Hf.
    { destruct Wks as (m & W0 & Wr). destruct k0 as [a0 ?]. destruct W0 as [? _].
      pose proof (proj2 within_le _ _ _ Wr). cbn. lia. }
    pose proof (ring_snoc L (addr k0) rest (Node e kks) mid hi k0 (S a) Hr Wks Hk Wk Hf)
      as Hr'.
    change (forest_snoc (FCons k0 rest) (Node e kks))
      with (FCons k0 (forest_snoc rest (Node e kks))) in *.
    cbn [shape]. exists (set_elements (At e) l).
    pose proof (last_addr_within _ _ _ _ Wks).
    rewrite list_lookup_alter_eq, !list_lookup_alter_ne, Hl by lia.
    split_and!; try done.
    + by rewrite last_addr_snoc.
    + cbn [addr] in Hr'.
      apply (proj2 (shape_agree _ _) _ _ (S a) hi Hr').
      * by apply (within_snoc (FCons k0 rest) (Node e kks) (S a) mid hi).
      * intros b ?. apply list_lookup_alter_ne. lia.
Qed.

Lemma length_append L a e : length (leaf_append_element L a e) = length L.
Proof.
  unfold leaf_append_element. destruct (elements (L !!! a)); by rewrite !length_alter.
Qed.

Lemma append_parent_cell L a e l :
  L !! a = Some l → a ≠ e → (∀ last, elements l = At last → last ≠ a) →
  leaf_append_element L a e !! a = Some (set_elements (At e) l).
Proof.
  intros Hl He Hlast. unfold leaf_append_element. rewrite (lookup_total_eq _ _ _ Hl).
  destruct (elements l) as [|last] eqn:El.
  - by rewrite list_lookup_alter_ne, list_lookup_alter_eq, Hl.
  - specialize (Hlast _ eq_refl).
    by rewrite list_lookup_alter_eq, !list_lookup_alter_ne, Hl.
Qed.

Lemma filling_step L0 a ks L L1 k f g :
  filling L0 a ks L → L `prefix_of` L1 →
  shape L1 k → within (length L) (length L1) k → keeps_core f → keeps_core g →
  filling L0 a (forest_snoc ks k)
    (leaf_append_element (alter f (addr k) (alter g (addr k) L1)) a (addr k)).
Proof.
  intros (Hp & Ha & Hs & Hw & Hcv & Hpt) HL Hk Wk Hf Hg.
  pose proof (proj2 within_le _ _ _ Hw) as Hle.
  pose proof Hs as (l & Hl & _).
  pose proof (prefix_lookup_Some _ _ _ _ Hl HL) as Hl1.
  destruct k as [e kks]. cbn [addr]. pose proof Wk as [He Wkk].
  set (L2 := alter f e (alter g e L1)).
  assert (L2 !! a = Some l) as Hl2.
  { unfold L2. by rewrite !list_lookup_alter_ne by lia. }
  assert (shape L2 (Node a ks)) as Hs2.
  { apply (proj1 (shape_agree L _) _ a (length L)); [done|split; [lia|done]|].
    intros b Hb. unfold L2. rewrite !list_lookup_alter_ne by lia.
    destruct HL as [new ->]. apply lookup_app_l. lia. }
  assert (shape L2 (Node e kks)) as Hk2.
  { unfold L2. apply shape_alter_root with (length L1); [|done..].
    by apply shape_alter_root with (length L1). }
  rewrite (lookup_total_eq _ _ _ Hl) in Hcv, Hpt.
  assert (length L2 = length L1) as Hlen by (unfold L2; by rewrite !length_alter).
  assert (∀ last, elements l = At last → (S a ≤ last < length L)%nat) as Hlast.
  { intros last El. destruct Hs as (l' & Hl' & _ & _ & _ & He0).
    assert (l' = l) as -> by congruence.
    destruct ks as [|k0 rest]; [by rewrite (He0 Hcv) in El|].
    destruct He0 as (_ & He0 & _). rewrite El in He0. injection He0 as ->.
    apply (last_addr_within _ _ _ _ Hw). }
  assert (leaf_append_element L2 a e !! a = Some (set_elements (At e) l)) as Hl3.
  { apply append_parent_cell; [done|lia|]. intros last El. specialize (Hlast _ El). lia. }
  split_and!.
  - assert (L0 `prefix_of` L2) as HP2.
    { unfold L2. do 2 (apply prefix_alter; [|lia]). by trans L. }
    unfold leaf_append_element. rewrite (lookup_total_eq _ _ _ Hl2).
    destruct (elements l) as [|last] eqn:El.
    + by do 2 (apply prefix_alter; [|lia]).
    + specialize (Hlast _ eq_refl). by do 3 (apply prefix_alter; [|lia]).
  - done.
  - apply (append_shape L2 a ks (Node e kks) (length L) (length L1)); try done.
    by rewrite (lookup_total_eq _ _ _ Hl2).
  - rewrite length_append, Hlen. by apply (within_snoc _ _ _ (length L)).
  - by rewrite (lookup_total_eq _ _ _ Hl3).
  - by rewrite (lookup_total_eq _ _ _ Hl3).
Qed.

Lemma type_leaf_init t : type (leaf_init t) = t.
Proof. by destruct t. Qed.

Lemma elements_leaf_init t : elements (leaf_init t) = NULL.
Proof. by destruct t. Qed.

Lemma parent_type_leaf_init t : parent_type (leaf_init t) = T_NONE.
Proof. by destruct t. Qed.

Lemma value_type_leaf_init t :
  (value_type (leaf_init t) = COL_VAL ↔ t = T_ARRAY ∨ t = T_HASH) ∧
  (t = T_NIL ∨ t = T_TRUE ∨ t = T_FALSE → value_type (leaf_init t) = RUBY_VAL).
Proof. destruct t; cbn; split; try done; try tauto; intuition discriminate. Qed.

(** A read that hands out one cell ([junk] before it, for [read_num]). *)
Lemma leaf_built d junk t f d' a :
  a = (length (leaves d) + length junk)%nat →
  t ≠ T_NONE → keeps_core f → parent_type (f (leaf_init t)) = T_NONE →
  Forall plain junk → same_cursor d d' →
  leaves d' = leaves d ++ junk ++ [f (leaf_init t)] →
  built d (At a) d'.
Proof.
  intros -> Ht Hf Hpt Hj Hc El.
  destruct (Hf (leaf_init t)) as (F1 & F2 & F3 & F4).
  assert (leaves d' !! (length (leaves d) + length junk)%nat = Some (f (leaf_init t))) as Hl.
  { rewrite El, lookup_app_r by lia.
    rewrite lookup_app_r by lia.
    by replace (length (leaves d) + length junk - length (leaves d) - length junk)%nat
      with 0%nat by lia. }
  split; [split_and!|].
  - done.
  - rewrite El. by eexists.
  - intros HL. rewrite El. apply Forall_app. split; [done|].
    apply Forall_app. split; [done|]. apply Forall_singleton.
    unfold plain. rewrite F1, F2, F4. apply plain_init.
  - exists (Node (length (leaves d) + length junk) FNil). split; [done|].
    assert (length (leaves d') = S (length (leaves d) + length junk)) as Hlen.
    { rewrite El, !length_app. cbn. lia. }
    split_and!.
    + exists (f (leaf_init t)). split; [done|].
      rewrite F1, F2, F3, type_leaf_init, elements_leaf_init.
      destruct (value_type_leaf_init t). done.
    + cbn [within within_forest]. lia.
    + by rewrite (lookup_total_eq _ _ _ Hl).
Qed.

Lemma same_cursor_trans d1 d2 d3 :
  same_cursor d1 d2 → same_cursor d2 d3 → same_cursor d1 d3.
Proof. intros (A & B & C) (A' & B' & C'). split_and!; congruence. Qed.

Lemma filling_init L0 t :
  t = T_ARRAY ∨ t = T_HASH → filling L0 (length L0) FNil (L0 ++ [leaf_init t]).
Proof.
  intros Ht.
  assert ((L0 ++ [leaf_init t]) !! length L0 = Some (leaf_init t)) as Hl.
  { rewrite lookup_app_r by lia. by rewrite Nat.sub_diag. }
  destruct (value_type_leaf_init t) as [V1 V2].
  split_and!.
  - by eexists.
  - done.
  - exists (leaf_init t). split; [done|]. rewrite type_leaf_init, elements_leaf_init.
    split_and!; try done. by destruct Ht as [-> | ->].
  - cbn [within_forest]. rewrite length_app. cbn. lia.
  - rewrite (lookup_total_eq _ _ _ Hl). by apply V1.
  - rewrite (lookup_total_eq _ _ _ Hl). apply parent_type_leaf_init.
Qed.

Lemma filled_built d a d1 d' :
  a = length (leaves d) → same_cursor d d1 →
  (Forall plain (leaves d) → Forall plain (leaves d1)) →
  filled (leaves d) a d1 d' → built d (At a) d'.
Proof.
  intros -> Hc1 Hp1 (ks & (Hp & Ha & Hs & Hw & Hcv & Hpt) & Hc & Hpl).
  pose proof (proj2 within_le _ _ _ Hw).
  split; [split; [|split]|].
  - by apply (same_cursor_trans _ d1).
  - done.
  - auto.
  - exists (Node (length (leaves d)) ks). split_and!; try done.
Qed.

Lemma attach L0 a ks d e d2 f g d3 :
  filling L0 a ks (leaves d) → built d (At e) d2 → keeps_core f → keeps_core g →
  same_cursor d2 d3 →
  leaves d3 = leaf_append_element (alter f e (alter g e (leaves d2))) a e →
  filled L0 a d d3.
Proof.
  intros Hfill ((Hc & Hp & Hpl) & t & <- & Hs & Hw & Hpt) Hf Hg Hc3 El.
  exists (forest_snoc ks t). rewrite El. split_and!.
  - by apply (filling_step L0 a ks (leaves d)).
  - by apply (same_cursor_trans _ d2).
  - intros HL. apply plain_append.
    apply plain_alter_value; [intros l; by destruct (Hf l) as (? & ? & _ & ?)|].
    apply plain_alter_value; [intros l; by destruct (Hg l) as (? & ? & _ & ?)|].
    auto.
Qed.

Lemma filled_trans L0 a d1 d2 d3 :
  same_cursor d1 d2 → (Forall plain (leaves d1) → Forall plain (leaves d2)) →
  filled L0 a d2 d3 → filled L0 a d1 d3.
Proof.
  intros Hc Hp (ks & Hf & Hc' & Hp'). exists ks. split_and!; [done| |auto].
  by apply (same_cursor_trans _ d2).
Qed.

Lemma read_quoted_value_doc pi k pi' :
  read_quoted_value pi = Ok (k, pi') → pi_doc pi' = pi_doc pi.
Proof.
  unfold read_quoted_value.
  destruct (read_quoted_loop _ _ _ _) as [[[b h] t]|]; cbn [mbind res_bind]; [|done].
  by intros [= _ <-].
Qed.

Section BuildLoops.
Variable read_next : ParseInfo → res (ptr * ParseInfo).
Hypothesis Hread : builds read_next.

Lemma read_array_loop_builds L0 a fuel :
  ∀ cnt pi ks pi',
  read_array_loop read_next fuel a cnt pi = Ok pi' →
  filling L0 a ks (leaves (pi_doc pi)) →
  filled L0 a (pi_doc pi) (pi_doc pi').
Proof.
  induction fuel as [|fuel IH]; intros cnt pi ks pi'; [done|].
  cbn [read_array_loop].
  destruct (read_next (next_non_white pi)) as [[[|e] pi2]|] eqn:E;
    cbn [mbind res_bind]; try done.
  apply Hread in E. change (pi_doc (next_non_white pi)) with (pi_doc pi) in E.
  intros Hrun Hfill.
  pose proof (attach L0 a ks (pi_doc pi) e (pi_doc pi2)
                (set_parent_type T_ARRAY) (set_index (ulong (int (cnt + 1))))
                (set_leaves
                   (leaf_append_element
                      (alter (set_parent_type T_ARRAY) e
                         (alter (set_index (ulong (int (cnt + 1)))) e (leaves (pi_doc pi2))))
                      a e) (pi_doc pi2))
                Hfill E (keeps_core_parent_type _) (keeps_core_index _)
                ltac:(by split_and!) eq_refl) as Hatt.
  match type of Hrun with (if ?c then _ else _) = _ => destruct c end.
  - destruct Hatt as (ks' & Hf' & Hc' & Hp').
    apply (filled_trans _ _ _ _ _ Hc' Hp'). by apply (IH _ _ ks' _ Hrun).
  - match type of Hrun with (if ?c then _ else _) = _ => destruct c end; [|done].
    injection Hrun as <-. exact Hatt.
Qed.

Lemma read_array_builds fuel : builds (read_array read_next fuel).
Proof.
  intros pi r pi'. unfold read_array, leaf_new. cbv beta iota zeta.
  match goal with |- (if ?c then _ else _) = _ → _ => destruct c end.
  - intros [= <- <-].
    apply (leaf_built _ [] T_ARRAY (λ l, l)); done.
  - destruct (read_array_loop _ _ _ _ _) as [pi2|] eqn:E; cbn [mbind res_bind]; [|done].
    intros [= <- <-].
    apply (read_array_loop_builds (leaves (pi_doc pi)) _ _ _ _ FNil) in E;
      [|by apply filling_init; left].
    apply (filled_built _ _ _ _ eq_refl) in E; [done|by split_and!|].
    intros HL. apply Forall_app. split; [done|]. apply Forall_singleton, plain_init.
Qed.

Lemma read_obj_loop_builds L0 h fuel :
  ∀ pi ks pi',
  read_obj_loop read_next fuel h pi = Ok pi' →
  filling L0 h ks (leaves (pi_doc pi)) →
  filled L0 h (pi_doc pi) (pi_doc pi').
Proof.
  induction fuel as [|fuel IH]; intros pi ks pi'; [done|].
  cbn [read_obj_loop].
  destruct (negb _); [done|].
  destruct (read_quoted_value (next_non_white pi)) as [[k pi1]|] eqn:Q;
    cbn [mbind res_bind]; [|done].
  apply read_quoted_value_doc in Q. change (pi_doc (next_non_white pi)) with (pi_doc pi) in Q.
  destruct (negb _); [done|].
  destruct (read_next _) as [[[|e] pi2]|] eqn:E; cbn [mbind res_bind]; try done.
  apply Hread in E.
  change (pi_doc (advance 1 (next_non_white pi1))) with (pi_doc pi1) in E.
  rewrite Q in E.
  intros Hrun Hfill.
  pose proof (attach L0 h ks (pi_doc pi) e (pi_doc pi2)
                (set_parent_type T_HASH) (set_key k)
                (set_leaves
                   (leaf_append_element
                      (alter (set_parent_type T_HASH) e
                         (alter (set_key k) e (leaves (pi_doc pi2))))
                      h e) (pi_doc pi2))
                Hfill E (keeps_core_parent_type _) (keeps_core_key _)
                ltac:(by split_and!) eq_refl) as Hatt.
  match type of Hrun with (if ?c then _ else _) = _ => destruct c end.
  - injection Hrun as <-. exact Hatt.
  - match type of Hrun with (if ?c then _ else _) = _ => destruct c end; [|done].
    destruct Hatt as (ks' & Hf' & Hc' & Hp').
    apply (filled_trans _ _ _ _ _ Hc' Hp'). by apply (IH _ ks' _ Hrun).
Qed.

Lemma read_obj_builds fuel : builds (read_obj read_next fuel).
Proof.
  intros pi r pi'. unfold read_obj, leaf_new. cbv beta iota zeta.
  match goal with |- (if ?c then _ else _) = _ → _ => destruct c end.
  - intros [= <- <-].
    apply (leaf_built _ [] T_HASH (λ l, l)); done.
  - destruct (read_obj_loop _ _ _ _) as [pi2|] eqn:E; cbn [mbind res_bind]; [|done].
    intros [= <- <-].
    apply (read_obj_loop_builds (leaves (pi_doc pi)) _ _ _ FNil) in E;
      [|by apply filling_init; right].
    apply (filled_built _ _ _ _ eq_refl) in E; [done|by split_and!|].
    intros HL. apply Forall_app. split; [done|]. apply Forall_singleton, plain_init.
Qed.
End BuildLoops.

Lemma alter_new (L junk : list Leaf) x f :
  alter f (length L + length junk)%nat (L ++ junk ++ [x]) = L ++ junk ++ [f x].
Proof.
  rewrite alter_app_r. f_equal.
  replace (length junk) with (length junk + 0)%nat by lia. by rewrite alter_app_r.
Qed.

Lemma alter_last (L : list Leaf) x f : alter f (length L) (L ++ [x]) = L ++ [f x].
Proof.
  replace (length L) with (length L + 0)%nat at 1 by lia. by rewrite alter_app_r.
Qed.

Lemma read_str_builds : builds read_str.
Proof.
  intros pi r pi'. unfold read_str, leaf_new. cbv beta iota zeta.
  destruct (read_quoted_value _) as [[v pi1]|] eqn:Q; cbn [mbind res_bind]; [|done].
  intros [= <- <-]. apply read_quoted_value_doc in Q.
  apply (leaf_built _ [] T_STRING (set_str v)); try done.
  - cbn [on_leaves pi_doc set_doc set_leaves data where_ where_path]. rewrite Q.
    by split_and!.
  - cbn [on_leaves pi_doc set_doc set_leaves leaves]. rewrite Q.
    cbn [pi_doc set_doc set_leaves leaves].
    apply alter_last.
Qed.

Lemma read_num_doc pi :
  ∃ ty, (ty = T_FIXNUM ∨ ty = T_FLOAT) ∧
    (read_num pi).1 = At (S (length (leaves (pi_doc pi)))) ∧
    same_cursor (pi_doc pi) (pi_doc (read_num pi).2) ∧
    leaves (pi_doc (read_num pi).2)
    = leaves (pi_doc pi) ++ [leaf_init T_FIXNUM] ++ [set_str (pi_s pi) (leaf_init ty)].
Proof.
  unfold read_num, leaf_new. cbv beta zeta.
  repeat match goal with |- context [if ?c then _ else _] => destruct c end;
    cbn [fst snd pi_doc set_doc set_leaves leaves advance skip_digits data where_ where_path];
    (exists T_FIXNUM + exists T_FLOAT);
    (split; [by (left + right)|]); rewrite ?length_app;
    (split; [cbn; f_equal; lia|]); (split; [by split_and!|]);
    rewrite <- (assoc_L (++));
    exact (alter_new (leaves (pi_doc pi)) [leaf_init T_FIXNUM] _ (set_str (pi_s pi))).
Qed.

Lemma read_num_builds pi r pi' :
  Ok (read_num pi) = Ok (r, pi') → built (pi_doc pi) r (pi_doc pi').
Proof.
  intros [= E]. destruct (read_num_doc pi) as (ty & Hty & Hr & Hc & HL).
  rewrite E in Hr, Hc, HL. cbn [fst snd] in Hr, Hc, HL. subst r.
  apply (leaf_built _ [leaf_init T_FIXNUM] ty (set_str (pi_s pi))); try done.
  - cbn. lia.
  - by destruct Hty as [-> | ->].
  - by destruct Hty as [-> | ->].
  - apply Forall_singleton, plain_init.
Qed.

Lemma read_word_builds t letters msg : t ≠ T_NONE → builds (read_word t letters msg).
Proof.
  intros Ht pi r pi'. unfold read_word, leaf_new. cbv beta iota zeta.
  destruct (expect _ _ _); [|done]. intros [= <- <-].
  apply (leaf_built _ [] t (λ l, l)); try done.
  apply parent_type_leaf_init.
Qed.

Lemma built_null d : built d NULL d.
Proof. by repeat split. Qed.

Lemma built_size d r d' n : built d r d' → built d r (set_size n d').
Proof. done. Qed.

(** Every read builds a tree, or nothing. *)
Lemma read_next_builds fuel : builds (read_next fuel).
Proof.
  induction fuel as [|fuel IH]; intros pi r pi'; [done|].
  cbn [read_next].
  match goal with
  | |- mbind _ ?m = _ → _ =>
      assert (∀ r0 pi0, m = Ok (r0, pi0) → built (pi_doc pi) r0 (pi_doc pi0)) as Hm
  end.
  { change (pi_doc pi) with (pi_doc (next_non_white pi)).
    intros r0 pi0.
    destruct (cur (next_non_white pi)) as [[] [] [] [] [] [] [] []];
      cbv beta match; intros Hm;
      first [ injection Hm as <- <-; apply built_null
            | exact (read_obj_builds _ IH fuel _ _ _ Hm)
            | exact (read_array_builds _ IH fuel _ _ _ Hm)
            | exact (read_str_builds _ _ _ Hm)
            | exact (read_num_builds _ _ _ Hm)
            | exact (read_word_builds T_TRUE _ _ ltac:(done) _ _ _ Hm)
            | exact (read_word_builds T_FALSE _ _ ltac:(done) _ _ _ Hm)
            | exact (read_word_builds T_NIL _ _ ltac:(done) _ _ _ Hm) ]. }
  match goal with |- mbind _ ?m = _ → _ => destruct m as [[r0 pi0]|] eqn:E end;
    cbn [mbind res_bind]; [|done].
  intros [= <- <-]. apply built_size. by apply Hm.
Qed.

Lemma plain_heap_ok H L : Forall plain L → heap_ok H L.
Proof.
  intros HL a l Hl Hv o Ho.
  destruct (Forall_lookup_1 _ _ _ _ HL Hl Hv) as [[_ E]|[[_ E]|[_ E]]]; congruence.
Qed.



(** ** What follows the first value *)

(** X10.  [Oj::Doc.open] reads one value and stops: on a text that starts
    (after white space) with a valid JSON value it succeeds whatever bytes
    follow the value - they only must not continue a number - with the root
    set, the scanner just behind the value, and the bytes that follow left as
    they were. *)
Theorem X10_open_stops_after_first_value v ws post :
  valid v → ws_ok ws → ends_number (post ++ [NUL]) →
  ∃ pi a, doc_open (ws ++ render v ++ post) = Ok pi ∧
    data (pi_doc pi) = At a ∧
    pi_s pi = (length ws + length (render v))%nat ∧
    rem pi = post ++ [NUL].
Proof.
  intros Hv Hw He. unfold doc_open, parse_json.
  pose proof (proj1 length_render_tokens v Hv) as Ht.
  destruct (proj1 scans_all v Hv (S (length (ws ++ render v ++ post)))
              (mkPI ((ws ++ render v ++ post) ++ [NUL]) 0 doc_init) ws (post ++ [NUL]))
    as (a & [b s d] & -> & S1 & R1 & L1 & Z1); [| |done..|].
  { rewrite !length_app. lia. }
  { unfold rem. cbn [pi_str pi_s drop]. list_norm. }
  cbn [mbind res_bind]. eexists _, a. split; [done|].
  cbn [pi_doc pi_s set_doc set_where set_where_path set_data data] in *.
  split; [done|]. split; [done|]. exact R1.
Qed.

Lemma X10_witness :
  ∃ pi a, doc_open ([" "%char] ++ render nested_7 ++ dq "]x") = Ok pi ∧
    data (pi_doc pi) = At a ∧
    pi_s pi = (length [" "%char] + length (render nested_7))%nat ∧
    rem pi = dq "]x" ++ [NUL].
Proof.
  apply (X10_open_stops_after_first_value nested_7 [" "%char] (dq "]x")).
  - cbn. repeat first [split | apply Forall_nil_2 | apply Forall_cons_2 | discriminate | reflexivity].
  - apply Forall_cons_2; [reflexivity|apply Forall_nil_2].
  - by split_and!.
Defined.
